(** * cpparse: the argument-matching and typed-extraction engine

    A shallow embedding of [include/argument-parser.h] (class
    [argparse::Argument_Parser]) and the properties of its registry,
    scanner and typed extractor.

    Conventions of the embedding:
    - [std::string] and [char const *] are [string]; [char] is [ascii];
    - [std::unordered_map] is stdpp's [gmap], [std::vector] is [list];
    - [long double] and the floating point types are those of the platform,
      the members of the class [Std.Floating_Point];
    - [int] and [std::size_t] counters are [Z] and [nat]; no arithmetic on
      them can leave the machine range on the paths modelled here;
    - a [throw] is the outcome [Throw], [std::exit] is [Exit], reading an
      array slot that does not exist is [Undefined];
    - a non-const member function returns its outcome together with the
      object as it is when the call ends (normally or by an exception). *)

From stdpp Require Import base gmap strings list fin_maps.
From Stdlib Require Import Ascii ZArith Lia.

Local Open Scope Z_scope.

(** ** Regular expressions

    The four patterns of the header are written as regex syntax trees and
    matched with Brzozowski derivatives; [regex_match] is a whole-string
    match, as [std::regex_match] is. *)

Module Regex.

Inductive regex : Type :=
| Void
| Eps
| Class (cls : ascii → bool)
| Cat (r1 r2 : regex)
| Alt (r1 r2 : regex)
| Star (r : regex).

(** [r?] and [r+] *)
Definition Opt (r : regex) : regex := Alt r Eps.
Definition Plus (r : regex) : regex := Cat r (Star r).

Fixpoint nullable (r : regex) : bool :=
  match r with
  | Void => false
  | Eps => true
  | Class _ => false
  | Cat r1 r2 => nullable r1 && nullable r2
  | Alt r1 r2 => nullable r1 || nullable r2
  | Star _ => true
  end.

Fixpoint deriv (c : ascii) (r : regex) : regex :=
  match r with
  | Void => Void
  | Eps => Void
  | Class cls => if cls c then Eps else Void
  | Cat r1 r2 =>
      Alt (Cat (deriv c r1) r2) (if nullable r1 then deriv c r2 else Void)
  | Alt r1 r2 => Alt (deriv c r1) (deriv c r2)
  | Star r1 => Cat (deriv c r1) (Star r1)
  end.

Fixpoint regex_match (r : regex) (s : string) : bool :=
  match s with
  | EmptyString => nullable r
  | String c s' => regex_match (deriv c r) s'
  end.

(** Whole-string match of [pre(grp)]: the text of the capture group
    ([m[1]]), or [None] when the string does not match.  The prefix takes
    as many characters as it can first (greedy quantifiers). *)
Fixpoint regex_match_group (pre grp : regex) (s : string) : option string :=
  match s with
  | EmptyString => if nullable pre && nullable grp then Some EmptyString else None
  | String c s' =>
      match regex_match_group (deriv c pre) grp s' with
      | Some g => Some g
      | None => if nullable pre && regex_match grp s then Some s else None
      end
  end.

(** A regex that certainly matches nothing. *)
Fixpoint void (r : regex) : bool :=
  match r with
  | Void => true
  | Eps => false
  | Class _ => false
  | Cat r1 r2 => void r1 || void r2
  | Alt r1 r2 => void r1 && void r2
  | Star _ => false
  end.

(** No character class of [r] accepts [c]. *)
Fixpoint rejects (c : ascii) (r : regex) : bool :=
  match r with
  | Void | Eps => true
  | Class cls => negb (cls c)
  | Cat r1 r2 | Alt r1 r2 => rejects c r1 && rejects c r2
  | Star r1 => rejects c r1
  end.

End Regex.
Import Regex.

(** ** Characters and C strings *)

Definition NUL : ascii := ascii_of_N 0.

Definition char_in (lo hi c : ascii) : bool :=
  ((N_of_ascii lo <=? N_of_ascii c)
   && (N_of_ascii c <=? N_of_ascii hi))%N.

Definition is_char (x c : ascii) : bool := bool_decide (c = x).

(** [[a-zA-Z_]] *)
Definition name_start_char (c : ascii) : bool :=
  char_in "a" "z" c || char_in "A" "Z" c || is_char "_" c.

(** [[a-zA-Z0-9_-]] *)
Definition name_char (c : ascii) : bool :=
  char_in "a" "z" c || char_in "A" "Z" c || char_in "0" "9" c
  || is_char "_" c || is_char "-" c.

(** [\w], in the "C" locale: alphanumeric or underscore *)
Definition word_char (c : ascii) : bool :=
  char_in "a" "z" c || char_in "A" "Z" c || char_in "0" "9" c || is_char "_" c.

(** [std::string::c_str()] read as a C string: the characters before the
    first NUL. *)
Fixpoint c_str (s : string) : string :=
  match s with
  | EmptyString => EmptyString
  | String c s' => if bool_decide (c = NUL) then EmptyString else String c (c_str s')
  end.

(** [s[0]]; for the empty string this is the terminating NUL. *)
Definition string_front (s : string) : ascii :=
  match s with
  | EmptyString => NUL
  | String c _ => c
  end.

(** [value.find(c) != std::string::npos] *)
Fixpoint string_contains (c : ascii) (s : string) : bool :=
  match s with
  | EmptyString => false
  | String c' s' => bool_decide (c' = c) || string_contains c s'
  end.

Definition string_empty (s : string) : bool :=
  match s with
  | EmptyString => true
  | String _ _ => false
  end.

(** ** The name patterns *)

(** [\w[a-zA-Z0-9_-]*] *)
Definition positional_name_regex : regex :=
  Cat (Class word_char) (Star (Class name_char)).

(** [-([a-zA-Z_]|-?[a-zA-Z_][a-zA-Z0-9_-]+)] *)
Definition option_name_regex : regex :=
  Cat (Class (is_char "-"))
      (Alt (Class name_start_char)
           (Cat (Opt (Class (is_char "-")))
                (Cat (Class name_start_char) (Plus (Class name_char))))).

(** [--?([a-zA-Z_][a-zA-Z0-9_-]+)], split at its capture group *)
Definition long_name_prefix : regex :=
  Cat (Class (is_char "-")) (Opt (Class (is_char "-"))).
Definition long_name_group : regex :=
  Cat (Class name_start_char) (Plus (Class name_char)).

(** [-([a-zA-Z_])], split at its capture group *)
Definition flag_name_prefix : regex := Class (is_char "-").
Definition flag_name_group : regex := Class name_start_char.

(** Check whether the positional argument name is valid. *)
Definition valid_positional_name (name : string) : bool :=
  regex_match positional_name_regex (c_str name).

(** Check whether the optional argument name is valid. *)
Definition valid_option_name (name : string) : bool :=
  regex_match option_name_regex (c_str name).

(** Format the option name by removing any leading '-' characters:
    [m.size() < 2 ? "" : m[1].str()]. *)
Definition format_option_name (name : string) : string :=
  match regex_match_group long_name_prefix long_name_group (c_str name) with
  | Some g => g
  | None => ""
  end.

(** Format the flag name by removing the leading '-' character. *)
Definition format_flag_name (name : string) : string :=
  match regex_match_group flag_name_prefix flag_name_group (c_str name) with
  | Some g => g
  | None => ""
  end.

(** ** Exceptions and outcomes *)

(** One constructor per [throw] of the header, with the values its message
    is built from. *)
Inductive exn : Type :=
(* add_positional: std::logic_error *)
| Invalid_positional_name (name : string)
| Duplicate_positional_name (name : string)
| Positional_conflicts_with_optional (name : string)
(* add_optional: std::logic_error *)
| Invalid_optional_name (long_name : string)
| Duplicate_optional_name (formatted_name : string)
| Optional_conflicts_with_positional (formatted_name : string)
| Invalid_flag_name (flag : string)
| Duplicate_flag_name (flag : string)
(* parse_args: std::runtime_error; reserve: std::length_error *)
| Reserve_length
| Requires_positional (name : string)
| Invalid_option (option_name : string)
| Invalid_flag (option_name : string)
| Specified_once (option_name : string)
| Requires_value (option_name : string)
(* has_arg, arg_count: std::logic_error *)
| No_optional_argument (name : string)
(* arg_at: std::logic_error; optional_arg: std::out_of_range *)
| No_value_no_default (name : string)
| No_argument (name : string)
| Index_out_of_range (idx : nat) (name : string)
(* parse_string_arg: std::runtime_error *)
| Must_be_true_or_false (name : string)
| Must_be_single_character (name : string)
| Must_be_integral (name : string)
| Must_be_in_range (name : string).

(** The failure kinds of the specification. *)
Inductive Error_Kind : Type :=
| ConflictError
| UnknownOptionError
| MissingPositionalError
| MissingValueError
| DuplicateError
| UnknownArgumentError
| NoValueError
| IndexOutOfRangeError
| TypeConversionError
| RangeError.

Definition error_kind (e : exn) : option Error_Kind :=
  match e with
  | Invalid_positional_name _ | Duplicate_positional_name _
  | Positional_conflicts_with_optional _ | Invalid_optional_name _
  | Duplicate_optional_name _ | Optional_conflicts_with_positional _
  | Invalid_flag_name _ | Duplicate_flag_name _ => Some ConflictError
  | Reserve_length => None
  | Requires_positional _ => Some MissingPositionalError
  | Invalid_option _ | Invalid_flag _ => Some UnknownOptionError
  | Specified_once _ => Some DuplicateError
  | Requires_value _ => Some MissingValueError
  | No_optional_argument _ | No_argument _ => Some UnknownArgumentError
  | No_value_no_default _ => Some NoValueError
  | Index_out_of_range _ _ => Some IndexOutOfRangeError
  | Must_be_true_or_false _ | Must_be_single_character _
  | Must_be_integral _ => Some TypeConversionError
  | Must_be_in_range _ => Some RangeError
  end.

Inductive outcome (A : Type) : Type :=
| Ret (a : A)
| Throw (e : exn)
| Exit (status : Z)
| Undefined
| OutOfFuel.
Arguments Ret {A} a.
Arguments Throw {A} e.
Arguments Exit {A} status.
Arguments Undefined {A}.
Arguments OutOfFuel {A}.

Definition outcome_bind {A B} (m : outcome A) (k : A → outcome B) : outcome B :=
  match m with
  | Ret a => k a
  | Throw e => Throw e
  | Exit status => Exit status
  | Undefined => Undefined
  | OutOfFuel => OutOfFuel
  end.

#[global] Instance outcome_mbind : MBind outcome :=
  λ A B k m, outcome_bind m k.
#[global] Instance outcome_mret : MRet outcome := @Ret.

(** ** The standard conversions [std::stoll], [std::stoull] and [std::stold]

    [strtoll]/[strtoull] in base 10: leading white space is skipped, an
    optional sign is read, then the longest run of decimal digits; what
    follows the digits is ignored.  No digit at all is
    [std::invalid_argument], a value outside the result type is
    [std::out_of_range]. *)

Module Std.

Inductive conv (N : Type) : Type :=
| Converted (n : N)
| invalid_argument
| out_of_range.
Arguments Converted {N} n.
Arguments invalid_argument {N}.
Arguments out_of_range {N}.

Definition LLONG_MIN : Z := - 2 ^ 63.
Definition LLONG_MAX : Z := 2 ^ 63 - 1.
Definition ULLONG_MAX : Z := 2 ^ 64 - 1.

Definition isspace (c : ascii) : bool :=
  is_char " " c || char_in "009" "013" c.

Definition isdigit (c : ascii) : bool := char_in "0" "9" c.

Definition digit_value (c : ascii) : Z :=
  Z.of_N (N_of_ascii c) - Z.of_N (N_of_ascii "0").

Fixpoint skip_spaces (s : string) : string :=
  match s with
  | String c s' => if isspace c then skip_spaces s' else s
  | EmptyString => s
  end.

(** the optional sign: is it '-', and what follows it *)
Definition read_sign (s : string) : bool * string :=
  match s with
  | String c s' =>
      if is_char "-" c then (true, s')
      else if is_char "+" c then (false, s')
      else (false, s)
  | EmptyString => (false, s)
  end.

(** the leading decimal digits *)
Fixpoint read_digits (s : string) : list Z :=
  match s with
  | String c s' => if isdigit c then digit_value c :: read_digits s' else []
  | EmptyString => []
  end.

Definition decimal (ds : list Z) : Z :=
  foldl (λ acc d, 10 * acc + d) 0 ds.

Definition stoll (str : string) : conv Z :=
  let '(negative, s) := read_sign (skip_spaces str) in
  match read_digits s with
  | [] => invalid_argument
  | ds =>
      let n := if negative : bool then - decimal ds else decimal ds in
      if (n <? LLONG_MIN) || (LLONG_MAX <? n) then out_of_range
      else Converted n
  end.

(** [strtoull] negates a value written with '-' in unsigned arithmetic. *)
Definition stoull (str : string) : conv Z :=
  let '(negative, s) := read_sign (skip_spaces str) in
  match read_digits s with
  | [] => invalid_argument
  | ds =>
      let n := decimal ds in
      if ULLONG_MAX <? n then out_of_range
      else Converted (if negative : bool then (- n) `mod` 2 ^ 64 else n)
  end.

(** [std::stold] calls [strtold]; it throws [std::invalid_argument] when no
    conversion could be performed and [std::out_of_range] when [strtold]
    has set [errno] to [ERANGE].

    Whether a number can be read is a matter of syntax (C locale): behind
    the leading white space and an optional sign the text must start with
    a decimal digit, with a point followed by a decimal digit, or with
    [inf] or [nan] in any case (a hexadecimal number starts with the digit
    0); what follows the number is ignored.

    The value of the number read and whether it sets [ERANGE] depend on
    the [long double] format of the platform, as do the limits of the
    floating point types and the conversions between them: they are the
    members of [Floating_Point]. *)

Inductive floating_kind : Type := FLOAT | DOUBLE | LONG_DOUBLE.

Class Floating_Point : Type := {
  long_double : Type;
  (* the value [strtold] returns for a string that holds a number *)
  strtold : string → long_double;
  (* whether [errno] is [ERANGE] after that call *)
  strtold_ERANGE : string → bool;
  (* [operator<] *)
  long_double_less : long_double → long_double → bool;
  (* [std::numeric_limits<T>::lowest()] and [max()], as [long double] *)
  numeric_limits_lowest : floating_kind → long_double;
  numeric_limits_max : floating_kind → long_double;
  (* the conversion of a [long double] to [T] *)
  long_double_to : floating_kind → long_double → long_double;
  (* [T{}] *)
  long_double_zero : long_double
}.

Definition either_char (x y c : ascii) : bool := is_char x c || is_char y c.

(** Does a number start here (behind white space and sign)? *)
Definition starts_number (s : string) : bool :=
  match s with
  | String c1 s1 =>
      isdigit c1
      || match s1 with
         | String c2 s2 =>
             (is_char "." c1 && isdigit c2)
             || match s2 with
                | String c3 _ =>
                    (either_char "i" "I" c1 && either_char "n" "N" c2
                     && either_char "f" "F" c3)
                    || (either_char "n" "N" c1 && either_char "a" "A" c2
                        && either_char "n" "N" c3)
                | EmptyString => false
                end
         | EmptyString => false
         end
  | EmptyString => false
  end.

Definition stold `{Floating_Point} (str : string) : conv long_double :=
  if starts_number (read_sign (skip_spaces str)).2 then
    if strtold_ERANGE str then out_of_range
    else Converted (strtold str)
  else invalid_argument.

End Std.

(** ** The data model *)

(** Optional argument type. *)
Inductive Optional_Type : Type := FLAG | SINGLE | APPEND.

#[global] Instance Optional_Type_eq_dec : EqDecision Optional_Type.
Proof. solve_decision. Defined.

Record Positional_Info : Type := mk_Positional_Info {
  value : string;
  positional_help_text : string
}.

Record Optional_Info : Type := mk_Optional_Info {
  flag : ascii;
  type : Optional_Type;
  values : list string;
  help_text : string
}.

Record Argument_Parser : Type := mk_Argument_Parser {
  m_scriptname : string;
  m_positional_order : list string;
  m_positional_args : gmap string Positional_Info;
  m_optional_order : list string;
  m_optional_args : gmap string Optional_Info;
  m_flags : gmap ascii string
}.

Definition set_value (v : string) (info : Positional_Info) : Positional_Info :=
  {| value := v; positional_help_text := positional_help_text info |}.

Definition set_flag (c : ascii) (info : Optional_Info) : Optional_Info :=
  {| flag := c; type := type info; values := values info; help_text := help_text info |}.

(** [info.values.push_back(v)] *)
Definition push_value (v : string) (info : Optional_Info) : Optional_Info :=
  {| flag := flag info; type := type info; values := values info ++ [v];
     help_text := help_text info |}.

Definition set_scriptname (s : string) (p : Argument_Parser) : Argument_Parser :=
  {| m_scriptname := s;
     m_positional_order := m_positional_order p;
     m_positional_args := m_positional_args p;
     m_optional_order := m_optional_order p;
     m_optional_args := m_optional_args p;
     m_flags := m_flags p |}.

Definition set_positional_args (args : gmap string Positional_Info)
    (p : Argument_Parser) : Argument_Parser :=
  {| m_scriptname := m_scriptname p;
     m_positional_order := m_positional_order p;
     m_positional_args := args;
     m_optional_order := m_optional_order p;
     m_optional_args := m_optional_args p;
     m_flags := m_flags p |}.

Definition set_optional_args (args : gmap string Optional_Info)
    (p : Argument_Parser) : Argument_Parser :=
  {| m_scriptname := m_scriptname p;
     m_positional_order := m_positional_order p;
     m_positional_args := m_positional_args p;
     m_optional_order := m_optional_order p;
     m_optional_args := args;
     m_flags := m_flags p |}.

(** [m_positional_args[name]]: a missing key is created with a
    value-initialised [Positional_Info]. *)
Definition positional_at (args : gmap string Positional_Info) (name : string)
    : Positional_Info :=
  default (mk_Positional_Info "" "") (args !! name).

(** [m_optional_args[name]] *)
Definition optional_at (args : gmap string Optional_Info) (name : string)
    : Optional_Info :=
  default (mk_Optional_Info NUL FLAG [] "") (args !! name).

(** ** The registry: declarations *)

(** The members of an [Argument_Parser] before its constructor body runs. *)
Definition empty_parser : Argument_Parser :=
  {| m_scriptname := "";
     m_positional_order := [];
     m_positional_args := ∅;
     m_optional_order := [];
     m_optional_args := ∅;
     m_flags := ∅ |}.

(** Define a positional argument with the given name. *)
Definition add_positional (p : Argument_Parser) (name help_text : string)
    : outcome unit * Argument_Parser :=
  if negb (valid_positional_name name) then
    (Throw (Invalid_positional_name name), p)
  else if decide (is_Some (m_positional_args p !! name)) then
    (Throw (Duplicate_positional_name name), p)
  else if decide (is_Some (m_optional_args p !! name)) then
    (Throw (Positional_conflicts_with_optional name), p)
  else
    (Ret (),
     {| m_scriptname := m_scriptname p;
        m_positional_order := m_positional_order p ++ [name];
        m_positional_args :=
          <[name := mk_Positional_Info "" help_text]> (m_positional_args p);
        m_optional_order := m_optional_order p;
        m_optional_args := m_optional_args p;
        m_flags := m_flags p |}).

(** Define an optional argument with the given "long" name and type;
    returns the reference name. *)
Definition add_optional (p : Argument_Parser) (long_name : string)
    (type : Optional_Type) (help_text : string)
    : outcome string * Argument_Parser :=
  let formatted_name := format_option_name long_name in
  if string_empty formatted_name then
    (Throw (Invalid_optional_name long_name), p)
  else if decide (is_Some (m_optional_args p !! formatted_name)) then
    (Throw (Duplicate_optional_name formatted_name), p)
  else if decide (is_Some (m_positional_args p !! formatted_name)) then
    (Throw (Optional_conflicts_with_positional formatted_name), p)
  else
    (Ret formatted_name,
     {| m_scriptname := m_scriptname p;
        m_positional_order := m_positional_order p;
        m_positional_args := m_positional_args p;
        m_optional_order := m_optional_order p ++ [formatted_name];
        m_optional_args :=
          <[formatted_name := mk_Optional_Info " " type [] help_text]>
            (m_optional_args p);
        m_flags := m_flags p |}).

(** Define an optional argument with the given flag name, "long" name and
    type (the four-argument overload of [add_optional]). *)
Definition add_optional_flag (p : Argument_Parser) (flag long_name : string)
    (type : Optional_Type) (help_text : string)
    : outcome string * Argument_Parser :=
  let formatted_name := format_flag_name flag in
  if string_empty formatted_name then
    (Throw (Invalid_flag_name flag), p)
  else if decide (is_Some (m_flags p !! string_front formatted_name)) then
    (Throw (Duplicate_flag_name flag), p)
  else
    match add_optional p long_name type help_text with
    | (Ret reference_name, p) =>
        (Ret reference_name,
         {| m_scriptname := m_scriptname p;
            m_positional_order := m_positional_order p;
            m_positional_args := m_positional_args p;
            m_optional_order := m_optional_order p;
            m_optional_args :=
              <[reference_name :=
                  set_flag (string_front formatted_name)
                    (optional_at (m_optional_args p) reference_name)]>
                (m_optional_args p);
            m_flags :=
              <[string_front formatted_name := reference_name]> (m_flags p) |})
    | failure => failure
    end.

(** The constructor: [add_optional("-h", "--help", Optional_Type::FLAG)]. *)
Definition new_parser : Argument_Parser :=
  (add_optional_flag empty_parser "-h" "--help" FLAG "").2.

(** ** The scanner *)

(** Look up the option name as either a flag or option argument and return
    the formatted option name. *)
Definition lookup_formatted_option_name (p : Argument_Parser)
    (option_name : string) : outcome string :=
  let flag_name := format_flag_name option_name in
  if negb (string_empty flag_name) then
    match m_flags p !! string_front flag_name with
    | None => Throw (Invalid_flag option_name)
    | Some reference_name => Ret reference_name
    end
  else Ret (format_option_name option_name).

(** Parse optional argument from the list of user-provided arguments;
    [optional_args] is updated in place, the new [argi] is returned. *)
Definition parse_optional_arg (p : Argument_Parser)
    (optional_args : gmap string Optional_Info) (option_name : string)
    (argi argc : Z) (argv : list string)
    : outcome (gmap string Optional_Info * Z) :=
  formatted_option_name ← lookup_formatted_option_name p option_name;
  if decide (formatted_option_name = "help") then
    Exit 0 (* print_help(); std::exit(0) *)
  else
    match optional_args !! formatted_option_name with
    | None => Throw (Invalid_option option_name)
    | Some info =>
        if decide (type info = FLAG) then
          if negb (bool_decide (values info = [])) then
            Throw (Specified_once option_name)
          else
            Ret (<[formatted_option_name := push_value "true" info]> optional_args,
                 argi)
        else
          let argi := argi + 1 in
          if decide (argi = argc) then Throw (Requires_value option_name)
          else
            match argv !! Z.to_nat argi with
            | None => Undefined
            | Some string_val =>
                if valid_option_name string_val then
                  Throw (Requires_value option_name)
                else if bool_decide (type info ≠ APPEND)
                        && negb (bool_decide (values info = [])) then
                  Throw (Specified_once option_name)
                else
                  Ret (<[formatted_option_name := push_value string_val info]>
                         optional_args,
                       argi)
            end
    end.

(** The loop [for (int argi = 1; argi < argc; ++argi)] of [parse_args],
    entered at [argi]; every iteration uses one unit of [fuel]. *)
Fixpoint parse_args_loop (fuel : nat) (p : Argument_Parser)
    (optional_args : gmap string Optional_Info) (positional_args : list string)
    (argi argc : Z) (argv : list string)
    : outcome (gmap string Optional_Info * list string) :=
  if decide (argi < argc) then
    match fuel with
    | O => OutOfFuel
    | S fuel =>
        match argv !! Z.to_nat argi with
        | None => Undefined
        | Some string_arg =>
            if valid_option_name string_arg then
              '(optional_args, argi) ←
                parse_optional_arg p optional_args string_arg argi argc argv;
              parse_args_loop fuel p optional_args positional_args
                (argi + 1) argc argv
            else
              parse_args_loop fuel p optional_args
                (positional_args ++ [string_arg]) (argi + 1) argc argv
        end
    end
  else Ret (optional_args, positional_args).

(** [for (pos_idx = 0; pos_idx < m_positional_order.size(); ++pos_idx)
       m_positional_args[m_positional_order[pos_idx]].value = positional_args[pos_idx];] *)
Definition assign_positionals (order positional_args : list string)
    (args : gmap string Positional_Info) : gmap string Positional_Info :=
  foldl (λ args pos_idx,
           match order !! pos_idx, positional_args !! pos_idx with
           | Some name, Some v => <[name := set_value v (positional_at args name)]> args
           | _, _ => args
           end)
        args (seq 0 (length order)).

(** [for ( ; pos_idx < positional_args.size(); ++pos_idx)
       argv[pos_idx - m_positional_order.size() + 1] = positional_args[pos_idx];] *)
Definition rethread_leftovers (n : nat) (positional_args argv : list string)
    : list string :=
  foldl (λ argv pos_idx,
           match positional_args !! pos_idx with
           | Some v => <[(pos_idx - n + 1)%nat := v]> argv
           | None => argv
           end)
        argv (seq n (length positional_args - n)).

(** Parse the user-provided command-line arguments and match the values to
    the program arguments.  [argc] and [argv] are passed by reference: the
    result holds the parser, [argc] and [argv] as the call leaves them. *)
Definition parse_args (p : Argument_Parser) (argc : Z) (argv : list string)
    : outcome unit * (Argument_Parser * Z * list string) :=
  match argv !! 0%nat with
  | None => (Undefined, (p, argc, argv))
  | Some scriptname =>
      let p := set_scriptname scriptname p in
      if decide (argc - 1 < 0) then
        (* positional_args.reserve(argc - 1) with a negative int *)
        (Throw Reserve_length, (p, argc, argv))
      else
        match parse_args_loop (Z.to_nat argc) p (m_optional_args p) [] 1 argc argv with
        | Ret (optional_args, positional_args) =>
            if decide (length positional_args < length (m_positional_order p))%nat then
              (Throw (Requires_positional
                        (default "" (m_positional_order p !! length positional_args))),
               (p, argc, argv))
            else
              let p := set_optional_args optional_args p in
              let p :=
                set_positional_args
                  (assign_positionals (m_positional_order p) positional_args
                     (m_positional_args p)) p in
              let n := length (m_positional_order p) in
              (Ret (),
               (p,
                Z.of_nat (length positional_args) - Z.of_nat n + 1,
                rethread_leftovers n positional_args argv))
        | Throw e => (Throw e, (p, argc, argv))
        | Exit status => (Exit status, (p, argc, argv))
        | Undefined => (Undefined, (p, argc, argv))
        | OutOfFuel => (OutOfFuel, (p, argc, argv))
        end
  end.

(** ** The typed value extractor *)

(** Determine whether the user has supplied a value for the specified
    optional argument. *)
Definition has_arg (p : Argument_Parser) (name : string) : outcome bool :=
  match m_optional_args p !! name with
  | None => Throw (No_optional_argument name)
  | Some info => Ret (negb (bool_decide (values info = [])))
  end.

(** Get the number of values provided for the specified optional argument. *)
Definition arg_count (p : Argument_Parser) (name : string) : outcome nat :=
  match m_optional_args p !! name with
  | None => Throw (No_optional_argument name)
  | Some info => Ret (length (values info))
  end.

(** Retrieve the value of the (possibly) user-supplied optional argument. *)
Definition optional_arg (name : string) (info : Optional_Info) (idx : nat)
    : outcome string :=
  match values info !! idx with
  | Some v => Ret v
  | None =>
      if bool_decide (values info = []) then
        Ret (if decide (type info = FLAG) then "false" else "")
      else Throw (Index_out_of_range idx name)
  end.

(** [std::stoull] overload to prevent unsigned integer wrap-around. *)
Definition stoull (value : string) : Std.conv Z :=
  if string_contains "-" value then Std.out_of_range
  else Std.stoull value.

(** Parse the string argument as a numeric of type T: [convert_func] yields
    a value of the wide type [N], which must lie within the limits of [T]
    (given in [N]) and is then returned as a [T]. *)
Definition parse_numeric_arg {N T : Type} (less : N → N → bool)
    (lowest max : N) (to_T : N → T) (name value : string)
    (convert_func : string → Std.conv N) : outcome T :=
  match convert_func value with
  | Std.Converted n_value =>
      if less n_value lowest || less max n_value then
        Throw (Must_be_in_range name)
      else Ret (to_T n_value)
  | Std.invalid_argument => Throw (Must_be_integral name)
  | Std.out_of_range => Throw (Must_be_in_range name)
  end.

(** The requested output types.  [parse_string_arg] is the overload set of
    the header, [value_initialized] is [T{}]. *)
Class Arg_Type (T : Type) : Type := {
  value_initialized : T;
  parse_string_arg : string → string → outcome T
}.

(** The integer types, by their width. *)
Inductive width : Type := W8 | W16 | W32 | W64.

Definition bits (w : width) : Z :=
  match w with
  | W8 => 8
  | W16 => 16
  | W32 => 32
  | W64 => 64
  end.

Record unsigned_integral (w : width) : Type := Unsigned { unsigned_value : Z }.
Record signed_integral (w : width) : Type := Signed { signed_value : Z }.
Arguments Unsigned {w} _.
Arguments unsigned_value {w} _.
Arguments Signed {w} _.
Arguments signed_value {w} _.

#[global] Instance bool_arg : Arg_Type bool := {|
  value_initialized := false;
  parse_string_arg name value :=
    if decide (value = "true") then Ret true
    else if decide (value = "false") then Ret false
    else Throw (Must_be_true_or_false name)
|}.

#[global] Instance char_arg : Arg_Type ascii := {|
  value_initialized := NUL;
  parse_string_arg name value :=
    if decide (String.length value ≠ 1%nat) then
      Throw (Must_be_single_character name)
    else Ret (string_front value)
|}.

#[global] Instance unsigned_arg (w : width) : Arg_Type (unsigned_integral w) := {|
  value_initialized := Unsigned 0;
  parse_string_arg name value :=
    parse_numeric_arg Z.ltb 0 (2 ^ bits w - 1) Unsigned name value stoull
|}.

#[global] Instance signed_arg (w : width) : Arg_Type (signed_integral w) := {|
  value_initialized := Signed 0;
  parse_string_arg name value :=
    parse_numeric_arg Z.ltb (- 2 ^ (bits w - 1)) (2 ^ (bits w - 1) - 1) Signed
      name value Std.stoll
|}.

(** The floating point types, by their kind; a value is held as the
    [long double] it is equal to. *)
Record floating_point `{Std.Floating_Point} (k : Std.floating_kind) : Type :=
  Floating { floating_value : Std.long_double }.
Arguments Floating {_ k} _.
Arguments floating_value {_ k} _.

#[global] Instance floating_arg `{Std.Floating_Point} (k : Std.floating_kind)
    : Arg_Type (floating_point k) := {|
  value_initialized := Floating Std.long_double_zero;
  parse_string_arg name value :=
    parse_numeric_arg Std.long_double_less
      (Std.numeric_limits_lowest k) (Std.numeric_limits_max k)
      (λ n_value, Floating (Std.long_double_to k n_value))
      name value Std.stold
|}.

#[global] Instance string_arg : Arg_Type string := {|
  value_initialized := "";
  parse_string_arg _ value := Ret value
|}.

(** Retrieve the value for the argument at the specified index with the
    given default value (the private four-argument [arg_at]). *)
Definition arg_at {T} `{Arg_Type T} (p : Argument_Parser) (name : string)
    (idx : nat) (has_default : bool) (default_val : T) : outcome T :=
  match m_optional_args p !! name with
  | Some info =>
      value ← optional_arg name info idx;
      if string_empty value then
        if negb has_default then Throw (No_value_no_default name)
        else Ret default_val
      else parse_string_arg name value
  | None =>
      match m_positional_args p !! name with
      | None => Throw (No_argument name)
      | Some info => parse_string_arg name (value info)
      end
  end.

(** [arg_at<T>(name, idx)] *)
Definition arg_at_index {T} `{Arg_Type T} (p : Argument_Parser) (name : string)
    (idx : nat) : outcome T :=
  arg_at p name idx false value_initialized.

(** [arg_at<T>(name, idx, default_val)] *)
Definition arg_at_index_default {T} `{Arg_Type T} (p : Argument_Parser)
    (name : string) (idx : nat) (default_val : T) : outcome T :=
  arg_at p name idx true default_val.

(** [arg<T>(name)] *)
Definition arg {T} `{Arg_Type T} (p : Argument_Parser) (name : string)
    : outcome T :=
  arg_at_index p name 0.

(** [arg<T>(name, default_val)] *)
Definition arg_default {T} `{Arg_Type T} (p : Argument_Parser) (name : string)
    (default_val : T) : outcome T :=
  arg_at_index_default p name 0 default_val.

(** ** The scan, as the specification words it

    Section 4.3 of the specification walks the tokens once: an option-like
    token of Flag kind advances by one, an option-like token of Single or
    Append kind advances by two (its value token is consumed), and every
    other token is collected as a positional candidate, in encounter
    order.  The following definitions follow those words; they are compared
    with the loop of [parse_args] below. *)

(** The tokens [argv[argi]], ..., [argv[argc - 1]]. *)
Definition scanned_tokens (argi argc : Z) (argv : list string) : list string :=
  take (Z.to_nat (argc - argi)) (drop (Z.to_nat argi) argv).

(** Does the declaration an option token resolves to take a value? *)
Definition takes_value (p : Argument_Parser) (token : string) : bool :=
  match lookup_formatted_option_name p token with
  | Ret reference_name =>
      match m_optional_args p !! reference_name with
      | Some info => bool_decide (type info ≠ FLAG)
      | None => false
      end
  | _ => false
  end.

(** The positional candidates of a token sequence; [skip] says that the
    next token is the value of the option before it. *)
Fixpoint positional_candidates (p : Argument_Parser) (skip : bool)
    (tokens : list string) : list string :=
  match tokens with
  | [] => []
  | token :: tokens =>
      if skip then positional_candidates p false tokens
      else if valid_option_name token then
        positional_candidates p (takes_value p token) tokens
      else token :: positional_candidates p false tokens
  end.

(** Does an option token resolve to the reference name [name]? *)
Definition resolves_to (p : Argument_Parser) (token name : string) : bool :=
  match lookup_formatted_option_name p token with
  | Ret reference_name => bool_decide (reference_name = name)
  | _ => false
  end.

(** The occurrences of the optional argument [name] in a token sequence:
    the option tokens that resolve to it, in encounter order; [skip] says
    that the next token is the value of the option before it. *)
Fixpoint occurrences (p : Argument_Parser) (name : string) (skip : bool)
    (tokens : list string) : list string :=
  match tokens with
  | [] => []
  | token :: tokens =>
      if skip then occurrences p name false tokens
      else if valid_option_name token then
        (if resolves_to p token name then [token] else [])
        ++ occurrences p name (takes_value p token) tokens
      else occurrences p name false tokens
  end.

(** The values a token sequence gives to the optional argument [name], in
    encounter order: the token behind each of its occurrences; [pending]
    says that the next token is the value of the option before it, and
    whether that option is [name]. *)
Fixpoint occurrence_values (p : Argument_Parser) (name : string)
    (pending : option bool) (tokens : list string) : list string :=
  match tokens with
  | [] => []
  | token :: tokens =>
      match pending with
      | Some mine =>
          (if mine : bool then [token] else [])
          ++ occurrence_values p name None tokens
      | None =>
          if valid_option_name token && takes_value p token then
            occurrence_values p name (Some (resolves_to p token name)) tokens
          else occurrence_values p name None tokens
      end
  end.

(** ** Registries a program can build *)

Inductive reachable : Argument_Parser → Prop :=
| reachable_new : reachable new_parser
| reachable_add_positional p name help_text :
    reachable p → reachable (add_positional p name help_text).2
| reachable_add_optional p long_name type help_text :
    reachable p → reachable (add_optional p long_name type help_text).2
| reachable_add_optional_flag p flag long_name type help_text :
    reachable p → reachable (add_optional_flag p flag long_name type help_text).2
| reachable_parse_args p argc argv :
    reachable p → reachable (parse_args p argc argv).2.1.1.

(** The invariant of the registry: the positional names are distinct, they
    are the keys of the positional records, and no name is both a positional
    name and an optional reference name. *)
Definition registry_invariant (p : Argument_Parser) : Prop :=
  NoDup (m_positional_order p)
  ∧ (∀ name, name ∈ m_positional_order p ↔ is_Some (m_positional_args p !! name))
  ∧ (∀ name, is_Some (m_positional_args p !! name) →
             m_optional_args p !! name = None).

(** Two maps of optional arguments that declare the same names with the
    same types. *)
Definition same_declarations (a b : gmap string Optional_Info) : Prop :=
  ∀ name, type <$> (a !! name) = type <$> (b !! name).

(** ** Further definitions: strings *)

(** Every character of [s] satisfies [P]. *)
Fixpoint string_forall (P : ascii → bool) (s : string) : bool :=
  match s with
  | EmptyString => true
  | String c s' => P c && string_forall P s'
  end.

(** ** Further definitions: invariants of the registry *)

(** What a declaration fixes of an optional argument: everything but its
    values. *)
Definition declaration (info : Optional_Info) : ascii * Optional_Type * string :=
  (flag info, type info, help_text info).

(** The optional side of the registry: the optional order lists the keys of
    the optional map, once each; the flag index and the flag characters of
    the records agree; reference names have the form of a long name;
    positional names pass the validity check; and the built-in [help] flag
    is registered under [h]. *)
Definition optional_invariant (p : Argument_Parser) : Prop :=
  NoDup (m_optional_order p)
  ∧ (∀ name, name ∈ m_optional_order p ↔ is_Some (m_optional_args p !! name))
  ∧ (∀ c name, m_flags p !! c = Some name →
               ∃ info, m_optional_args p !! name = Some info ∧ flag info = c)
  ∧ (∀ name info, m_optional_args p !! name = Some info →
                  flag info ≠ " "%char → m_flags p !! flag info = Some name)
  ∧ (∀ name, is_Some (m_optional_args p !! name) →
             regex_match long_name_group name = true)
  ∧ (∀ name, name ∈ m_positional_order p → valid_positional_name name = true)
  ∧ m_flags p !! "h"%char = Some "help"
  ∧ (∃ info, m_optional_args p !! "help" = Some info
             ∧ type info = FLAG ∧ flag info = "h"%char).

(** The values an optional argument of each type can hold. *)
Definition values_ok (info : Optional_Info) : Prop :=
  match type info with
  | FLAG => values info = [] ∨ values info = ["true"]
  | SINGLE =>
      (length (values info) ≤ 1)%nat
      ∧ Forall (λ v, valid_option_name v = false) (values info)
  | APPEND => Forall (λ v, valid_option_name v = false) (values info)
  end.

Definition values_invariant (p : Argument_Parser) : Prop :=
  (∀ name info, m_optional_args p !! name = Some info → values_ok info)
  ∧ (∀ name pinfo, m_positional_args p !! name = Some pinfo →
                   valid_option_name (value pinfo) = false).

(** ** Further definitions: usage and help text

    [print_usage] and [print_help] write to [std::cout]; the model is the
    text written, for a stream in its initial state (no pending width, fill
    character ' ').  [print_help] reads the records with
    [std::unordered_map::at], which throws [std::out_of_range] for a missing
    key, and calls [toupper] on the characters of a reference name, which is
    not defined for a (signed) char outside 0..127: both are outcomes of
    their own here, without the text written before them. *)

Inductive printed : Type :=
| Printed (text : string)
| At_out_of_range (key : string)
| Toupper_undefined (c : ascii).

(** [std::endl] *)
Definition endl : string := String "010" "".

Fixpoint spaces (n : nat) : string :=
  match n with
  | O => ""
  | S n => String " " (spaces n)
  end.

(** [std::left << std::setw(width) << s] *)
Definition setw_left (width : nat) (s : string) : string :=
  s +:+ spaces (width - String.length s).

(** [toupper] in the "C" locale. *)
Definition toupper (c : ascii) : option ascii :=
  if (128 <=? N_of_ascii c)%N then None
  else Some (if char_in "a" "z" c then ascii_of_N (N_of_ascii c - 32) else c).

(** Convert string to all uppercase characters: the result, or the first
    character [toupper] is not defined for. *)
Fixpoint str_to_upper (str : string) : string + ascii :=
  match str with
  | EmptyString => inl ""
  | String c str' =>
      match toupper c with
      | None => inr c
      | Some c' =>
          match str_to_upper str' with
          | inl rtn => inl (String c' rtn)
          | inr bad => inr bad
          end
      end
  end.

(** Print usage text to stdout. *)
Definition print_usage (p : Argument_Parser) : string :=
  "Usage: " +:+ m_scriptname p
  +:+ (if bool_decide (m_optional_args p = ∅) then "" else " [options]")
  +:+ foldr (λ positional text, " <" +:+ positional +:+ ">" +:+ text) ""
        (m_positional_order p)
  +:+ endl.

(** One pass of [for (const auto &positional : m_positional_order)] in
    [print_help]. *)
Definition positional_help_line (p : Argument_Parser) (positional : string)
    : printed :=
  match m_positional_args p !! positional with
  | None => At_out_of_range positional
  | Some pinfo =>
      Printed ("  " +:+ setw_left 18 positional +:+ positional_help_text pinfo
               +:+ endl)
  end.

(** One pass of [for (const auto &optional : m_optional_order)] in
    [print_help]. *)
Definition optional_help_line (p : Argument_Parser) (optional : string)
    : printed :=
  match m_optional_args p !! optional with
  | None => At_out_of_range optional
  | Some info =>
      let flag_text :=
        if bool_decide (flag info ≠ " "%char)
        then "-" +:+ String (flag info) "" +:+ ", " else "" in
      if bool_decide (type info ≠ FLAG) then
        match str_to_upper optional with
        | inr c => Toupper_undefined c
        | inl upper =>
            Printed (setw_left 30
                       ("  " +:+ flag_text +:+ "--" +:+ optional +:+ " " +:+ upper)
                     +:+ help_text info +:+ endl)
        end
      else
        Printed (setw_left 30 ("  " +:+ flag_text +:+ "--" +:+ optional)
                 +:+ help_text info +:+ endl)
  end.

(** The lines of a loop, up to the first one that fails. *)
Fixpoint print_lines (line : string → printed) (names : list string) : printed :=
  match names with
  | [] => Printed ""
  | name :: names =>
      match line name with
      | Printed text =>
          match print_lines line names with
          | Printed rest => Printed (text +:+ rest)
          | failure => failure
          end
      | failure => failure
      end
  end.

(** Print help text to stdout. *)
Definition print_help (p : Argument_Parser) : printed :=
  match
    (if bool_decide (m_positional_order p ≠ []) then
       match print_lines (positional_help_line p) (m_positional_order p) with
       | Printed lines => Printed (endl +:+ "Positional arguments:" +:+ endl +:+ lines)
       | failure => failure
       end
     else Printed "")
  with
  | Printed positionals =>
      match
        (if bool_decide (m_optional_args p ≠ ∅) then
           match print_lines (optional_help_line p) (m_optional_order p) with
           | Printed lines => Printed (endl +:+ "Options:" +:+ endl +:+ lines)
           | failure => failure
           end
         else Printed "")
      with
      | Printed options => Printed (print_usage p +:+ positionals +:+ options)
      | failure => failure
      end
  | failure => failure
  end.

(** * Properties *)

(** ** Regular expressions and names *)

Section regex_facts.
Import Regex.

Lemma void_not_nullable r : void r = true → nullable r = false.
Proof.
  induction r as [| | |r1 IH1 r2 IH2|r1 IH1 r2 IH2|]; simpl; try done.
  - intros [H|H]%orb_true_iff; [rewrite IH1|rewrite IH2]; auto using andb_false_r.
  - intros [H1 H2]%andb_true_iff. by rewrite IH1, IH2.
Qed.

Lemma void_deriv c r : void r = true → void (deriv c r) = true.
Proof.
  induction r as [| | |r1 IH1 r2 IH2|r1 IH1 r2 IH2|]; simpl; try done.
  - intros [H|H]%orb_true_iff.
    + rewrite (IH1 H). simpl. by rewrite (void_not_nullable _ H).
    + rewrite H, orb_true_r. simpl. destruct (nullable r1); auto.
  - intros [H1 H2]%andb_true_iff. by rewrite IH1, IH2.
Qed.

Lemma void_no_match r s : void r = true → regex_match r s = false.
Proof.
  revert r. induction s as [|c s IH]; intros r Hr; simpl.
  - by apply void_not_nullable.
  - by apply IH, void_deriv.
Qed.

Lemma rejects_deriv_void c r : rejects c r = true → void (deriv c r) = true.
Proof.
  induction r as [| | cls |r1 IH1 r2 IH2|r1 IH1 r2 IH2|r1 IH1]; simpl; try done.
  - intros H. by destruct (cls c).
  - intros [H1 H2]%andb_true_iff. rewrite (IH1 H1). simpl.
    destruct (nullable r1); auto.
  - intros [H1 H2]%andb_true_iff. by rewrite IH1, IH2.
  - intros H. by rewrite IH1.
Qed.

Lemma rejects_deriv c c' r : rejects c r = true → rejects c (deriv c' r) = true.
Proof.
  induction r as [| | cls |r1 IH1 r2 IH2|r1 IH1 r2 IH2|r1 IH1]; simpl; try done.
  - intros _. by destruct (cls c').
  - intros [H1 H2]%andb_true_iff. rewrite (IH1 H1), H2. simpl.
    destruct (nullable r1); auto.
  - intros [H1 H2]%andb_true_iff. by rewrite IH1, IH2.
  - intros H. by rewrite IH1, H.
Qed.

(** A string matched by a regex whose classes all reject NUL is its own
    C string. *)
Lemma regex_match_c_str r s :
  rejects NUL r = true → regex_match r s = true → c_str s = s.
Proof.
  revert r. induction s as [|c s IH]; intros r Hr Hm; simpl in *; [done|].
  case_bool_decide as Hc.
  - subst c. by rewrite void_no_match in Hm by by apply rejects_deriv_void.
  - f_equal. eapply IH; [|done]. by apply rejects_deriv.
Qed.

Lemma c_str_idemp s : c_str (c_str s) = c_str s.
Proof.
  induction s as [|c s IH]; simpl; [done|].
  case_bool_decide as Hc; simpl; [done|].
  rewrite bool_decide_false by done. by rewrite IH.
Qed.

End regex_facts.

(** A name that matches [\w[a-zA-Z0-9_-]*] passes the validity check. *)
Lemma valid_positional_name_of_match name :
  regex_match positional_name_regex name = true →
  valid_positional_name name = true.
Proof.
  intros Hm. unfold valid_positional_name.
  by rewrite (regex_match_c_str positional_name_regex name).
Qed.

(** The capture of [regex_match_group] is a capture: the string is the
    prefix followed by the group.  For the two patterns with a group the
    split is forced, so the order in which the matcher tries the splits
    does not matter. *)
Lemma regex_match_group_sound pre grp s g :
  regex_match_group pre grp s = Some g →
  ∃ a, s = a +:+ g ∧ regex_match pre a = true ∧ regex_match grp g = true.
Proof.
  revert pre. induction s as [|c s IH]; intros pre; simpl.
  - destruct (nullable pre) eqn:Hpre, (nullable grp) eqn:Hgrp; try done.
    intros [= <-]. by exists "".
  - destruct (regex_match_group (deriv c pre) grp s) as [g'|] eqn:Hrec.
    + intros [= ->]. apply IH in Hrec as (a & -> & Ha & Hg).
      by exists (String c a).
    + destruct (nullable pre) eqn:Hpre; [|done]. simpl.
      destruct (regex_match (deriv c grp) s) eqn:Hgrp; [|done].
      intros [= <-]. by exists "".
Qed.

Lemma regex_match_group_void pre grp s :
  void pre = true → regex_match_group pre grp s = None.
Proof.
  revert pre. induction s as [|c s IH]; intros pre Hvoid; simpl.
  - by rewrite void_not_nullable.
  - rewrite IH by by apply void_deriv. by rewrite void_not_nullable.
Qed.

Lemma name_start_char_not_dash c :
  name_start_char c = true → is_char "-" c = false.
Proof.
  intros Hc. unfold is_char. case_bool_decide as Hdash; [|done].
  by subst c.
Qed.

Lemma long_name_prefix_inv a :
  regex_match long_name_prefix a = true → a = "-" ∨ a = "--".
Proof.
  destruct a as [|c1 a]; [done|]. simpl.
  destruct (is_char "-" c1) eqn:Hc1.
  2:{ by rewrite void_no_match. }
  apply bool_decide_eq_true in Hc1 as ->.
  destruct a as [|c2 a]; [by left|]. simpl.
  destruct (is_char "-" c2) eqn:Hc2.
  2:{ by rewrite void_no_match. }
  apply bool_decide_eq_true in Hc2 as ->.
  destruct a as [|c3 a]; [by right|]. simpl.
  by rewrite void_no_match.
Qed.

Lemma long_name_group_inv b :
  regex_match long_name_group b = true →
  ∃ c b', b = String c b' ∧ name_start_char c = true.
Proof.
  destruct b as [|c b']; [done|]. simpl.
  destruct (name_start_char c) eqn:Hc; [eauto|].
  by rewrite void_no_match.
Qed.

Lemma format_option_name_capture a b :
  regex_match long_name_prefix a = true →
  regex_match long_name_group b = true →
  regex_match_group long_name_prefix long_name_group (a +:+ b) = Some b.
Proof.
  intros Ha Hb.
  destruct (long_name_group_inv b Hb) as (c & b' & -> & Hc).
  pose proof (name_start_char_not_dash c Hc) as Hdash.
  apply long_name_prefix_inv in Ha as [-> | ->];
    cbv beta iota delta [String.append]; cbn [regex_match_group];
    (rewrite regex_match_group_void by (cbn; by rewrite ?Hdash));
    cbn in Hb |- *; by rewrite Hb.
Qed.

Lemma flag_name_capture a b :
  regex_match flag_name_prefix a = true →
  regex_match flag_name_group b = true →
  regex_match_group flag_name_prefix flag_name_group (a +:+ b) = Some b.
Proof.
  intros Ha Hb.
  destruct a as [|c1 a]; [done|]. simpl in Ha.
  destruct (is_char "-" c1) eqn:Hc1; [|by rewrite void_no_match in Ha].
  apply bool_decide_eq_true in Hc1 as ->.
  destruct a as [|c2 a]; [|simpl in Ha; by rewrite void_no_match in Ha].
  destruct b as [|c b]; [done|]. simpl in Hb.
  destruct (name_start_char c) eqn:Hc; [|by rewrite void_no_match in Hb].
  destruct b as [|c' b]; [|simpl in Hb; by rewrite void_no_match in Hb].
  cbv beta iota delta [String.append]. simpl. by rewrite Hc.
Qed.

Example valid_option_name_samples :
  map valid_option_name ["-v"; "--verbose"; "-verbose"; "-5"; "--"; "-"; ""; "input.txt"; "--v"; "-vv"]
  = [true; true; true; false; false; false; false; false; false; true].
Proof. reflexivity. Qed.

Example format_name_samples :
  map format_option_name ["--help"; "-help"; "-h"; "--tag"; "---x"; "tag"]
  = ["help"; "help"; ""; "tag"; ""; ""]
  ∧ map format_flag_name ["-h"; "--h"; "-help"; "-5"; "-_"] = ["h"; ""; ""; ""; "_"].
Proof. split; reflexivity. Qed.

(** ** The registry *)

Lemma new_parser_unfold :
  new_parser =
  {| m_scriptname := "";
     m_positional_order := [];
     m_positional_args := ∅;
     m_optional_order := ["help"];
     m_optional_args := {["help" := mk_Optional_Info "h" FLAG [] ""]};
     m_flags := {["h"%char := "help"]} |}.
Proof. reflexivity. Qed.

Lemma new_parser_optional name :
  is_Some (m_optional_args new_parser !! name) ↔ name = "help".
Proof.
  rewrite new_parser_unfold. simpl. split.
  - intros [info Hinfo]. by apply lookup_singleton_Some in Hinfo as [-> _].
  - intros ->. rewrite lookup_singleton_eq. eauto.
Qed.

(** [add_positional] either returns or throws; a throw leaves the registry
    as it was and is a conflict. *)
Lemma add_positional_throw p name help_text e p' :
  add_positional p name help_text = (Throw e, p') →
  p' = p ∧ error_kind e = Some ConflictError.
Proof.
  unfold add_positional. intros H.
  repeat (case_match; simplify_eq); done.
Qed.

Lemma add_positional_fails_iff p name help_text :
  (∃ e, (add_positional p name help_text).1 = Throw e)
  ↔ valid_positional_name name = false
    ∨ is_Some (m_positional_args p !! name)
    ∨ is_Some (m_optional_args p !! name).
Proof.
  unfold add_positional.
  destruct (valid_positional_name name) eqn:Hvalid; simpl.
  - destruct (decide (is_Some (m_positional_args p !! name))) as [Hpos|Hpos];
      simpl; [split; eauto|].
    destruct (decide (is_Some (m_optional_args p !! name))) as [Hopt|Hopt];
      simpl; [split; eauto|].
    split; [by intros [e ?]|by intros [?|[?|?]]].
  - split; eauto.
Qed.

Lemma add_positional_success p name help_text :
  valid_positional_name name = true →
  m_positional_args p !! name = None →
  m_optional_args p !! name = None →
  ∃ p', add_positional p name help_text = (Ret (), p')
    ∧ m_positional_order p' = m_positional_order p ++ [name]
    ∧ m_positional_args p' =
        <[name := mk_Positional_Info "" help_text]> (m_positional_args p)
    ∧ m_optional_args p' = m_optional_args p
    ∧ m_flags p' = m_flags p.
Proof.
  intros Hvalid Hpos Hopt. unfold add_positional. rewrite Hvalid. simpl.
  rewrite !decide_False by (rewrite ?Hpos, ?Hopt; by apply is_Some_None).
  eauto 10.
Qed.

Lemma add_positional_again p name help_text :
  is_Some (m_positional_args p !! name) →
  valid_positional_name name = true →
  add_positional p name help_text = (Throw (Duplicate_positional_name name), p).
Proof.
  intros Hpos Hvalid. unfold add_positional. rewrite Hvalid. simpl.
  by rewrite decide_True.
Qed.

(** C4, as amended: on a freshly constructed registry, for every name [n]
    matching [\w[a-zA-Z0-9_-]*] other than ["help"] (the reference name of
    the built-in optional), the first [add_positional n] succeeds and
    appends [n] to the positional order, and a second one fails with a
    ConflictError leaving the registry unchanged.  On any registry,
    [add_positional] fails exactly when the name does not pass the validity
    check, is already a positional name or is already an optional reference
    name, and every such failure is a ConflictError. *)
Theorem add_positional_succeeds_exactly_once name help_text help_text' :
  regex_match positional_name_regex name = true →
  name ≠ "help" →
  (∃ p',
      add_positional new_parser name help_text = (Ret (), p')
      ∧ m_positional_order p' = m_positional_order new_parser ++ [name]
      ∧ add_positional p' name help_text'
        = (Throw (Duplicate_positional_name name), p')
      ∧ error_kind (Duplicate_positional_name name) = Some ConflictError)
  ∧ (∀ p n h,
        ((∃ e, (add_positional p n h).1 = Throw e)
         ↔ valid_positional_name n = false
           ∨ is_Some (m_positional_args p !! n)
           ∨ is_Some (m_optional_args p !! n))
        ∧ (∀ e, (add_positional p n h).1 = Throw e →
                error_kind e = Some ConflictError
                ∧ (add_positional p n h).2 = p)).
Proof.
  intros Hmatch Hhelp.
  pose proof (valid_positional_name_of_match _ Hmatch) as Hvalid.
  split.
  - destruct (add_positional_success new_parser name help_text Hvalid)
      as (p' & Hadd & Horder & Hpos & _).
    { done. }
    { apply eq_None_not_Some. by rewrite new_parser_optional. }
    exists p'. split_and!; [done..| |done].
    apply add_positional_again; [|done].
    rewrite Hpos, lookup_insert_eq. eauto.
  - intros p n h. split; [apply add_positional_fails_iff|].
    intros e He. destruct (add_positional p n h) as [o p'] eqn:Hadd.
    simpl in *. subst o.
    apply add_positional_throw in Hadd as [-> ?]. done.
Qed.

Lemma add_positional_succeeds_exactly_once_witness :
  regex_match positional_name_regex "file" = true
  ∧ (add_positional new_parser "file" "input file").1 = Ret ().
Proof.
  split; [reflexivity|].
  destruct (add_positional_succeeds_exactly_once "file" "input file" "")
    as [(p' & -> & _) _]; [reflexivity|discriminate|reflexivity].
Defined.

(** C4, as stated, fails for the name ["help"]: it matches the pattern, yet
    the first declaration on a fresh registry is refused, because the
    constructor has registered the optional argument [help]. *)
Lemma add_positional_help_refused :
  ¬ (∀ name help_text,
        regex_match positional_name_regex name = true →
        (add_positional new_parser name help_text).1 = Ret ()).
Proof. intros H. by specialize (H "help" "" eq_refl). Qed.

(** ** The typed value extractor *)

Section extraction.
Context {T : Type} `{Arg_Type T}.
Implicit Types (p : Argument_Parser) (name : string) (info : Optional_Info).

(** What [optional_arg] hands to [arg_at]. *)
Lemma optional_arg_stored name info idx v :
  values info !! idx = Some v → optional_arg name info idx = Ret v.
Proof. intros Hv. unfold optional_arg. by rewrite Hv. Qed.

Lemma optional_arg_absent name info idx :
  values info = [] →
  optional_arg name info idx
  = Ret (if decide (type info = FLAG) then "false" else "").
Proof. intros Hv. unfold optional_arg. by rewrite Hv. Qed.

Lemma optional_arg_out_of_range name info idx :
  values info ≠ [] → (length (values info) ≤ idx)%nat →
  optional_arg name info idx = Throw (Index_out_of_range idx name).
Proof.
  intros Hne Hidx. unfold optional_arg.
  rewrite (lookup_ge_None_2 _ _ Hidx). by rewrite bool_decide_false.
Qed.

(** The fallback rule of [arg_at], on the string [optional_arg] returned. *)
Lemma arg_at_optional p name info idx has_default (default_val : T) v :
  m_optional_args p !! name = Some info →
  optional_arg name info idx = Ret v →
  arg_at p name idx has_default default_val
  = if string_empty v then
      if has_default then Ret default_val else Throw (No_value_no_default name)
    else parse_string_arg name v.
Proof.
  intros Hopt Hv. unfold arg_at. rewrite Hopt, Hv. simpl.
  by destruct (string_empty v), has_default.
Qed.

Lemma arg_at_positional p name pinfo idx has_default (default_val : T) :
  m_optional_args p !! name = None →
  m_positional_args p !! name = Some pinfo →
  arg_at p name idx has_default default_val = parse_string_arg name (value pinfo).
Proof. intros Hopt Hpos. unfold arg_at. by rewrite Hopt, Hpos. Qed.

End extraction.

Lemma flag_sentinel_conversions name :
  parse_string_arg (T := bool) name "false" = Ret false
  ∧ parse_string_arg (T := string) name "false" = Ret "false"
  ∧ parse_string_arg (T := ascii) name "false" = Throw (Must_be_single_character name)
  ∧ (∀ w, parse_string_arg (T := unsigned_integral w) name "false"
          = Throw (Must_be_integral name))
  ∧ (∀ w, parse_string_arg (T := signed_integral w) name "false"
          = Throw (Must_be_integral name)).
Proof. split_and!; try done; by intros []. Qed.

(** C1, as amended: for an optional argument with no recorded value,
    [optional_arg] yields the sentinel, ["false"] for a FLAG and the empty
    string otherwise.  For SINGLE and APPEND the fallback rule then applies,
    for every requested type and every index: the fallback is returned when
    one was supplied, and the call fails with NoValueError when none was.
    For FLAG the fallback rule does not apply: the sentinel ["false"] is
    converted to the requested type like a stored value, with or without a
    fallback (bool: false; text: "false"; character and integer types:
    TypeConversionError). *)
Theorem absent_optional_extraction {T : Type} `{Arg_Type T}
    (p : Argument_Parser) (name : string) (info : Optional_Info) (idx : nat)
    (default_val : T) :
  m_optional_args p !! name = Some info →
  values info = [] →
  optional_arg name info idx
  = Ret (if decide (type info = FLAG) then "false" else "")
  ∧ (type info ≠ FLAG →
     arg_at p name idx true default_val = Ret default_val
     ∧ arg_at p name idx false default_val = Throw (No_value_no_default name)
     ∧ error_kind (No_value_no_default name) = Some NoValueError)
  ∧ (type info = FLAG →
     ∀ has_default,
       arg_at p name idx has_default default_val = parse_string_arg name "false"
       ∧ (∀ b : bool, arg_at p name idx has_default b = Ret false)
       ∧ (∀ s : string, arg_at p name idx has_default s = Ret "false")
       ∧ (∀ c : ascii, arg_at p name idx has_default c
                       = Throw (Must_be_single_character name))
       ∧ (∀ w (u : unsigned_integral w),
             arg_at p name idx has_default u = Throw (Must_be_integral name))
       ∧ (∀ w (i : signed_integral w),
             arg_at p name idx has_default i = Throw (Must_be_integral name))
       ∧ error_kind (Must_be_integral name) = Some TypeConversionError).
Proof.
  intros Hopt Hvalues.
  pose proof (optional_arg_absent name info idx Hvalues) as Hsentinel.
  split; [done|]. split.
  - intros Hkind. rewrite decide_False in Hsentinel by done.
    by rewrite !(arg_at_optional _ _ _ _ _ _ _ Hopt Hsentinel).
  - intros Hkind has_default. rewrite decide_True in Hsentinel by done.
    destruct (flag_sentinel_conversions name) as (Hb & Hs & Hc & Hu & Hi).
    split_and!; try done; intros;
      rewrite (arg_at_optional _ _ _ _ _ _ _ Hopt Hsentinel); simpl; auto.
Qed.

Lemma absent_optional_extraction_witness :
  arg_default (T := string)
    (add_optional new_parser "--output" SINGLE "").2 "output" "a.out"
  = Ret "a.out".
Proof.
  destruct (absent_optional_extraction (T := string)
              (add_optional new_parser "--output" SINGLE "").2 "output"
              (mk_Optional_Info " " SINGLE [] "") 0 "a.out" eq_refl eq_refl)
    as (_ & Hfallback & _).
  refine (proj1 (Hfallback _)). discriminate.
Defined.

(** C1, as stated, fails for the FLAG kind: with no recorded value a bool
    extraction returns false, whether a fallback was supplied (it is not
    returned) or not (no NoValueError). *)
Lemma absent_flag_ignores_fallback :
  let p := (add_optional_flag new_parser "-v" "--verbose" FLAG "").2 in
  let p' := (parse_args p 1 ["prog"]).2.1.1 in
  (parse_args p 1 ["prog"]).1 = Ret ()
  ∧ values <$> (m_optional_args p' !! "verbose") = Some []
  ∧ arg_default (T := bool) p' "verbose" true = Ret false
  ∧ arg (T := bool) p' "verbose" = Ret false.
Proof. vm_compute. done. Qed.

(** C2, as amended: extraction that targets a positional argument converts
    the recorded value whatever the index is (the index is not looked at, so
    index 0 returns it as every other index does), and never applies the
    fallback-or-fail rule: a supplied fallback is ignored and an empty
    recorded value goes to the type conversion like any other (as text it
    is returned as the empty string). *)
Theorem positional_extraction_ignores_index {T : Type} `{Arg_Type T}
    (p : Argument_Parser) (name : string) (pinfo : Positional_Info)
    (idx : nat) (has_default : bool) (default_val : T) (fallback : string) :
  m_optional_args p !! name = None →
  m_positional_args p !! name = Some pinfo →
  arg_at p name idx has_default default_val = parse_string_arg name (value pinfo)
  ∧ arg_at p name idx has_default default_val = arg_at p name 0 false default_val
  ∧ arg_at p name idx has_default fallback = Ret (value pinfo).
Proof.
  intros Hopt Hpos.
  by rewrite !(arg_at_positional _ _ _ _ _ _ Hopt Hpos).
Qed.

Lemma positional_extraction_ignores_index_witness :
  arg_at (T := bool) (add_positional new_parser "file" "").2 "file" 3 true true
  = Throw (Must_be_true_or_false "file").
Proof.
  destruct (positional_extraction_ignores_index (T := bool)
              (add_positional new_parser "file" "").2 "file"
              (mk_Positional_Info "" "") 3 true true "" eq_refl eq_refl)
    as (Hconv & _).
  exact Hconv.
Defined.

(** C2, as stated, fails: after scanning [input.txt] into the positional
    [file], the recorded value is retrieved at index 1 as well, and before
    the scan, when the value is absent, a supplied fallback is not
    returned. *)
Lemma positional_index_not_checked :
  let p := (add_positional new_parser "file" "").2 in
  let p' := (parse_args p 2 ["prog"; "input.txt"]).2.1.1 in
  (parse_args p 2 ["prog"; "input.txt"]).1 = Ret ()
  ∧ arg_at_index (T := string) p' "file" 1 = Ret "input.txt"
  ∧ value <$> (m_positional_args p !! "file") = Some ""
  ∧ arg_default (T := string) p "file" "fallback" = Ret "".
Proof. done. Qed.

(** ** Numeric conversion *)

Section numeric.

Lemma stoll_invalid_iff value :
  Std.stoll value = Std.invalid_argument
  ↔ Std.read_digits (Std.read_sign (Std.skip_spaces value)).2 = [].
Proof.
  unfold Std.stoll.
  destruct (Std.read_sign (Std.skip_spaces value)) as [negative s]. simpl.
  destruct (Std.read_digits s) as [|d ds]; [done|].
  split; [|done]. by case_match.
Qed.

Lemma std_stoull_invalid_iff value :
  Std.stoull value = Std.invalid_argument
  ↔ Std.read_digits (Std.read_sign (Std.skip_spaces value)).2 = [].
Proof.
  unfold Std.stoull.
  destruct (Std.read_sign (Std.skip_spaces value)) as [negative s]. simpl.
  destruct (Std.read_digits s) as [|d ds]; [done|].
  split; [|done]. by case_match.
Qed.

Lemma stoull_invalid_iff value :
  stoull value = Std.invalid_argument
  ↔ string_contains "-" value = false
    ∧ Std.read_digits (Std.read_sign (Std.skip_spaces value)).2 = [].
Proof.
  unfold stoull. destruct (string_contains "-" value).
  - split; [done|]. by intros [? _].
  - rewrite std_stoull_invalid_iff. split; [done|]. by intros [_ ?].
Qed.

Lemma stoull_minus value :
  string_contains "-" value = true → stoull value = Std.out_of_range.
Proof. intros Hminus. unfold stoull. by rewrite Hminus. Qed.

(** What follows the digits is not read. *)
Lemma read_digits_app s t :
  Std.isdigit (string_front t) = false →
  Std.read_digits (s +:+ t) = Std.read_digits s.
Proof.
  intros Ht. induction s as [|c s IH]; simpl.
  - destruct t as [|c t]; [done|]. simpl in *. by rewrite Ht.
  - by rewrite IH.
Qed.

Lemma read_sign_app s t :
  s ≠ "" →
  Std.read_sign (s +:+ t) = ((Std.read_sign s).1, (Std.read_sign s).2 +:+ t).
Proof.
  destruct s as [|c s]; [done|]. intros _. simpl.
  by destruct (is_char "-" c), (is_char "+" c).
Qed.

Lemma skip_spaces_app s t :
  Std.skip_spaces s ≠ "" → Std.skip_spaces (s +:+ t) = Std.skip_spaces s +:+ t.
Proof.
  induction s as [|c s IH]; simpl; [done|].
  destruct (Std.isspace c); [done|]. by intros _.
Qed.

Lemma stoll_trailing value t :
  Std.stoll value ≠ Std.invalid_argument →
  Std.isdigit (string_front t) = false →
  Std.stoll (value +:+ t) = Std.stoll value.
Proof.
  intros Hvalid Ht. rewrite stoll_invalid_iff in Hvalid.
  assert (Std.skip_spaces value ≠ "") as Hspaces.
  { intros Heq. by rewrite Heq in Hvalid. }
  unfold Std.stoll. rewrite skip_spaces_app, read_sign_app by done.
  destruct (Std.read_sign (Std.skip_spaces value)) as [negative s]. simpl.
  by rewrite read_digits_app.
Qed.

Lemma stoull_trailing value t :
  Std.stoull value ≠ Std.invalid_argument →
  Std.isdigit (string_front t) = false →
  Std.stoull (value +:+ t) = Std.stoull value.
Proof.
  intros Hvalid Ht. rewrite std_stoull_invalid_iff in Hvalid.
  assert (Std.skip_spaces value ≠ "") as Hspaces.
  { intros Heq. by rewrite Heq in Hvalid. }
  unfold Std.stoull. rewrite skip_spaces_app, read_sign_app by done.
  destruct (Std.read_sign (Std.skip_spaces value)) as [negative s]. simpl.
  by rewrite read_digits_app.
Qed.

Lemma string_contains_app c s t :
  string_contains c (s +:+ t) = string_contains c s || string_contains c t.
Proof.
  induction s as [|c' s IH]; simpl; [done|].
  by rewrite IH, orb_assoc.
Qed.

(** [std::stold] reports that no conversion could be performed exactly
    when no number starts the text. *)
Lemma stold_invalid_iff `{Std.Floating_Point} value :
  Std.stold value = Std.invalid_argument
  ↔ Std.starts_number (Std.read_sign (Std.skip_spaces value)).2 = false.
Proof.
  unfold Std.stold.
  destruct (Std.starts_number _); [|done].
  split; [|done]. by destruct (Std.strtold_ERANGE value).
Qed.

Lemma starts_number_app s t :
  Std.starts_number s = true → Std.starts_number (s +:+ t) = true.
Proof.
  destruct s as [|c1 [|c2 [|c3 s]]]; simpl; try done.
  - rewrite orb_false_r. intros ->. done.
  - rewrite !orb_false_r. intros [->| ->]%orb_true_iff; [done|].
    rewrite orb_true_l. by rewrite orb_true_r.
Qed.

Lemma starts_number_trailing value t :
  Std.starts_number (Std.read_sign (Std.skip_spaces value)).2 = true →
  Std.starts_number (Std.read_sign (Std.skip_spaces (value +:+ t))).2 = true.
Proof.
  intros Hstarts.
  assert (Std.skip_spaces value ≠ "") as Hspaces.
  { intros Heq. by rewrite Heq in Hstarts. }
  rewrite skip_spaces_app, read_sign_app by done. simpl.
  by apply starts_number_app.
Qed.

Example starts_number_samples :
  (λ s, Std.starts_number (Std.read_sign (Std.skip_spaces s)).2)
  <$> ["1.5"; " .5"; "-inf"; "NaN"; "0x1p3"; "1e5x"; "+7";
       "."; "e5"; "+-1"; ""; " "; "in"; "abc"; "- 1"]
  = [true; true; true; true; true; true; true;
     false; false; false; false; false; false; false; false].
Proof. reflexivity. Qed.

End numeric.

Lemma parse_numeric_arg_type_error {N T : Type} (less : N → N → bool)
    (lowest max : N) (to_T : N → T) name value
    (convert_func : string → Std.conv N) :
  parse_numeric_arg less lowest max to_T name value convert_func
  = Throw (Must_be_integral name)
  ↔ convert_func value = Std.invalid_argument.
Proof.
  unfold parse_numeric_arg.
  destruct (convert_func value) as [n| |]; [|done..].
  by destruct (less n lowest || less max n).
Qed.

Lemma parse_numeric_arg_range_error {N T : Type} (less : N → N → bool)
    (lowest max : N) (to_T : N → T) name value
    (convert_func : string → Std.conv N) :
  convert_func value = Std.out_of_range →
  parse_numeric_arg less lowest max to_T name value convert_func
  = Throw (Must_be_in_range name).
Proof. intros Hconv. unfold parse_numeric_arg. by rewrite Hconv. Qed.

(** On every platform, text without a number is refused and a number
    followed by other text is not. *)
Example floating_point_samples `{Std.Floating_Point} (k : Std.floating_kind) :
  parse_string_arg (T := floating_point k) "x" "abc"
  = Throw (Must_be_integral "x")
  ∧ parse_string_arg (T := floating_point k) "x" ".e1"
    = Throw (Must_be_integral "x")
  ∧ parse_string_arg (T := floating_point k) "x" "1.5abc"
    ≠ Throw (Must_be_integral "x").
Proof.
  split_and!; [done..|].
  simpl. by rewrite parse_numeric_arg_type_error, stold_invalid_iff.
Qed.

(** C3, as amended: a numeric extraction fails with TypeConversionError
    exactly when the standard conversion it calls reports that no number
    could be read, whatever that conversion is.  For the integer types
    this is: exactly when no decimal digit follows the optional leading
    white space and sign, and, for the unsigned types, the string holds no
    '-'; an unsigned extraction of a string that holds a '-' anywhere fails
    with RangeError, even when the text is malformed.  For the floating
    point types it is: exactly when, behind the optional leading white
    space and sign, the text starts neither with a digit, nor with a point
    and a digit, nor with [inf] or [nan] in any case.  Text that follows a
    number is ignored: an integer extraction gives the same result as for
    the number alone ("12abc" is 12; for the unsigned types provided the
    text holds no '-'), and a floating point extraction of a number
    followed by any text is no TypeConversionError.  TypeConversionError
    and RangeError are distinct. *)
Theorem numeric_type_error_exactly_when_no_number
    (w : width) (name value trailing : string) :
  Std.stoll value ≠ Std.invalid_argument →
  Std.isdigit (string_front trailing) = false →
  parse_string_arg (T := signed_integral w) name (value +:+ trailing)
  = parse_string_arg name value
  ∧ parse_string_arg (T := signed_integral w) name (value +:+ trailing)
    ≠ Throw (Must_be_integral name)
  ∧ (∀ v, parse_string_arg (T := signed_integral w) name v
          = Throw (Must_be_integral name)
          ↔ Std.read_digits (Std.read_sign (Std.skip_spaces v)).2 = [])
  ∧ (∀ v, parse_string_arg (T := unsigned_integral w) name v
          = Throw (Must_be_integral name)
          ↔ string_contains "-" v = false
            ∧ Std.read_digits (Std.read_sign (Std.skip_spaces v)).2 = [])
  ∧ (∀ (N T : Type) (less : N → N → bool) (lowest max : N) (to_T : N → T)
       (convert_func : string → Std.conv N) v,
        parse_numeric_arg less lowest max to_T name v convert_func
        = Throw (Must_be_integral name)
        ↔ convert_func v = Std.invalid_argument)
  ∧ error_kind (Must_be_integral name) = Some TypeConversionError
  ∧ error_kind (Must_be_in_range name) = Some RangeError
  ∧ TypeConversionError ≠ RangeError
  ∧ (string_contains "-" trailing = false →
     parse_string_arg (T := unsigned_integral w) name (value +:+ trailing)
     = parse_string_arg name value)
  ∧ (∀ v, string_contains "-" v = true →
          parse_string_arg (T := unsigned_integral w) name v
          = Throw (Must_be_in_range name))
  ∧ (∀ (platform : Std.Floating_Point) (k : Std.floating_kind) v,
        parse_string_arg (T := floating_point k) name v
        = Throw (Must_be_integral name)
        ↔ Std.starts_number (Std.read_sign (Std.skip_spaces v)).2 = false)
  ∧ (∀ (platform : Std.Floating_Point) (k : Std.floating_kind) v t,
        parse_string_arg (T := floating_point k) name v
        ≠ Throw (Must_be_integral name) →
        parse_string_arg (T := floating_point k) name (v +:+ t)
        ≠ Throw (Must_be_integral name)).
Proof.
  intros Hvalid Htrailing.
  assert (∀ v, parse_string_arg (T := signed_integral w) name v
               = Throw (Must_be_integral name)
               ↔ Std.read_digits (Std.read_sign (Std.skip_spaces v)).2 = [])
    as Hsigned.
  { intros v. simpl. by rewrite parse_numeric_arg_type_error, stoll_invalid_iff. }
  assert (∀ (platform : Std.Floating_Point) (k : Std.floating_kind) v,
            parse_string_arg (T := floating_point k) name v
            = Throw (Must_be_integral name)
            ↔ Std.starts_number (Std.read_sign (Std.skip_spaces v)).2 = false)
    as Hfloating.
  { intros platform k v. simpl.
    by rewrite parse_numeric_arg_type_error, stold_invalid_iff. }
  split_and!; try done.
  - simpl. unfold parse_numeric_arg. by rewrite stoll_trailing.
  - rewrite Hsigned, <- stoll_invalid_iff. by rewrite stoll_trailing.
  - intros v. simpl. by rewrite parse_numeric_arg_type_error, stoull_invalid_iff.
  - intros. apply parse_numeric_arg_type_error.
  - intros Hminus. simpl. unfold parse_numeric_arg, stoull.
    rewrite string_contains_app, Hminus, orb_false_r.
    destruct (string_contains "-" value); [done|].
    rewrite stoull_trailing; [done| |done].
    by rewrite std_stoull_invalid_iff, <- stoll_invalid_iff.
  - intros v Hminus. simpl. by apply parse_numeric_arg_range_error, stoull_minus.
  - intros platform k v t. rewrite !Hfloating.
    destruct (Std.starts_number (Std.read_sign (Std.skip_spaces v)).2) eqn:Hv;
      [|done].
    intros _. by rewrite starts_number_trailing.
Qed.

Lemma numeric_type_error_exactly_when_no_number_witness :
  parse_string_arg (T := signed_integral W32) "n" "12abc" = Ret (Signed 12).
Proof.
  destruct (numeric_type_error_exactly_when_no_number W32 "n" "12" "abc")
    as (Htrailing & _); [discriminate|reflexivity|].
  exact Htrailing.
Defined.

(** C3, as stated, fails: ["12abc"] contains non-numeric characters and
    converts to 12, and for an unsigned type the malformed ["a-b"] fails
    with a RangeError, not a TypeConversionError. *)
Lemma malformed_numeric_text_converts :
  parse_string_arg (T := signed_integral W32) "n" "12abc" = Ret (Signed 12)
  ∧ parse_string_arg (T := unsigned_integral W32) "n" "7 apples" = Ret (Unsigned 7)
  ∧ parse_string_arg (T := unsigned_integral W32) "n" "a-b"
    = Throw (Must_be_in_range "n")
  ∧ error_kind (Must_be_in_range "n") = Some RangeError.
Proof. done. Qed.

(** C5: an unsigned extraction of a stored string that starts with '-'
    fails with RangeError: the [stoull] overload of the header answers
    [std::out_of_range] before [std::stoull] is called (which would have
    wrapped the value around), and [parse_numeric_arg] turns that into the
    range failure, with or without a fallback.  In particular, after
    scanning [--count -5], extracting [count] as any unsigned type fails
    with RangeError. *)
Theorem unsigned_extraction_rejects_minus (w : width) (p : Argument_Parser)
    (name : string) (info : Optional_Info) (idx : nat) (rest : string)
    (has_default : bool) (default_val : unsigned_integral w) :
  m_optional_args p !! name = Some info →
  values info !! idx = Some (String "-" rest) →
  stoull (String "-" rest) = Std.out_of_range
  ∧ parse_string_arg (T := unsigned_integral w) name (String "-" rest)
    = Throw (Must_be_in_range name)
  ∧ arg_at p name idx has_default default_val = Throw (Must_be_in_range name)
  ∧ error_kind (Must_be_in_range name) = Some RangeError
  ∧ Std.stoull "-5" = Std.Converted (2 ^ 64 - 5)
  ∧ (∀ scriptname help_text,
        ∃ p', parse_args (add_optional new_parser "--count" SINGLE help_text).2
                3 [scriptname; "--count"; "-5"]
              = (Ret (), (p', 1, [scriptname; "--count"; "-5"]))
          ∧ values <$> (m_optional_args p' !! "count") = Some ["-5"]
          ∧ ∀ w' (fallback : unsigned_integral w'),
              arg (T := unsigned_integral w') p' "count"
              = Throw (Must_be_in_range "count")
              ∧ arg_default p' "count" fallback
                = Throw (Must_be_in_range "count")).
Proof.
  intros Hopt Hvalue.
  assert (∀ n, parse_string_arg (T := unsigned_integral w) n (String "-" rest)
               = Throw (Must_be_in_range n)) as Hparse.
  { intros n. simpl. by apply parse_numeric_arg_range_error, stoull_minus. }
  split_and!; try done.
  - rewrite (arg_at_optional _ _ _ _ _ _ _ Hopt (optional_arg_stored _ _ _ _ Hvalue)).
    apply Hparse.
  - intros scriptname help_text. eexists. split; [reflexivity|].
    split; [reflexivity|]. by intros [] ?.
Qed.

Lemma unsigned_extraction_rejects_minus_witness :
  arg_at (T := unsigned_integral W32)
    (parse_args (add_optional new_parser "--count" SINGLE "").2
       3 ["prog"; "--count"; "-5"]).2.1.1
    "count" 0 false (Unsigned 0)
  = Throw (Must_be_in_range "count").
Proof.
  destruct (unsigned_extraction_rejects_minus W32
              (parse_args (add_optional new_parser "--count" SINGLE "").2
                 3 ["prog"; "--count"; "-5"]).2.1.1
              "count" (mk_Optional_Info " " SINGLE ["-5"] "") 0 "5" false
              (Unsigned 0) eq_refl eq_refl)
    as (_ & _ & Harg & _).
  exact Harg.
Defined.

(** C10: an empty string stored as a value of an optional argument is
    treated as absent by extraction, at whatever index it was recorded:
    without a fallback the call fails with NoValueError, with a fallback it
    returns the fallback and not the stored empty string, although [has_arg]
    answers true and [arg_count] counts the entry.  The scanner does record
    an empty value token for a SINGLE or APPEND option. *)
Theorem empty_value_extracted_as_absent {T : Type} `{Arg_Type T}
    (p : Argument_Parser) (name : string) (info : Optional_Info) (idx : nat)
    (default_val : T) :
  m_optional_args p !! name = Some info →
  values info !! idx = Some "" →
  arg_at_index (T := T) p name idx = Throw (No_value_no_default name)
  ∧ error_kind (No_value_no_default name) = Some NoValueError
  ∧ arg_at_index_default p name idx default_val = Ret default_val
  ∧ (idx = 0%nat →
     arg (T := T) p name = Throw (No_value_no_default name)
     ∧ arg_default p name default_val = Ret default_val)
  ∧ has_arg p name = Ret true
  ∧ (∃ n, arg_count p name = Ret n ∧ (idx < n)%nat)
  ∧ (∀ scriptname help_text kind,
        kind ≠ FLAG →
        ∃ p', parse_args (add_optional new_parser "--name" kind help_text).2
                3 [scriptname; "--name"; ""]
              = (Ret (), (p', 1, [scriptname; "--name"; ""]))
          ∧ values <$> (m_optional_args p' !! "name") = Some [""]).
Proof.
  intros Hopt Hvalue.
  pose proof (optional_arg_stored name _ _ _ Hvalue) as Hstored.
  assert (arg_at_index (T := T) p name idx = Throw (No_value_no_default name)
          ∧ arg_at_index_default p name idx default_val = Ret default_val)
    as [Hfail Hfallback].
  { unfold arg_at_index, arg_at_index_default.
    by rewrite !(arg_at_optional _ _ _ _ _ _ _ Hopt Hstored). }
  split_and!; try done.
  - by intros ->.
  - unfold has_arg. rewrite Hopt. destruct (values info); [done|].
    by rewrite bool_decide_false.
  - unfold arg_count. rewrite Hopt. eexists. split; [done|].
    by eapply lookup_lt_Some.
  - intros scriptname help_text kind Hkind. eexists.
    destruct kind; [done|..]; split; reflexivity.
Qed.

Lemma empty_value_extracted_as_absent_witness :
  let p := (parse_args (add_optional new_parser "--name" SINGLE "").2
              3 ["prog"; "--name"; ""]).2.1.1 in
  arg_at_index_default (T := string) p "name" 0 "anonymous" = Ret "anonymous"
  ∧ has_arg p "name" = Ret true.
Proof.
  destruct (empty_value_extracted_as_absent (T := string)
              (parse_args (add_optional new_parser "--name" SINGLE "").2
                 3 ["prog"; "--name"; ""]).2.1.1
              "name" (mk_Optional_Info " " SINGLE [""] "") 0 "anonymous"
              eq_refl eq_refl)
    as (_ & _ & Hfallback & _ & Hhas & _).
  exact (conj Hfallback Hhas).
Defined.

(** ** The scanner *)

Ltac unfold_bind := unfold mbind, outcome_mbind, outcome_bind in *.

Lemma same_declarations_push (a b : gmap string Optional_Info) name info v :
  same_declarations a b →
  a !! name = Some info →
  same_declarations (<[name := push_value v info]> a) b.
Proof.
  intros Hsame Hname n. destruct (decide (name = n)) as [<-|Hne].
  - rewrite lookup_insert_eq, <- Hsame, Hname. done.
  - by rewrite lookup_insert_ne.
Qed.

(** The two ways [parse_optional_arg] returns: a flag seen for the first
    time, and an option followed by its value. *)
Lemma parse_optional_arg_Ret p optional_args option_name argi argc argv
    optional_args' argi' :
  parse_optional_arg p optional_args option_name argi argc argv
  = Ret (optional_args', argi') →
  ∃ name info,
    lookup_formatted_option_name p option_name = Ret name
    ∧ name ≠ "help"
    ∧ optional_args !! name = Some info
    ∧ ((type info = FLAG ∧ values info = [] ∧ argi' = argi
        ∧ optional_args' = <[name := push_value "true" info]> optional_args)
       ∨ (type info ≠ FLAG ∧ argi' = argi + 1 ∧ argi + 1 ≠ argc
          ∧ ∃ v, argv !! Z.to_nat (argi + 1) = Some v
                 ∧ valid_option_name v = false
                 ∧ (type info = APPEND ∨ values info = [])
                 ∧ optional_args' = <[name := push_value v info]> optional_args)).
Proof.
  unfold parse_optional_arg. unfold_bind.
  destruct (lookup_formatted_option_name p option_name) as [name| | | |];
    [|done..].
  destruct (decide (name = "help")) as [|Hhelp]; [done|].
  destruct (optional_args !! name) as [info|] eqn:Hinfo; [|done].
  exists name, info. split_and!; [done..|].
  destruct (decide (type info = FLAG)) as [Hflag|Hflag].
  - left. case_bool_decide as Hvalues; simpl in *; [|done].
    by simplify_eq.
  - right. destruct (decide (argi + 1 = argc)); [done|].
    destruct (argv !! Z.to_nat (argi + 1)) as [v|] eqn:Hv; [|done].
    destruct (valid_option_name v) eqn:Hvalid; [done|].
    destruct (bool_decide (type info ≠ APPEND)
              && negb (bool_decide (values info = []))) eqn:Honce; [done|].
    simplify_eq. split_and!; [done..|]. exists v. split_and!; [done..| |done].
    apply andb_false_iff in Honce as [Happend|Hempty].
    + left. apply bool_decide_eq_false in Happend.
      by destruct (decide (type info = APPEND)).
    + right. apply negb_false_iff in Hempty. by apply bool_decide_eq_true in Hempty.
Qed.

Lemma scanned_tokens_done argi argc argv :
  ¬ argi < argc → scanned_tokens argi argc argv = [].
Proof.
  intros Hdone. unfold scanned_tokens.
  by replace (Z.to_nat (argc - argi)) with 0%nat by lia.
Qed.

Lemma scanned_tokens_cons argi argc argv token :
  0 ≤ argi → argi < argc →
  argv !! Z.to_nat argi = Some token →
  scanned_tokens argi argc argv = token :: scanned_tokens (argi + 1) argc argv.
Proof.
  intros Hargi Hlt Htoken. unfold scanned_tokens.
  replace (Z.to_nat (argc - argi)) with (S (Z.to_nat (argc - (argi + 1)))) by lia.
  rewrite (drop_S _ _ _ Htoken). simpl.
  by replace (Z.to_nat (argi + 1)) with (S (Z.to_nat argi)) by lia.
Qed.

(** The candidates the loop collects are those of the specification's walk,
    and the loop keeps the declared names and types. *)
Lemma parse_args_loop_candidates fuel p optional_args positional_args argi argc
    argv optional_args' positional_args' :
  0 ≤ argi →
  same_declarations optional_args (m_optional_args p) →
  parse_args_loop fuel p optional_args positional_args argi argc argv
  = Ret (optional_args', positional_args') →
  positional_args'
  = positional_args ++ positional_candidates p false (scanned_tokens argi argc argv)
  ∧ same_declarations optional_args' (m_optional_args p).
Proof.
  revert optional_args positional_args argi.
  induction fuel as [|fuel IH]; intros optional_args positional_args argi
    Hargi Hsame; simpl.
  - case_decide; [done|]. intros [= <- <-].
    by rewrite scanned_tokens_done, app_nil_r.
  - case_decide as Hlt.
    2:{ intros [= <- <-]. by rewrite scanned_tokens_done, app_nil_r. }
    destruct (argv !! Z.to_nat argi) as [token|] eqn:Htoken; [|done].
    rewrite (scanned_tokens_cons _ _ _ _ Hargi Hlt Htoken). simpl.
    destruct (valid_option_name token) eqn:Hvalid.
    + unfold_bind.
      destruct (parse_optional_arg p optional_args token argi argc argv)
        as [[optional_args1 argi1]| | | |] eqn:Hparse; [|done..].
      apply parse_optional_arg_Ret in Hparse
        as (name & info & Hlookup & _ & Hinfo & Hcases).
      pose proof (Hsame name) as Htype. rewrite Hinfo in Htype. simpl in Htype.
      unfold takes_value. rewrite Hlookup.
      destruct (m_optional_args p !! name) as [info0|]; [|done].
      simpl in Htype. injection Htype as Htype.
      destruct Hcases as [(Hflag & _ & -> & ->)|(Hflag & -> & Hne & v & Hv & _ & _ & ->)].
      * rewrite bool_decide_false by (rewrite <- Htype; auto).
        intros Hloop. apply IH in Hloop; [done|lia|].
        by apply same_declarations_push.
      * rewrite bool_decide_true by (by rewrite <- Htype).
        rewrite (scanned_tokens_cons (argi + 1) _ _ v) by (done || lia). simpl.
        intros Hloop. apply IH in Hloop; [done|lia|].
        by apply same_declarations_push.
    + intros Hloop. apply IH in Hloop as [-> ?]; [|lia|done].
      by rewrite <- app_assoc.
Qed.

Lemma parse_optional_arg_fuel p optional_args option_name argi argc argv :
  parse_optional_arg p optional_args option_name argi argc argv ≠ OutOfFuel.
Proof.
  unfold parse_optional_arg, lookup_formatted_option_name. unfold_bind.
  repeat (case_match; try done).
Qed.

(** The fuel [parse_args] gives its loop is enough. *)
Lemma parse_args_loop_fuel fuel p optional_args positional_args argi argc argv :
  (Z.to_nat (argc - argi) ≤ fuel)%nat →
  parse_args_loop fuel p optional_args positional_args argi argc argv ≠ OutOfFuel.
Proof.
  revert optional_args positional_args argi.
  induction fuel as [|fuel IH]; intros optional_args positional_args argi Hfuel;
    simpl.
  - case_decide; [lia|done].
  - case_decide as Hlt; [|done].
    destruct (argv !! Z.to_nat argi) as [token|]; [|done].
    destruct (valid_option_name token).
    + unfold_bind.
      destruct (parse_optional_arg p optional_args token argi argc argv)
        as [[optional_args1 argi1]| | | |] eqn:Hparse; try done.
      * apply parse_optional_arg_Ret in Hparse
          as (name & info & _ & _ & _ & [(_ & _ & -> & _)|(_ & -> & _)]);
          apply IH; lia.
      * by apply parse_optional_arg_fuel in Hparse.
    + apply IH. lia.
Qed.

Lemma parse_optional_arg_defined p optional_args option_name argi argc argv :
  0 ≤ argi → argi < argc → argc ≤ Z.of_nat (length argv) →
  parse_optional_arg p optional_args option_name argi argc argv ≠ Undefined.
Proof.
  intros Hargi Hlt Hargc.
  unfold parse_optional_arg, lookup_formatted_option_name. unfold_bind.
  repeat (case_match; try done);
    match goal with
    | Hnone : argv !! _ = None |- _ => apply lookup_ge_None in Hnone; lia
    end.
Qed.

(** With [argc] entries in [argv], no slot outside the array is read. *)
Lemma parse_args_loop_defined fuel p optional_args positional_args argi argc argv :
  0 ≤ argi → argc ≤ Z.of_nat (length argv) →
  parse_args_loop fuel p optional_args positional_args argi argc argv ≠ Undefined.
Proof.
  revert optional_args positional_args argi.
  induction fuel as [|fuel IH]; intros optional_args positional_args argi
    Hargi Hargc; simpl.
  - by case_decide.
  - case_decide as Hlt; [|done].
    destruct (lookup_lt_is_Some_2 argv (Z.to_nat argi)) as [token ->]; [lia|].
    destruct (valid_option_name token); [|apply IH; lia].
    unfold_bind.
    destruct (parse_optional_arg p optional_args token argi argc argv)
      as [[optional_args1 argi1]| | | |] eqn:Hparse; try done.
    + apply parse_optional_arg_Ret in Hparse
        as (name & info & _ & _ & _ & [(_ & _ & -> & _)|(_ & -> & _)]);
        apply IH; lia.
    + by apply parse_optional_arg_defined in Hparse.
Qed.

Lemma positional_candidates_scriptname scriptname p skip tokens :
  positional_candidates (set_scriptname scriptname p) skip tokens
  = positional_candidates p skip tokens.
Proof.
  revert skip. induction tokens as [|token tokens IH]; intros skip; simpl; [done|].
  destruct skip; [done|]. destruct (valid_option_name token); [|by rewrite IH].
  apply IH.
Qed.

Lemma positional_candidates_length p skip tokens :
  (length (positional_candidates p skip tokens) ≤ length tokens)%nat.
Proof.
  revert skip. induction tokens as [|token tokens IH]; intros skip; simpl; [done|].
  destruct skip; [specialize (IH false); lia|].
  destruct (valid_option_name token); simpl.
  - specialize (IH (takes_value p token)). lia.
  - specialize (IH false). lia.
Qed.

Lemma scanned_tokens_length argc argv :
  (0 < length argv)%nat →
  (length (scanned_tokens 1 argc argv) < length argv)%nat.
Proof.
  intros Hargv. unfold scanned_tokens. rewrite length_take, length_drop. lia.
Qed.

(** *** Writing the positional values *)

Lemma foldl_ext_in {A B} (f g : A → B → A) (l : list B) (a : A) :
  (∀ a x, x ∈ l → f a x = g a x) → foldl f a l = foldl g a l.
Proof.
  revert a. induction l as [|x l IH]; intros a Hfg; simpl; [done|].
  rewrite Hfg by apply list_elem_of_here.
  apply IH. intros a' y Hy. apply Hfg. by apply list_elem_of_further.
Qed.

Lemma assign_positionals_snoc order name positional_args args :
  assign_positionals (order ++ [name]) positional_args args
  = match positional_args !! length order with
    | Some v =>
        <[name := set_value v
                    (positional_at (assign_positionals order positional_args args)
                       name)]>
          (assign_positionals order positional_args args)
    | None => assign_positionals order positional_args args
    end.
Proof.
  unfold assign_positionals. rewrite length_app. simpl.
  rewrite seq_app, foldl_app. simpl.
  rewrite list_lookup_middle by done.
  erewrite (foldl_ext_in _ _ (seq 0 (length order))); [done|].
  intros a i [_ Hi]%elem_of_seq. simpl in *. by rewrite lookup_app_l by lia.
Qed.

(** Each declared positional ends with the candidate at its own index. *)
Lemma assign_positionals_value order positional_args args i name :
  NoDup order →
  (length order ≤ length positional_args)%nat →
  order !! i = Some name →
  value <$> (assign_positionals order positional_args args !! name)
  = positional_args !! i.
Proof.
  revert i name. induction order as [|x order IH] using rev_ind;
    intros i name Hnodup Hlen Hname; [done|].
  apply NoDup_app in Hnodup as (Hnodup & Hfresh & _).
  rewrite length_app in Hlen. simpl in Hlen.
  destruct (lookup_lt_is_Some_2 positional_args (length order)) as [v Hv]; [lia|].
  rewrite assign_positionals_snoc, Hv.
  apply lookup_app_Some in Hname as [Hname|[Hge Hname]].
  - rewrite lookup_insert_ne.
    + apply IH; [done|lia|done].
    + intros ->. eapply Hfresh; [by eapply list_elem_of_lookup_2|].
      apply list_elem_of_here.
  - apply list_lookup_singleton_Some in Hname as [Hi ->].
    rewrite lookup_insert_eq. simpl.
    replace i with (length order) by lia. by rewrite Hv.
Qed.

Lemma assign_positionals_is_Some order positional_args args name :
  is_Some (args !! name) →
  is_Some (assign_positionals order positional_args args !! name).
Proof.
  intros Hname. induction order as [|x order IH] using rev_ind; [done|].
  rewrite assign_positionals_snoc. case_match; [|done].
  destruct (decide (x = name)) as [->|Hne].
  - rewrite lookup_insert_eq. eauto.
  - by rewrite lookup_insert_ne.
Qed.

Lemma assign_positionals_other order positional_args args name :
  name ∉ order →
  assign_positionals order positional_args args !! name = args !! name.
Proof.
  induction order as [|x order IH] using rev_ind; intros Hname; [done|].
  apply not_elem_of_app in Hname as [Hname Hx].
  rewrite assign_positionals_snoc. case_match; [|by apply IH].
  rewrite lookup_insert_ne; [by apply IH|].
  intros ->. apply Hx, list_elem_of_here.
Qed.

(** *** Handing the leftover candidates back *)

Section rethread.
Context (n : nat) (positional_args : list string).

Let write (argv : list string) (pos_idx : nat) : list string :=
  match positional_args !! pos_idx with
  | Some v => <[(pos_idx - n + 1)%nat := v]> argv
  | None => argv
  end.

Lemma rethread_writes_length indices argv :
  length (foldl write argv indices) = length argv.
Proof.
  revert argv. induction indices as [|i indices IH]; intros argv; simpl; [done|].
  rewrite IH. unfold write. case_match; [|done]. by rewrite length_insert.
Qed.

Lemma rethread_writes_lookup k argv j :
  (n + k ≤ length positional_args)%nat →
  (S j < length argv)%nat →
  foldl write argv (seq n k) !! S j
  = if decide (j < k)%nat then positional_args !! (n + j)%nat else argv !! S j.
Proof.
  intros Hk Hj. induction k as [|k IH]; [done|].
  rewrite seq_S, foldl_app. simpl. unfold write at 1.
  destruct (lookup_lt_is_Some_2 positional_args (n + k)) as [v Hv]; [lia|].
  rewrite Hv. replace (n + k - n + 1)%nat with (S k) by lia.
  destruct (decide (j = k)) as [->|Hne].
  - rewrite list_lookup_insert_eq by (rewrite rethread_writes_length; lia).
    by rewrite decide_True by lia.
  - rewrite list_lookup_insert_ne by lia. rewrite IH by lia.
    destruct (decide (j < k)%nat), (decide (j < S k)%nat); done || lia.
Qed.

Lemma rethread_writes_scriptname k argv :
  foldl write argv (seq n k) !! 0%nat = argv !! 0%nat.
Proof.
  induction k as [|k IH]; [done|].
  rewrite seq_S, foldl_app. simpl. unfold write at 1. case_match; [|done].
  by rewrite list_lookup_insert_ne by lia.
Qed.

End rethread.

Lemma rethread_leftovers_length n positional_args argv :
  length (rethread_leftovers n positional_args argv) = length argv.
Proof. apply rethread_writes_length. Qed.

(** Slots 1, 2, ... of the rewritten [argv] hold the candidates from the
    [n]-th on, in their order. *)
Lemma rethread_leftovers_slots n positional_args argv :
  (n ≤ length positional_args)%nat →
  (length positional_args < length argv)%nat →
  take (length positional_args - n) (drop 1 (rethread_leftovers n positional_args argv))
  = drop n positional_args.
Proof.
  intros Hn Hargv. apply list_eq. intros j.
  rewrite lookup_drop.
  destruct (decide (j < length positional_args - n)%nat) as [Hj|Hj].
  - rewrite lookup_take_lt, lookup_drop by done. simpl.
    unfold rethread_leftovers.
    rewrite rethread_writes_lookup by lia. by rewrite decide_True.
  - rewrite lookup_take_ge by lia. symmetry. apply lookup_ge_None. lia.
Qed.

(** *** One iteration of the loop *)

Lemma parse_args_loop_end fuel p optional_args positional_args argi argc argv :
  ¬ argi < argc →
  parse_args_loop fuel p optional_args positional_args argi argc argv
  = Ret (optional_args, positional_args).
Proof. intros Hend. destruct fuel; simpl; by rewrite decide_False. Qed.

Lemma parse_args_loop_positional fuel p optional_args positional_args argi argc
    argv token :
  argi < argc →
  argv !! Z.to_nat argi = Some token →
  valid_option_name token = false →
  parse_args_loop (S fuel) p optional_args positional_args argi argc argv
  = parse_args_loop fuel p optional_args (positional_args ++ [token])
      (argi + 1) argc argv.
Proof. intros Hlt Htoken Hvalid. simpl. by rewrite decide_True, Htoken, Hvalid. Qed.

Lemma parse_args_loop_flag fuel p optional_args positional_args argi argc argv
    token name info :
  argi < argc →
  argv !! Z.to_nat argi = Some token →
  valid_option_name token = true →
  lookup_formatted_option_name p token = Ret name →
  name ≠ "help" →
  optional_args !! name = Some info →
  type info = FLAG →
  values info = [] →
  parse_args_loop (S fuel) p optional_args positional_args argi argc argv
  = parse_args_loop fuel p (<[name := push_value "true" info]> optional_args)
      positional_args (argi + 1) argc argv.
Proof.
  intros Hlt Htoken Hvalid Hlookup Hhelp Hinfo Hflag Hvalues. simpl.
  rewrite decide_True, Htoken, Hvalid by done.
  unfold parse_optional_arg. rewrite Hlookup. unfold_bind.
  rewrite decide_False, Hinfo, decide_True, Hvalues by done. done.
Qed.

Lemma parse_args_loop_value fuel p optional_args positional_args argi argc argv
    token name info v :
  argi < argc →
  argv !! Z.to_nat argi = Some token →
  valid_option_name token = true →
  lookup_formatted_option_name p token = Ret name →
  name ≠ "help" →
  optional_args !! name = Some info →
  type info ≠ FLAG →
  type info = APPEND ∨ values info = [] →
  argi + 1 ≠ argc →
  argv !! Z.to_nat (argi + 1) = Some v →
  valid_option_name v = false →
  parse_args_loop (S fuel) p optional_args positional_args argi argc argv
  = parse_args_loop fuel p (<[name := push_value v info]> optional_args)
      positional_args (argi + 2) argc argv.
Proof.
  intros Hlt Htoken Hvalid Hlookup Hhelp Hinfo Hflag Honce Hargc Hv Hvalue.
  simpl. rewrite decide_True, Htoken, Hvalid by done.
  unfold parse_optional_arg. rewrite Hlookup. unfold_bind.
  rewrite decide_False, Hinfo by done.
  destruct (decide (type info = FLAG)); [done|].
  destruct (decide (argi + 1 = argc)); [done|].
  rewrite Hv, Hvalue.
  replace (argi + 2) with (argi + 1 + 1) by lia.
  destruct Honce as [Happend|Hempty].
  - by rewrite bool_decide_false by (intros Hne; by apply Hne).
  - by rewrite Hempty, andb_false_r.
Qed.

(** *** The whole of [parse_args] *)

Lemma parse_optional_arg_Throw p optional_args option_name argi argc argv e :
  parse_optional_arg p optional_args option_name argi argc argv = Throw e →
  error_kind e
  ∈ [Some UnknownOptionError; Some MissingValueError; Some DuplicateError].
Proof.
  unfold parse_optional_arg, lookup_formatted_option_name. unfold_bind.
  intros Hthrow.
  repeat (case_match; simplify_eq; try done); simpl; set_solver.
Qed.

Lemma parse_args_loop_Throw fuel p optional_args positional_args argi argc argv e :
  parse_args_loop fuel p optional_args positional_args argi argc argv = Throw e →
  error_kind e
  ∈ [Some UnknownOptionError; Some MissingValueError; Some DuplicateError].
Proof.
  revert optional_args positional_args argi.
  induction fuel as [|fuel IH]; intros optional_args positional_args argi; simpl.
  - by case_decide.
  - case_decide; [|done].
    destruct (argv !! Z.to_nat argi) as [token|]; [|done].
    destruct (valid_option_name token); [|apply IH].
    unfold_bind.
    destruct (parse_optional_arg p optional_args token argi argc argv)
      as [[optional_args1 argi1]|e'| | |] eqn:Hparse; try done.
    + apply IH.
    + intros [= ->]. by eapply parse_optional_arg_Throw.
Qed.

Lemma parse_args_loop_Exit fuel p optional_args positional_args argi argc argv
    status :
  parse_args_loop fuel p optional_args positional_args argi argc argv
  = Exit status →
  status = 0.
Proof.
  revert optional_args positional_args argi.
  induction fuel as [|fuel IH]; intros optional_args positional_args argi; simpl.
  - by case_decide.
  - case_decide; [|done].
    destruct (argv !! Z.to_nat argi) as [token|]; [|done].
    destruct (valid_option_name token); [|apply IH].
    unfold_bind.
    destruct (parse_optional_arg p optional_args token argi argc argv)
      as [[optional_args1 argi1]| |status'| |] eqn:Hparse; try done.
    + apply IH.
    + intros [= ->]. revert Hparse.
      unfold parse_optional_arg, lookup_formatted_option_name. unfold_bind.
      intros Hexit. by repeat (case_match; simplify_eq; try done).
Qed.

(** [parse_args] ends: its loop never runs out of the fuel it is given. *)
Lemma parse_args_fuel p argc argv : (parse_args p argc argv).1 ≠ OutOfFuel.
Proof.
  unfold parse_args. destruct (argv !! 0%nat) as [scriptname|]; [|done].
  case_decide; [done|].
  destruct (parse_args_loop _ _ _ _ _ _ _) as [[optional_args positional_args]| | | |]
    eqn:Hloop; simpl; try done.
  - by case_decide.
  - apply parse_args_loop_fuel in Hloop; [done|lia].
Qed.

(** On the arguments of [main] ([argc] strings in [argv], the program name
    first) [parse_args] returns, throws or exits with status 0. *)
Lemma parse_args_total p argc argv :
  1 ≤ argc → argc = Z.of_nat (length argv) →
  (parse_args p argc argv).1 = Ret ()
  ∨ (∃ e, (parse_args p argc argv).1 = Throw e)
  ∨ (parse_args p argc argv).1 = Exit 0.
Proof.
  intros Hargc Hlen. pose proof (parse_args_fuel p argc argv) as Hfuel.
  revert Hfuel. unfold parse_args.
  destruct (lookup_lt_is_Some_2 argv 0) as [scriptname ->]; [lia|].
  case_decide; [lia|].
  destruct (parse_args_loop _ _ _ _ _ _ _) as [[optional_args positional_args]| | | |]
    eqn:Hloop; simpl; try done.
  - case_decide; eauto.
  - eauto.
  - apply parse_args_loop_Exit in Hloop as ->. auto.
  - apply parse_args_loop_defined in Hloop; [done|lia..].
Qed.

(** What a returning call has done. *)
Lemma parse_args_Ret p argc argv p' argc' argv' :
  parse_args p argc argv = (Ret (), (p', argc', argv')) →
  ∃ scriptname optional_args positional_args,
    argv !! 0%nat = Some scriptname
    ∧ 1 ≤ argc
    ∧ parse_args_loop (Z.to_nat argc) (set_scriptname scriptname p)
        (m_optional_args p) [] 1 argc argv
      = Ret (optional_args, positional_args)
    ∧ (length (m_positional_order p) ≤ length positional_args)%nat
    ∧ p' = {| m_scriptname := scriptname;
              m_positional_order := m_positional_order p;
              m_positional_args :=
                assign_positionals (m_positional_order p) positional_args
                  (m_positional_args p);
              m_optional_order := m_optional_order p;
              m_optional_args := optional_args;
              m_flags := m_flags p |}
    ∧ argc' = Z.of_nat (length positional_args)
              - Z.of_nat (length (m_positional_order p)) + 1
    ∧ argv' = rethread_leftovers (length (m_positional_order p))
                positional_args argv.
Proof.
  unfold parse_args. destruct (argv !! 0%nat) as [scriptname|]; [|done].
  case_decide; [done|].
  destruct (parse_args_loop _ _ _ _ _ _ _) as [[optional_args positional_args]| | | |]
    eqn:Hloop; try done.
  simpl in *. case_decide; [done|]. intros [= <- <- <-].
  exists scriptname, optional_args, positional_args.
  split_and!; try done; lia.
Qed.

(** What a throwing call has done: it has stored the program name. *)
Lemma parse_args_Throw p argc argv e p' argc' argv' :
  parse_args p argc argv = (Throw e, (p', argc', argv')) →
  (∃ scriptname, argv !! 0%nat = Some scriptname
                 ∧ p' = set_scriptname scriptname p)
  ∧ argc' = argc ∧ argv' = argv
  ∧ (e = Reserve_length
     ∨ error_kind e
       ∈ [Some UnknownOptionError; Some MissingValueError; Some DuplicateError;
          Some MissingPositionalError]).
Proof.
  unfold parse_args. destruct (argv !! 0%nat) as [scriptname|]; [|done].
  case_decide.
  { intros [= <- <- <- <-]. eauto 10. }
  destruct (parse_args_loop _ _ _ _ _ _ _) as [[optional_args positional_args]| | | |]
    eqn:Hloop; try done.
  - simpl. case_decide; [|done]. intros [= <- <- <- <-].
    split_and!; eauto. right. simpl. rewrite !elem_of_cons. auto.
  - intros [= <- <- <- <-]. split_and!; eauto. right.
    apply parse_args_loop_Throw in Hloop.
    rewrite !elem_of_cons in *. tauto.
Qed.

(** *** Registries a program can build *)

Lemma add_optional_positionals p long_name type help_text :
  m_positional_order (add_optional p long_name type help_text).2
  = m_positional_order p
  ∧ m_positional_args (add_optional p long_name type help_text).2
    = m_positional_args p.
Proof. unfold add_optional. by repeat case_match. Qed.

Lemma add_optional_flag_positionals p flag long_name type help_text :
  m_positional_order (add_optional_flag p flag long_name type help_text).2
  = m_positional_order p
  ∧ m_positional_args (add_optional_flag p flag long_name type help_text).2
    = m_positional_args p.
Proof.
  unfold add_optional_flag.
  pose proof (add_optional_positionals p long_name type help_text) as Hadd.
  destruct (add_optional p long_name type help_text) as [[]]; by repeat case_match.
Qed.

Lemma add_optional_Ret p long_name type help_text reference_name p' :
  add_optional p long_name type help_text = (Ret reference_name, p') →
  m_optional_args p !! reference_name = None
  ∧ m_positional_args p !! reference_name = None
  ∧ m_optional_args p'
    = <[reference_name := mk_Optional_Info " " type [] help_text]>
        (m_optional_args p).
Proof.
  unfold add_optional. destruct (string_empty _); [done|].
  destruct (decide (is_Some (m_optional_args p !! _))) as [|Hoptional]; [done|].
  destruct (decide (is_Some (m_positional_args p !! _))) as [|Hpositional]; [done|].
  intros [= <- <-]. simpl.
  by split_and!; [apply eq_None_not_Some..|].
Qed.

Lemma same_declarations_None (a b : gmap string Optional_Info) name :
  same_declarations a b → b !! name = None → a !! name = None.
Proof.
  intros Hsame Hname. specialize (Hsame name). rewrite Hname in Hsame.
  by destruct (a !! name).
Qed.

Lemma new_parser_invariant : registry_invariant new_parser.
Proof.
  rewrite new_parser_unfold. split_and!; simpl.
  - constructor.
  - intros name. rewrite lookup_empty. split; [by intros ?%elem_of_nil|].
    by intros ?%is_Some_None.
  - intros name. rewrite lookup_empty. by intros ?%is_Some_None.
Qed.

Lemma add_positional_invariant p name help_text :
  registry_invariant p → registry_invariant (add_positional p name help_text).2.
Proof.
  intros (Hnodup & Hdom & Hdisjoint). unfold add_positional.
  destruct (negb (valid_positional_name name)); [done|].
  destruct (decide (is_Some (m_positional_args p !! name))) as [|Hfresh]; [done|].
  destruct (decide (is_Some (m_optional_args p !! name))) as [|Hoptional]; [done|].
  split_and!; simpl.
  - apply NoDup_app. split_and!; [done| |apply NoDup_singleton].
    intros x Hx ->%list_elem_of_singleton. by apply Hfresh, Hdom.
  - intros x. rewrite elem_of_app, list_elem_of_singleton, Hdom.
    destruct (decide (name = x)) as [->|Hne].
    + rewrite lookup_insert_eq. split; eauto.
    + rewrite lookup_insert_ne by done. split; [|by left].
      by intros [?|?].
  - intros x. destruct (decide (name = x)) as [->|Hne].
    + intros _. by apply eq_None_not_Some.
    + rewrite lookup_insert_ne by done. apply Hdisjoint.
Qed.

Lemma add_optional_invariant p long_name type help_text :
  registry_invariant p →
  registry_invariant (add_optional p long_name type help_text).2.
Proof.
  intros Hinv. destruct (add_optional p long_name type help_text)
    as [[reference_name| | | |] p'] eqn:Hadd;
    [|revert Hadd; unfold add_optional; repeat case_match; intros ?;
      by simplify_eq..].
  pose proof (add_optional_positionals p long_name type help_text) as Hsame.
  rewrite Hadd in Hsame. simpl in *. destruct Hsame as [Horder Hargs].
  apply add_optional_Ret in Hadd as (_ & Hfresh & Hoptional).
  destruct Hinv as (Hnodup & Hdom & Hdisjoint).
  unfold registry_invariant. rewrite Horder, Hargs, Hoptional.
  split_and!; [done..|]. intros name Hname.
  rewrite lookup_insert_ne; [by apply Hdisjoint|].
  intros ->. rewrite Hfresh in Hname. by apply is_Some_None in Hname.
Qed.

Lemma add_optional_flag_invariant p flag long_name type help_text :
  registry_invariant p →
  registry_invariant (add_optional_flag p flag long_name type help_text).2.
Proof.
  intros Hinv. unfold add_optional_flag.
  destruct (string_empty _); [done|]. case_decide; [done|].
  pose proof (add_optional_invariant p long_name type help_text Hinv) as Hinv1.
  destruct (add_optional p long_name type help_text)
    as [[reference_name| | | |] p1] eqn:Hadd; [|done..].
  pose proof (add_optional_positionals p long_name type help_text) as Hsame.
  rewrite Hadd in Hsame. simpl in *. destruct Hsame as [Horder Hargs].
  apply add_optional_Ret in Hadd as (_ & Hfresh & _).
  destruct Hinv1 as (Hnodup & Hdom & Hdisjoint).
  split_and!; [done..|]. simpl. intros name Hname.
  rewrite lookup_insert_ne; [by apply Hdisjoint|].
  intros ->. rewrite Hargs, Hfresh in Hname. by apply is_Some_None in Hname.
Qed.

Lemma parse_args_invariant p argc argv :
  registry_invariant p → registry_invariant (parse_args p argc argv).2.1.1.
Proof.
  intros Hinv.
  destruct (parse_args p argc argv) as [[[]| | | |] [[p' argc'] argv']] eqn:Hparse;
    simpl.
  - apply parse_args_Ret in Hparse
      as (scriptname & optional_args & positional_args & _ & Hargc & Hloop & _
          & -> & _).
    apply parse_args_loop_candidates in Hloop as [_ Hsame]; [|lia|done].
    destruct Hinv as (Hnodup & Hdom & Hdisjoint).
    assert (∀ name, is_Some (assign_positionals (m_positional_order p)
                               positional_args (m_positional_args p) !! name)
                    ↔ is_Some (m_positional_args p !! name)) as Hassign.
    { intros name. split; [|apply assign_positionals_is_Some].
      destruct (decide (name ∈ m_positional_order p)) as [Hin|Hout].
      - intros _. by apply Hdom.
      - by rewrite assign_positionals_other. }
    split_and!; simpl; [done|..].
    + intros name. by rewrite Hassign.
    + intros name Hname%Hassign.
      eapply same_declarations_None; [done|]. by apply Hdisjoint.
  - by apply parse_args_Throw in Hparse as ((scriptname & _ & ->) & _).
  - revert Hparse. unfold parse_args. repeat case_match; intros ?; by simplify_eq.
  - revert Hparse. unfold parse_args. repeat case_match; intros ?; by simplify_eq.
  - revert Hparse. unfold parse_args. repeat case_match; intros ?; by simplify_eq.
Qed.

(** Every registry built by declarations and scans satisfies the
    invariant, whether the calls succeeded or failed. *)
Lemma reachable_invariant p : reachable p → registry_invariant p.
Proof.
  induction 1;
    auto using new_parser_invariant, add_positional_invariant,
      add_optional_invariant, add_optional_flag_invariant, parse_args_invariant.
Qed.

(** In such a registry a declared positional name resolves to its record,
    and not to an optional argument. *)
Lemma reachable_positional p name :
  reachable p → name ∈ m_positional_order p →
  m_optional_args p !! name = None ∧ is_Some (m_positional_args p !! name).
Proof.
  intros (_ & Hdom & Hdisjoint)%reachable_invariant Hname%Hdom. auto.
Qed.

(** *** The claims about the scan *)

(** C6: on every successful scan of a registry whose positional names are
    distinct (as they are in every registry a program can build, by
    [reachable_invariant]), the candidates are the tokens that are neither
    option-like nor consumed as the value of an option, in encounter order;
    there are at least as many as declared positionals; the positional
    declared [i]-th ends with the
    [i]-th candidate as its value (one write per declaration, no other
    record is touched); the new [argc] is the number of leftover candidates
    plus one, and slots 1 to [argc - 1] of the rewritten [argv] hold the
    leftover candidates in their order, slot 0 being untouched. *)
Theorem parse_args_assigns_positionals_in_order p argc argv p' argc' argv' :
  NoDup (m_positional_order p) →
  parse_args p argc argv = (Ret (), (p', argc', argv')) →
  let candidates := positional_candidates p false (scanned_tokens 1 argc argv) in
  let n := length (m_positional_order p) in
  m_positional_order p' = m_positional_order p
  ∧ (n ≤ length candidates)%nat
  ∧ (∀ i name, m_positional_order p !! i = Some name →
               value <$> (m_positional_args p' !! name) = candidates !! i)
  ∧ (∀ name, name ∉ m_positional_order p →
             m_positional_args p' !! name = m_positional_args p !! name)
  ∧ argc' = Z.of_nat (length candidates - n) + 1
  ∧ take (Z.to_nat (argc' - 1)) (drop 1 argv') = drop n candidates
  ∧ length argv' = length argv
  ∧ argv' !! 0%nat = argv !! 0%nat.
Proof.
  intros Hnodup Hparse candidates n.
  apply parse_args_Ret in Hparse
    as (scriptname & optional_args & positional_args & Hscriptname & Hargc
        & Hloop & Hlen & -> & -> & ->).
  apply parse_args_loop_candidates in Hloop as [Hcandidates _]; [|lia|done].
  rewrite positional_candidates_scriptname in Hcandidates. simpl in Hcandidates.
  fold candidates in Hcandidates. subst positional_args. fold n in Hlen |- *.
  assert (length candidates < length argv)%nat as Hargv.
  { eapply Nat.le_lt_trans; [apply positional_candidates_length|].
    apply scanned_tokens_length. by eapply lookup_lt_Some. }
  simpl. split_and!; try done.
  - intros i name Hname. by apply assign_positionals_value.
  - intros name Hname. by apply assign_positionals_other.
  - lia.
  - replace (Z.to_nat _) with (length candidates - n)%nat by lia.
    by apply rethread_leftovers_slots.
  - apply rethread_leftovers_length.
  - apply rethread_writes_scriptname.
Qed.

Lemma parse_args_assigns_positionals_in_order_witness :
  let p := (add_positional new_parser "file" "").2 in
  let result := parse_args p 5 ["prog"; "in.txt"; "x"; "-5"; "y"] in
  result.2.1.2 = 4
  ∧ take 3 (drop 1 result.2.2) = ["x"; "-5"; "y"].
Proof.
  edestruct (parse_args_assigns_positionals_in_order
               (add_positional new_parser "file" "").2 5
               ["prog"; "in.txt"; "x"; "-5"; "y"]
               (parse_args (add_positional new_parser "file" "").2 5
                  ["prog"; "in.txt"; "x"; "-5"; "y"]).2.1.1
               4 ["prog"; "x"; "-5"; "y"; "y"])
    as (_ & _ & _ & _ & Hargc & Hslots & _).
  - apply NoDup_singleton.
  - vm_compute. reflexivity.
  - exact (conj Hargc Hslots).
Defined.

(** C7, as amended: when the walk over the tokens ends without an error
    and without a request for help, and has collected fewer candidates
    than there are declared positionals, [parse_args] fails with
    MissingPositionalError naming the declaration at the index equal to the
    number of candidates, the first one, in declaration order, without a
    candidate; the candidates are those of the specification's walk. *)
Theorem missing_positional_names_first_unmatched p argc argv scriptname
    optional_args positional_args :
  argv !! 0%nat = Some scriptname →
  1 ≤ argc →
  parse_args_loop (Z.to_nat argc) (set_scriptname scriptname p)
    (m_optional_args p) [] 1 argc argv
  = Ret (optional_args, positional_args) →
  (length positional_args < length (m_positional_order p))%nat →
  positional_args = positional_candidates p false (scanned_tokens 1 argc argv)
  ∧ ∃ name,
      m_positional_order p !! length positional_args = Some name
      ∧ (∀ i, (i < length positional_args)%nat →
              is_Some (m_positional_order p !! i) ∧ is_Some (positional_args !! i))
      ∧ positional_args !! length positional_args = None
      ∧ parse_args p argc argv
        = (Throw (Requires_positional name),
           (set_scriptname scriptname p, argc, argv))
      ∧ error_kind (Requires_positional name) = Some MissingPositionalError.
Proof.
  intros Hscriptname Hargc Hloop Hfewer. split.
  - apply parse_args_loop_candidates in Hloop as [-> _]; [|lia|done].
    by rewrite positional_candidates_scriptname.
  - destruct (lookup_lt_is_Some_2 (m_positional_order p) (length positional_args))
      as [name Hname]; [done|].
    exists name. split_and!; [done| | |..|done].
    + intros i Hi. split; apply lookup_lt_is_Some_2; lia.
    + by apply lookup_ge_None.
    + unfold parse_args. rewrite Hscriptname. cbv zeta.
      rewrite decide_False by lia.
      change (m_optional_args (set_scriptname scriptname p))
        with (m_optional_args p).
      rewrite Hloop. simpl. by rewrite decide_True, Hname.
Qed.

Lemma missing_positional_names_first_unmatched_witness :
  let p := (add_positional (add_positional new_parser "input" "").2 "output" "").2 in
  (parse_args p 2 ["prog"; "a.txt"]).1 = Throw (Requires_positional "output").
Proof.
  edestruct (missing_positional_names_first_unmatched
               (add_positional (add_positional new_parser "input" "").2 "output" "").2
               2 ["prog"; "a.txt"] "prog"
               {["help" := mk_Optional_Info "h" FLAG [] ""]} ["a.txt"])
    as (_ & name & Hname & _ & _ & Hthrow & _).
  - reflexivity.
  - lia.
  - vm_compute. reflexivity.
  - vm_compute. lia.
  - vm_compute in Hname. injection Hname as <-. exact (f_equal fst Hthrow).
Defined.

(** C7, as stated, fails: with one positional declared, the token vectors
    [--bogus] and [-h] hold no candidate at all, fewer than the one
    declaration, and the scan does not fail with MissingPositionalError:
    the unknown option is reported, and the request for help ends the
    program with status 0, before any candidate is counted. *)
Lemma walk_failure_precedes_missing_positional :
  let p := (add_positional new_parser "input" "").2 in
  m_positional_order p = ["input"]
  ∧ positional_candidates p false (scanned_tokens 1 2 ["prog"; "--bogus"]) = []
  ∧ (parse_args p 2 ["prog"; "--bogus"]).1 = Throw (Invalid_option "--bogus")
  ∧ error_kind (Invalid_option "--bogus") = Some UnknownOptionError
  ∧ positional_candidates p false (scanned_tokens 1 2 ["prog"; "-h"]) = []
  ∧ (parse_args p 2 ["prog"; "-h"]).1 = Exit 0
  ∧ ¬ (∀ argc argv,
         (length (positional_candidates p false (scanned_tokens 1 argc argv))
          < length (m_positional_order p))%nat →
         ∃ name, (parse_args p argc argv).1 = Throw (Requires_positional name)).
Proof.
  cbv zeta. split_and!; try (vm_compute; reflexivity).
  intros Hclaim.
  destruct (Hclaim 2 ["prog"; "--bogus"]) as [name Hname].
  - vm_compute. lia.
  - vm_compute in Hname. discriminate.
Qed.

Lemma parse_args_loop_occurrences fuel p optional_args positional_args argi argc
    argv optional_args' positional_args' name info :
  0 ≤ argi →
  same_declarations optional_args (m_optional_args p) →
  parse_args_loop fuel p optional_args positional_args argi argc argv
  = Ret (optional_args', positional_args') →
  optional_args !! name = Some info →
  type info ≠ FLAG →
  ∃ info',
    optional_args' !! name = Some info'
    ∧ declaration info' = declaration info
    ∧ values info'
      = values info
        ++ occurrence_values p name None (scanned_tokens argi argc argv)
    ∧ length (occurrence_values p name None (scanned_tokens argi argc argv))
      = length (occurrences p name false (scanned_tokens argi argc argv)).
Proof.
  revert optional_args positional_args argi info.
  induction fuel as [|fuel IH]; intros optional_args positional_args argi info
    Hargi Hsame; simpl.
  - case_decide; [done|]. intros [= <- <-] Hinfo _.
    exists info. by rewrite scanned_tokens_done, app_nil_r.
  - case_decide as Hlt.
    2:{ intros [= <- <-] Hinfo _.
        exists info. by rewrite scanned_tokens_done, app_nil_r. }
    destruct (argv !! Z.to_nat argi) as [token|] eqn:Htoken; [|done].
    rewrite (scanned_tokens_cons _ _ _ _ Hargi Hlt Htoken). simpl.
    destruct (valid_option_name token) eqn:Hvalid; simpl.
    + unfold_bind.
      destruct (parse_optional_arg p optional_args token argi argc argv)
        as [[optional_args1 argi1]| | | |] eqn:Hparse; [|done..].
      apply parse_optional_arg_Ret in Hparse
        as (name1 & info1 & Hlookup & _ & Hinfo1 & Hcases).
      pose proof (Hsame name1) as Htype. rewrite Hinfo1 in Htype.
      simpl in Htype.
      unfold takes_value, resolves_to. rewrite Hlookup.
      destruct (m_optional_args p !! name1) as [info0|]; [|done].
      simpl in Htype. injection Htype as Htype.
      destruct Hcases
        as [(Hflag & _ & -> & ->)|(Hflag & -> & Hne & v & Hv & _ & _ & ->)].
      * rewrite bool_decide_false by (rewrite <- Htype; auto).
        intros Hloop Hinfo Hnoflag.
        assert (name1 ≠ name) as Hother by congruence.
        rewrite bool_decide_false by done. simpl.
        eapply IH in Hloop; [exact Hloop|lia| | |done].
        -- by apply same_declarations_push.
        -- by rewrite lookup_insert_ne.
      * rewrite bool_decide_true by (by rewrite <- Htype).
        rewrite (scanned_tokens_cons (argi + 1) _ _ v) by (done || lia). simpl.
        intros Hloop Hinfo Hnoflag.
        destruct (decide (name1 = name)) as [->|Hother].
        -- rewrite bool_decide_true by done. simpl.
           assert (info1 = info) as -> by congruence.
           eapply (IH _ _ _ (push_value v info)) in Hloop
             as (info' & Hinfo' & Hdecl & Hvalues & Hlen);
             [|lia|by apply same_declarations_push|by rewrite lookup_insert_eq
              |done].
           exists info'. split_and!; [done|done| |by rewrite Hlen].
           rewrite Hvalues. simpl. by rewrite <- app_assoc.
        -- rewrite bool_decide_false by done. simpl.
           eapply IH in Hloop; [exact Hloop|lia| | |done].
           ++ by apply same_declarations_push.
           ++ by rewrite lookup_insert_ne.
    + intros Hloop Hinfo Hnoflag.
      eapply IH in Hloop; [exact Hloop|lia|done..].
Qed.

Lemma occurrence_values_scriptname scriptname p name pending tokens :
  occurrence_values (set_scriptname scriptname p) name pending tokens
  = occurrence_values p name pending tokens.
Proof.
  revert pending.
  induction tokens as [|token tokens IH]; intros pending; simpl; [done|].
  destruct pending as [mine|]; [by rewrite IH|].
  change (takes_value (set_scriptname scriptname p) token)
    with (takes_value p token).
  change (resolves_to (set_scriptname scriptname p) token name)
    with (resolves_to p token name).
  by rewrite !IH.
Qed.

Lemma occurrences_scriptname scriptname p name skip tokens :
  occurrences (set_scriptname scriptname p) name skip tokens
  = occurrences p name skip tokens.
Proof.
  revert skip.
  induction tokens as [|token tokens IH]; intros skip; simpl; [done|].
  change (takes_value (set_scriptname scriptname p) token)
    with (takes_value p token).
  change (resolves_to (set_scriptname scriptname p) token name)
    with (resolves_to p token name).
  by rewrite !IH.
Qed.

(** C8: the values of an APPEND option accumulate one entry per
    occurrence, in encounter order.  With an APPEND option declared as
    [--tag] on a fresh registry, scanning [--tag a --tag b] records both
    values: [arg_count] is 2, text extraction at index 0 gives [a] and at
    index 1 gives [b], for all value tokens [a] and [b] that are not
    option-like and not empty, in particular for ["a"] and ["b"].  In
    general, after every successful scan of any registry, the values of
    every APPEND option are its values before the scan followed by the
    token behind each of its occurrences in the token vector, in encounter
    order, one for each occurrence; [arg_count] is their number and text
    extraction at an index gives the value recorded there (when it is not
    the empty string). *)
Theorem append_round_trip (scriptname help_text a b : string) :
  valid_option_name a = false →
  valid_option_name b = false →
  a ≠ "" → b ≠ "" →
  (∃ p',
    parse_args (add_optional new_parser "--tag" APPEND help_text).2 5
      [scriptname; "--tag"; a; "--tag"; b]
    = (Ret (), (p', 1, [scriptname; "--tag"; a; "--tag"; b]))
    ∧ values <$> (m_optional_args p' !! "tag") = Some [a; b]
    ∧ arg_count p' "tag" = Ret 2%nat
    ∧ arg_at_index (T := string) p' "tag" 0 = Ret a
    ∧ arg_at_index (T := string) p' "tag" 1 = Ret b)
  ∧ ∀ p argc argv p' argc' argv' name info,
      parse_args p argc argv = (Ret (), (p', argc', argv')) →
      m_optional_args p !! name = Some info →
      type info = APPEND →
      ∃ info',
        m_optional_args p' !! name = Some info'
        ∧ type info' = APPEND
        ∧ values info'
          = values info
            ++ occurrence_values p name None (scanned_tokens 1 argc argv)
        ∧ length (occurrence_values p name None (scanned_tokens 1 argc argv))
          = length (occurrences p name false (scanned_tokens 1 argc argv))
        ∧ arg_count p' name = Ret (length (values info'))
        ∧ ∀ idx v,
            values info' !! idx = Some v → v ≠ "" →
            arg_at_index (T := string) p' name idx = Ret v.
Proof.
  intros Ha Hb Hane Hbne. split.
  { eexists. split.
    - unfold parse_args.
      change ([scriptname; "--tag"; a; "--tag"; b] !! 0%nat) with (Some scriptname).
      cbv iota beta. rewrite decide_False by lia.
      change (Z.to_nat 5) with 5%nat.
      erewrite parse_args_loop_value; [|done..|by left|done|reflexivity|done].
      erewrite parse_args_loop_value; [|done..|by left|done|reflexivity|done].
      rewrite parse_args_loop_end by done.
      reflexivity.
    - cbn. split_and!; try done.
      + destruct a; done.
      + destruct b; done. }
  intros p argc argv p' argc' argv' name info Hparse Hinfo Htype.
  apply parse_args_Ret in Hparse
    as (scriptname' & optional_args & positional_args & _ & _ & Hloop & _
        & -> & _).
  eapply parse_args_loop_occurrences in Hloop
    as (info' & Hinfo' & Hdecl & Hvalues & Hlen);
    [|lia|done|exact Hinfo|by rewrite Htype].
  rewrite occurrence_values_scriptname in Hvalues, Hlen.
  rewrite occurrences_scriptname in Hlen.
  exists info'. simpl.
  assert (type info' = APPEND) as Htype'.
  { unfold declaration in Hdecl. injection Hdecl as _ Htype' _. congruence. }
  split_and!; [done..| |].
  - unfold arg_count. simpl. by rewrite Hinfo'.
  - intros idx v Hv Hne.
    unfold arg_at_index. erewrite arg_at_optional;
      [|exact Hinfo'|by apply optional_arg_stored].
    by destruct v.
Qed.

Lemma append_round_trip_witness :
  (let p' := (parse_args (add_optional new_parser "--tag" APPEND "").2 5
                ["prog"; "--tag"; "a"; "--tag"; "b"]).2.1.1 in
   arg_count p' "tag" = Ret 2%nat
   ∧ arg_at_index (T := string) p' "tag" 0 = Ret "a"
   ∧ arg_at_index (T := string) p' "tag" 1 = Ret "b")
  ∧ (let p := (add_optional_flag
                 (add_optional new_parser "--tag" APPEND "").2
                 "-v" "--verbose" FLAG "").2 in
     let p' := (parse_args p 9
                  ["prog"; "--tag"; "a"; "x"; "--tag"; "b"; "-v"; "--tag"; "c"])
               .2.1.1 in
     occurrences p "tag" false
       ["--tag"; "a"; "x"; "--tag"; "b"; "-v"; "--tag"; "c"]
     = ["--tag"; "--tag"; "--tag"]
     ∧ values <$> (m_optional_args p' !! "tag") = Some ["a"; "b"; "c"]
     ∧ arg_count p' "tag" = Ret 3%nat
     ∧ arg_at_index (T := string) p' "tag" 2 = Ret "c").
Proof.
  destruct (append_round_trip "prog" "" "a" "b" eq_refl eq_refl
              ltac:(discriminate) ltac:(discriminate))
    as ((p' & Hparse & _ & Hcount & Ha & Hb) & Hgeneral).
  split.
  - cbv zeta. rewrite Hparse. exact (conj Hcount (conj Ha Hb)).
  - cbv zeta.
    edestruct (Hgeneral
                 (add_optional_flag
                    (add_optional new_parser "--tag" APPEND "").2
                    "-v" "--verbose" FLAG "").2
                 9 ["prog"; "--tag"; "a"; "x"; "--tag"; "b"; "-v"; "--tag"; "c"]
                 (parse_args
                    (add_optional_flag
                       (add_optional new_parser "--tag" APPEND "").2
                       "-v" "--verbose" FLAG "").2
                    9 ["prog"; "--tag"; "a"; "x"; "--tag"; "b"; "-v"; "--tag"; "c"])
                 .2.1.1
                 2 ["prog"; "x"; "a"; "x"; "--tag"; "b"; "-v"; "--tag"; "c"]
                 "tag" (mk_Optional_Info " " APPEND [] ""))
      as (info' & Hinfo' & _ & Hvalues & _ & Hcount' & Hextract).
    + vm_compute. reflexivity.
    + vm_compute. reflexivity.
    + reflexivity.
    + split_and!.
      * vm_compute. reflexivity.
      * rewrite Hinfo'. simpl. rewrite Hvalues. vm_compute. reflexivity.
      * rewrite Hcount', Hvalues. vm_compute. reflexivity.
      * apply Hextract; [|discriminate]. rewrite Hvalues.
        vm_compute. reflexivity.
Defined.

(** C9: a scan that fails with an exception commits nothing: the map of
    optional arguments and the positional records (and the declaration
    orders, the flag index, [argc] and [argv]) are as before the call; only
    the program name has been stored.  The failures are the scanning errors
    (unknown option, missing value, duplicate, missing positional), or the
    length error of [reserve] for a negative count. *)
Theorem failed_scan_commits_nothing p argc argv e p' argc' argv' :
  parse_args p argc argv = (Throw e, (p', argc', argv')) →
  m_optional_args p' = m_optional_args p
  ∧ m_positional_args p' = m_positional_args p
  ∧ m_positional_order p' = m_positional_order p
  ∧ m_optional_order p' = m_optional_order p
  ∧ m_flags p' = m_flags p
  ∧ argc' = argc
  ∧ argv' = argv
  ∧ (e = Reserve_length
     ∨ error_kind e
       ∈ [Some UnknownOptionError; Some MissingValueError; Some DuplicateError;
          Some MissingPositionalError]).
Proof.
  intros Hparse.
  apply parse_args_Throw in Hparse as ((scriptname & _ & ->) & -> & -> & He).
  by split_and!.
Qed.

Lemma failed_scan_commits_nothing_witness :
  let p := (add_optional_flag new_parser "-v" "--verbose" FLAG "").2 in
  let result := parse_args p 4 ["prog"; "-v"; "--verbose"; "x"] in
  result.1 = Throw (Specified_once "--verbose")
  ∧ m_optional_args result.2.1.1 = m_optional_args p.
Proof.
  edestruct (failed_scan_commits_nothing
               (add_optional_flag new_parser "-v" "--verbose" FLAG "").2
               4 ["prog"; "-v"; "--verbose"; "x"] (Specified_once "--verbose")
               (set_scriptname "prog"
                  (add_optional_flag new_parser "-v" "--verbose" FLAG "").2)
               4 ["prog"; "-v"; "--verbose"; "x"])
    as (Hoptional & _).
  - vm_compute. reflexivity.
  - split; [vm_compute; reflexivity|exact Hoptional].
Defined.

(** ** The scenarios of the specification *)

Example scenario_all_present :
  let p := (add_positional new_parser "file" "").2 in
  let p := (add_optional_flag p "-v" "--verbose" FLAG "").2 in
  let p := (add_optional_flag p "-o" "--output" SINGLE "").2 in
  let result := parse_args p 5 ["prog"; "-v"; "input.txt"; "-o"; "out.txt"] in
  let p' := result.2.1.1 in
  result.1 = Ret ()
  ∧ result.2.1.2 = 1
  ∧ arg (T := string) p' "file" = Ret "input.txt"
  ∧ arg (T := bool) p' "verbose" = Ret true
  ∧ arg (T := string) p' "output" = Ret "out.txt".
Proof. vm_compute. done. Qed.

Example scenario_options_absent :
  let p := (add_positional new_parser "file" "").2 in
  let p := (add_optional_flag p "-v" "--verbose" FLAG "").2 in
  let p := (add_optional_flag p "-o" "--output" SINGLE "").2 in
  let p' := (parse_args p 2 ["prog"; "input.txt"]).2.1.1 in
  arg (T := bool) p' "verbose" = Ret false
  ∧ arg (T := string) p' "output" = Throw (No_value_no_default "output").
Proof. vm_compute. done. Qed.

Example scenario_candidates :
  let p := (add_optional_flag new_parser "-v" "--verbose" FLAG "").2 in
  let p := (add_optional_flag p "-o" "--output" SINGLE "").2 in
  positional_candidates p false ["-v"; "input.txt"; "-o"; "out.txt"; "-5"; "extra"]
  = ["input.txt"; "-5"; "extra"].
Proof. vm_compute. done. Qed.

Example scenario_help_exits :
  let p := (add_positional new_parser "file" "").2 in
  (parse_args p 3 ["prog"; "-h"; "--nonsense"]).1 = Exit 0
  ∧ (parse_args p 3 ["prog"; "--nonsense"; "-h"]).1
    = Throw (Invalid_option "--nonsense").
Proof. vm_compute. done. Qed.

(** * Further properties of the header *)

(** ** What the matcher accepts *)

Lemma append_cons c (a b : string) : String c a +:+ b = String c (a +:+ b).
Proof. reflexivity. Qed.

Lemma append_nil_r (s : string) : s +:+ "" = s.
Proof. induction s as [|c s IH]; [done|]. by rewrite append_cons, IH. Qed.

Lemma append_assoc (a b c : string) : (a +:+ b) +:+ c = a +:+ (b +:+ c).
Proof. induction a as [|x a IH]; [done|]. by rewrite !append_cons, IH. Qed.

Lemma regex_match_Alt r1 r2 s :
  regex_match (Alt r1 r2) s = regex_match r1 s || regex_match r2 s.
Proof. revert r1 r2. induction s as [|c s IH]; intros r1 r2; simpl; [done|]. apply IH. Qed.

Lemma regex_match_Cat_Eps r s : regex_match (Cat Eps r) s = regex_match r s.
Proof.
  destruct s as [|c s]; simpl; [done|].
  by rewrite regex_match_Alt, void_no_match.
Qed.

Lemma regex_match_Class_cons P r c s :
  regex_match (Cat (Class P) r) (String c s) = P c && regex_match r s.
Proof.
  simpl. rewrite regex_match_Alt, (void_no_match Void), orb_false_r by done.
  destruct (P c); [apply regex_match_Cat_Eps|by apply void_no_match].
Qed.

Lemma regex_match_Star_Class P s :
  regex_match (Star (Class P)) s = string_forall P s.
Proof.
  induction s as [|c s IH]; simpl; [done|].
  destruct (P c); simpl; [by rewrite regex_match_Cat_Eps|by apply void_no_match].
Qed.

Lemma regex_match_Plus_Class P s :
  regex_match (Plus (Class P)) s = negb (string_empty s) && string_forall P s.
Proof.
  destruct s as [|c s]; [done|]. unfold Plus.
  by rewrite regex_match_Class_cons, regex_match_Star_Class.
Qed.

(** The language of a concatenation. *)
Lemma regex_match_Cat r1 r2 s :
  regex_match (Cat r1 r2) s = true
  ↔ ∃ a b, s = a +:+ b ∧ regex_match r1 a = true ∧ regex_match r2 b = true.
Proof.
  revert r1. induction s as [|c s IH]; intros r1; simpl.
  - rewrite andb_true_iff. split.
    + intros [? ?]. by exists "", "".
    + intros ([|? a] & [|? b] & Hs & Ha & Hb); done.
  - rewrite regex_match_Alt, orb_true_iff, IH. split.
    + intros [(a & b & -> & Ha & Hb)|Hnull].
      * by exists (String c a), b.
      * destruct (nullable r1) eqn:Hr1; [|by rewrite void_no_match in Hnull].
        by exists "", (String c s).
    + intros ([|c' a] & b & Hs & Ha & Hb).
      * right. simpl in Ha. rewrite Ha. change ("" +:+ b) with b in Hs.
        by subst b.
      * left. rewrite append_cons in Hs. injection Hs as <- ->. by exists a, b.
Qed.

(** A matched string holds no character that every class of the regex
    rejects. *)
Lemma regex_match_no_char c r s :
  rejects c r = true → regex_match r s = true → string_contains c s = false.
Proof.
  revert r. induction s as [|c' s IH]; intros r Hr Hm; simpl in *; [done|].
  case_bool_decide as Hc; simpl.
  - subst c'. by rewrite void_no_match in Hm by by apply rejects_deriv_void.
  - eapply IH; [|done]. by apply rejects_deriv.
Qed.

Lemma long_name_group_spec g :
  regex_match long_name_group g = true
  ↔ ∃ c rest, g = String c rest ∧ name_start_char c = true
              ∧ rest ≠ "" ∧ string_forall name_char rest = true.
Proof.
  destruct g as [|c rest].
  - split; [done|]. by intros (? & ? & ? & _).
  - unfold long_name_group.
    rewrite regex_match_Class_cons, regex_match_Plus_Class, !andb_true_iff.
    split.
    + intros (Hc & Hrest & Hall). exists c, rest. split_and!; [done..| |done].
      by intros ->.
    + intros (c' & rest' & [= <- <-] & Hc & Hrest & Hall).
      split_and!; [done| |done]. by destruct rest.
Qed.

Lemma regex_match_group_complete pre grp a b :
  regex_match pre a = true → regex_match grp b = true →
  is_Some (regex_match_group pre grp (a +:+ b)).
Proof.
  revert pre. induction a as [|c a IH]; intros pre Ha Hb.
  - change ("" +:+ b) with b. simpl in Ha. destruct b as [|c b]; simpl in *.
    + rewrite Ha, Hb. eauto.
    + destruct (regex_match_group _ _ _); [eauto|]. rewrite Ha, Hb. eauto.
  - rewrite append_cons. simpl in *.
    destruct (IH _ Ha Hb) as [g ->]. eauto.
Qed.

(** The capture succeeds exactly when the whole pattern matches. *)
Lemma regex_match_group_is_Some pre grp s :
  is_Some (regex_match_group pre grp s) ↔ regex_match (Cat pre grp) s = true.
Proof.
  rewrite regex_match_Cat. split.
  - intros [g (a & -> & Ha & Hg)%regex_match_group_sound]. eauto.
  - intros (a & b & -> & Ha & Hb). by apply regex_match_group_complete.
Qed.

Lemma format_option_name_is_Some s :
  format_option_name s ≠ ""
  ↔ regex_match (Cat long_name_prefix long_name_group) (c_str s) = true.
Proof.
  rewrite <- regex_match_group_is_Some. unfold format_option_name.
  destruct (regex_match_group _ _ _) as [g|] eqn:Hg.
  - split; [eauto|]. intros _ ->.
    by apply regex_match_group_sound in Hg as (a & _ & _ & Hgrp).
  - split; [done|]. by intros ?%is_Some_None.
Qed.

Lemma format_flag_name_is_Some s :
  format_flag_name s ≠ ""
  ↔ regex_match (Cat flag_name_prefix flag_name_group) (c_str s) = true.
Proof.
  rewrite <- regex_match_group_is_Some. unfold format_flag_name.
  destruct (regex_match_group _ _ _) as [g|] eqn:Hg.
  - split; [eauto|]. intros _ ->.
    by apply regex_match_group_sound in Hg as (a & _ & _ & Hgrp).
  - split; [done|]. by intros ?%is_Some_None.
Qed.

Lemma regex_match_Class P s :
  regex_match (Class P) s = true ↔ ∃ c, s = String c "" ∧ P c = true.
Proof.
  destruct s as [|c [|c' s]]; simpl.
  - split; [done|]. by intros (? & ? & _).
  - destruct (P c) eqn:Hc; simpl.
    + split; eauto.
    + split; [done|]. intros (? & [= <-] & ?). congruence.
  - split; [|by intros (? & ? & _)].
    destruct (P c); simpl; by rewrite void_no_match.
Qed.

Lemma format_option_name_strips_dashes_aux s :
  format_option_name s ≠ "" →
  regex_match long_name_group (format_option_name s) = true
  ∧ (c_str s = "-" +:+ format_option_name s
     ∨ c_str s = "--" +:+ format_option_name s).
Proof.
  intros Hs. unfold format_option_name in *.
  destruct (regex_match_group _ _ _) as [g|] eqn:Hg; [|done].
  apply regex_match_group_sound in Hg as (a & -> & Ha & Hgrp).
  split; [done|]. by apply long_name_prefix_inv in Ha as [-> | ->]; [left|right].
Qed.

Lemma format_flag_name_exact s :
  format_flag_name s ≠ "" →
  ∃ c, c_str s = String "-" (String c "")
       ∧ name_start_char c = true
       ∧ format_flag_name s = String c "".
Proof.
  intros Hs. unfold format_flag_name in *.
  destruct (regex_match_group _ _ _) as [g|] eqn:Hg; [|done].
  apply regex_match_group_sound in Hg as (a & Hsplit & Ha & Hgrp).
  apply regex_match_Class in Ha as (d & -> & Hd).
  apply regex_match_Class in Hgrp as (c' & -> & Hc').
  apply bool_decide_eq_true in Hd as ->. exists c'. by split_and!.
Qed.

(** X1: [format_option_name] accepts exactly a name with one or two leading
    dashes and returns the name: for every [n] of the form
    [[a-zA-Z_][a-zA-Z0-9_-]+], ["-" n] and ["--" n] both format to [n], while
    [n] itself (no dash) is refused; and whenever the result is not empty,
    the argument (up to its first NUL) is the result behind one or two
    dashes. *)
Theorem format_option_name_strips_dashes (n : string) :
  regex_match long_name_group n = true →
  format_option_name ("--" +:+ n) = n
  ∧ format_option_name ("-" +:+ n) = n
  ∧ format_option_name n = ""
  ∧ n ≠ ""
  ∧ (∀ s, format_option_name s ≠ "" →
          regex_match long_name_group (format_option_name s) = true
          ∧ (c_str s = "-" +:+ format_option_name s
             ∨ c_str s = "--" +:+ format_option_name s)).
Proof.
  intros Hn.
  assert (∀ a, regex_match long_name_prefix a = true →
               format_option_name (a +:+ n) = n) as Hstrip.
  { intros a Ha. unfold format_option_name.
    rewrite (regex_match_c_str (Cat long_name_prefix long_name_group)).
    - by rewrite format_option_name_capture.
    - done.
    - apply regex_match_Cat. eauto. }
  split_and!.
  - by apply (Hstrip "--").
  - by apply (Hstrip "-").
  - unfold format_option_name.
    rewrite (regex_match_c_str long_name_group) by done.
    apply long_name_group_spec in Hn as (c & rest & -> & Hc & _).
    apply name_start_char_not_dash in Hc. simpl.
    rewrite regex_match_group_void; [done|]. simpl. by rewrite Hc.
  - by intros ->.
  - apply format_option_name_strips_dashes_aux.
Qed.

Lemma format_option_name_strips_dashes_witness :
  format_option_name "--dry-run" = "dry-run"
  ∧ format_option_name "-dry-run" = "dry-run"
  ∧ format_option_name "dry-run" = "".
Proof.
  destruct (format_option_name_strips_dashes "dry-run" eq_refl)
    as (H2 & H1 & H0 & _).
  exact (conj H2 (conj H1 H0)).
Defined.

(** X2: [format_flag_name] accepts exactly a dash followed by one letter or
    underscore, and returns that character: ["-c"] formats to ["c"], and
    whenever the result is not empty the argument (up to its first NUL) is
    a dash and the one character returned. *)
Theorem format_flag_name_single_character (c : ascii) :
  name_start_char c = true →
  format_flag_name (String "-" (String c "")) = String c ""
  ∧ (∀ rest, rest ≠ "" → c_str rest = rest →
             format_flag_name (String "-" (String c rest)) = "")
  ∧ (∀ s, format_flag_name s ≠ "" →
          ∃ c', c_str s = String "-" (String c' "")
                ∧ name_start_char c' = true
                ∧ format_flag_name s = String c' "").
Proof.
  intros Hc.
  assert (c ≠ NUL) as Hnul by (by intros ->).
  pose proof format_flag_name_exact as Hexact.
  split_and!; [|intros rest Hrest Hstr|done].
  - unfold format_flag_name. simpl. rewrite !bool_decide_false by done. simpl.
    by rewrite Hc.
  - destruct (decide (format_flag_name (String "-" (String c rest)) = ""))
      as [|Hne]; [done|].
    apply Hexact in Hne as (c' & Hs & _). simpl in Hs.
    rewrite !bool_decide_false in Hs by done. rewrite Hstr in Hs.
    by simplify_eq.
Qed.

Lemma format_flag_name_single_character_witness :
  format_flag_name "-v" = "v" ∧ format_flag_name "-vv" = "".
Proof.
  destruct (format_flag_name_single_character "v" eq_refl) as (Hv & Hvv & _).
  exact (conj Hv (Hvv "v" ltac:(discriminate) eq_refl)).
Defined.

Lemma option_like_iff_formats_aux (s : string) :
  valid_option_name s = true
  ↔ format_flag_name s ≠ "" ∨ format_option_name s ≠ "".
Proof.
  rewrite format_flag_name_is_Some, format_option_name_is_Some.
  unfold valid_option_name, option_name_regex, long_name_prefix, flag_name_prefix,
    flag_name_group.
  generalize (c_str s). intros t. rewrite !regex_match_Cat. split.
  - intros (a & b & -> & Ha & Hb). rewrite regex_match_Alt in Hb.
    apply orb_true_iff in Hb as [Hb|Hb].
    + left. eauto.
    + right. apply regex_match_Cat in Hb as (b1 & b2 & -> & Hb1 & Hb2).
      exists (a +:+ b1), b2. rewrite append_assoc. split_and!; [done| |done].
      apply regex_match_Cat. eauto.
  - intros [(a & b & -> & Ha & Hb)|(a & b & -> & Ha & Hb)].
    + exists a, b. rewrite regex_match_Alt, Hb. done.
    + apply regex_match_Cat in Ha as (a1 & a2 & -> & Ha1 & Ha2).
      exists a1, (a2 +:+ b). rewrite append_assoc, regex_match_Alt.
      split_and!; [done..|]. apply orb_true_iff. right.
      apply regex_match_Cat. eauto.
Qed.

(** A token cannot be both a flag name and a long name. *)
Lemma format_flag_name_not_long s :
  format_flag_name s ≠ "" → format_option_name s = "".
Proof.
  intros Hflag.
  destruct (decide (format_option_name s = "")) as [|Hlong]; [done|].
  apply format_flag_name_exact in Hflag as (c & Hs & Hc & _).
  destruct (format_option_name_strips_dashes_aux s Hlong) as [Hgroup Hdashes].
  apply long_name_group_spec in Hgroup as (c' & rest & Hname & Hc' & Hrest & _).
  rewrite Hname, Hs in Hdashes.
  destruct Hdashes as [Hdash|Hdash];
    cbv beta iota delta [String.append] in Hdash; by simplify_eq.
Qed.

(** X3: a token is option-like for the scanner exactly when it formats as
    a flag name or as a long name (and it cannot format as both), so for an
    option-like token [lookup_formatted_option_name] never yields an empty
    long name. *)
Theorem option_like_iff_formats (s : string) :
  (valid_option_name s = true
   ↔ format_flag_name s ≠ "" ∨ format_option_name s ≠ "")
  ∧ ¬ (format_flag_name s ≠ "" ∧ format_option_name s ≠ "").
Proof.
  split; [apply option_like_iff_formats_aux|].
  intros [Hflag Hlong]. by apply Hlong, format_flag_name_not_long.
Qed.

(** ** Declaring optional arguments *)


(** X4: the contract of [add_optional] (long name only).  It fails exactly
    when the long name does not format, or the reference name is already an
    optional or a positional name; a failure is a ConflictError and leaves
    the registry unchanged.  Otherwise it returns the reference name and
    registers it last in the optional order, with the given type and help
    text, no flag character and no value; nothing else changes. *)
Theorem add_optional_contract p long_name type help_text :
  let name := format_option_name long_name in
  let result := add_optional p long_name type help_text in
  ((∃ e, result.1 = Throw e)
   ↔ name = ""
     ∨ is_Some (m_optional_args p !! name)
     ∨ is_Some (m_positional_args p !! name))
  ∧ (∀ e, result.1 = Throw e →
          error_kind e = Some ConflictError ∧ result.2 = p)
  ∧ ((∃ e, result.1 = Throw e)
     ∨ result
       = (Ret name,
          {| m_scriptname := m_scriptname p;
             m_positional_order := m_positional_order p;
             m_positional_args := m_positional_args p;
             m_optional_order := m_optional_order p ++ [name];
             m_optional_args :=
               <[name := mk_Optional_Info " " type [] help_text]>
                 (m_optional_args p);
             m_flags := m_flags p |})).
Proof.
  intros name result. subst name result. unfold add_optional.
  destruct (format_option_name long_name) as [|c name] eqn:Hname; simpl.
  { split_and!; [split; eauto|by intros e [= <-]|eauto]. }
  destruct (decide (is_Some (m_optional_args p !! String c name))); simpl.
  { split_and!; [split; eauto|by intros e [= <-]|eauto]. }
  destruct (decide (is_Some (m_positional_args p !! String c name))); simpl.
  { split_and!; [split; eauto|by intros e [= <-]|eauto]. }
  split_and!; [|done|by right].
  split; [by intros [e ?]|]. by intros [?|[?|?]].
Qed.

Lemma add_optional_fails_iff p long_name type help_text :
  (∃ e, (add_optional p long_name type help_text).1 = Throw e)
  ↔ format_option_name long_name = ""
    ∨ is_Some (m_optional_args p !! format_option_name long_name)
    ∨ is_Some (m_positional_args p !! format_option_name long_name).
Proof.
  unfold add_optional.
  destruct (format_option_name long_name) as [|c name] eqn:Hname; simpl.
  { split; eauto. }
  destruct (decide (is_Some (m_optional_args p !! String c name))); simpl.
  { split; eauto. }
  destruct (decide (is_Some (m_positional_args p !! String c name))); simpl.
  { split; eauto. }
  split; [by intros [e ?]|]. by intros [?|[?|?]].
Qed.

Lemma add_optional_outcome p long_name type help_text :
  (∃ e, add_optional p long_name type help_text = (Throw e, p)
        ∧ error_kind e = Some ConflictError)
  ∨ (m_optional_args p !! format_option_name long_name = None
     ∧ m_positional_args p !! format_option_name long_name = None
     ∧ format_option_name long_name ≠ ""
     ∧ add_optional p long_name type help_text
       = (Ret (format_option_name long_name),
          {| m_scriptname := m_scriptname p;
             m_positional_order := m_positional_order p;
             m_positional_args := m_positional_args p;
             m_optional_order :=
               m_optional_order p ++ [format_option_name long_name];
             m_optional_args :=
               <[format_option_name long_name :=
                   mk_Optional_Info " " type [] help_text]>
                 (m_optional_args p);
             m_flags := m_flags p |})).
Proof.
  unfold add_optional.
  destruct (format_option_name long_name) as [|c name] eqn:Hname; simpl.
  { left. eauto. }
  destruct (decide (is_Some (m_optional_args p !! String c name)))
    as [|Hoptional]; simpl.
  { left. eauto. }
  destruct (decide (is_Some (m_positional_args p !! String c name)))
    as [|Hpositional]; simpl.
  { left. eauto. }
  right. by split_and!; [apply eq_None_not_Some..| |].
Qed.

Lemma add_optional_flag_outcome p flag long_name type help_text :
  let c := string_front (format_flag_name flag) in
  let name := format_option_name long_name in
  (∃ e, add_optional_flag p flag long_name type help_text = (Throw e, p)
        ∧ error_kind e = Some ConflictError
        ∧ (format_flag_name flag = ""
           ∨ is_Some (m_flags p !! c)
           ∨ name = ""
           ∨ is_Some (m_optional_args p !! name)
           ∨ is_Some (m_positional_args p !! name)))
  ∨ (format_flag_name flag ≠ ""
     ∧ m_flags p !! c = None
     ∧ name ≠ ""
     ∧ m_optional_args p !! name = None
     ∧ m_positional_args p !! name = None
     ∧ add_optional_flag p flag long_name type help_text
       = (Ret name,
          {| m_scriptname := m_scriptname p;
             m_positional_order := m_positional_order p;
             m_positional_args := m_positional_args p;
             m_optional_order := m_optional_order p ++ [name];
             m_optional_args :=
               <[name := mk_Optional_Info c type [] help_text]>
                 (m_optional_args p);
             m_flags := <[c := name]> (m_flags p) |})).
Proof.
  intros c name. subst c name. unfold add_optional_flag.
  destruct (format_flag_name flag) as [|c rest] eqn:Hflag; simpl.
  { left. eauto 10. }
  destruct (decide (is_Some (m_flags p !! c))) as [|Hfresh]; simpl.
  { left. eauto 10. }
  destruct (add_optional_outcome p long_name type help_text)
    as [(e & Hadd & He)|(Hoptional & Hpositional & Hname & ->)].
  - left. exists e. rewrite Hadd. split_and!; [done..|].
    destruct (add_optional_fails_iff p long_name type help_text) as [Hfails _].
    destruct Hfails as [?|[?|?]]; [|by auto..].
    exists e. by rewrite Hadd.
  - right. split_and!; [done|by apply eq_None_not_Some|done..|].
    simpl. f_equal. f_equal. unfold optional_at.
    by rewrite lookup_insert_eq, insert_insert_eq.
Qed.

(** X5: the contract of [add_optional] with a flag.  It fails exactly when
    the flag does not format, the flag character is already bound, or the
    long name is refused (does not format, or its reference name is already
    an optional or positional name); a failure is a ConflictError and leaves
    the registry unchanged, flag index included.  Otherwise it returns the
    reference name, binds the flag character to it and registers the
    argument with that flag character and no value. *)
Theorem add_optional_flag_contract p flag long_name type help_text :
  let c := string_front (format_flag_name flag) in
  let name := format_option_name long_name in
  let result := add_optional_flag p flag long_name type help_text in
  ((∃ e, result.1 = Throw e)
   ↔ format_flag_name flag = ""
     ∨ is_Some (m_flags p !! c)
     ∨ name = ""
     ∨ is_Some (m_optional_args p !! name)
     ∨ is_Some (m_positional_args p !! name))
  ∧ (∀ e, result.1 = Throw e →
          error_kind e = Some ConflictError ∧ result.2 = p)
  ∧ ((∃ e, result.1 = Throw e)
     ∨ result
       = (Ret name,
          {| m_scriptname := m_scriptname p;
             m_positional_order := m_positional_order p;
             m_positional_args := m_positional_args p;
             m_optional_order := m_optional_order p ++ [name];
             m_optional_args :=
               <[name := mk_Optional_Info c type [] help_text]>
                 (m_optional_args p);
             m_flags := <[c := name]> (m_flags p) |})).
Proof.
  intros c name result. subst c name result.
  destruct (add_optional_flag_outcome p flag long_name type help_text)
    as [(e & -> & He & Hwhy)
       |(Hflag & Hfresh & Hname & Hoptional & Hpositional & ->)]; simpl.
  - split_and!; [split; eauto|by intros ? [= <-]|eauto].
  - split_and!; [|done|by right].
    split; [by intros [e ?]|].
    rewrite Hfresh, Hoptional, Hpositional.
    intros [?|[?%is_Some_None|[?|[?%is_Some_None|?%is_Some_None]]]]; done.
Qed.

(** X6: a flag and its long name are two surface forms of one declaration:
    after a successful [add_optional] with a flag, both tokens are
    option-like, both resolve to the reference name returned, and
    [parse_optional_arg] returns the same result for either of them. *)
Theorem flag_and_long_name_resolve_alike p flag_token long_name type help_text
    name p' :
  add_optional_flag p flag_token long_name type help_text = (Ret name, p') →
  valid_option_name flag_token = true
  ∧ valid_option_name long_name = true
  ∧ lookup_formatted_option_name p' flag_token = Ret name
  ∧ lookup_formatted_option_name p' long_name = Ret name
  ∧ (∃ info, m_optional_args p' !! name = Some info
             ∧ String (flag info) "" = format_flag_name flag_token)
  ∧ (∀ optional_args argi argc argv result,
        parse_optional_arg p' optional_args flag_token argi argc argv = Ret result
        ↔ parse_optional_arg p' optional_args long_name argi argc argv
          = Ret result).
Proof.
  intros Hadd.
  destruct (add_optional_flag_outcome p flag_token long_name type help_text)
    as [(e & Hthrow & _)|(Hflag & _ & Hname & _ & _ & Hret)];
    [congruence|].
  rewrite Hret in Hadd. injection Hadd as Hn Hp.
  assert (m_flags p' !! string_front (format_flag_name flag_token) = Some name)
    as Hflags.
  { rewrite <- Hp, <- Hn. simpl. by rewrite lookup_insert_eq. }
  assert (∃ info, m_optional_args p' !! name = Some info
                  ∧ String (flag info) "" = format_flag_name flag_token)
    as Hinfo.
  { rewrite <- Hp, <- Hn. simpl. rewrite lookup_insert_eq. eexists.
    split; [done|]. simpl.
    by apply format_flag_name_exact in Hflag as (c & _ & _ & ->). }
  clear Hp Hret.
  assert (lookup_formatted_option_name p' flag_token = Ret name) as Hlookup_flag.
  { unfold lookup_formatted_option_name.
    destruct (format_flag_name flag_token); [done|]. simpl in *.
    by rewrite Hflags. }
  assert (lookup_formatted_option_name p' long_name = Ret name) as Hlookup_long.
  { unfold lookup_formatted_option_name.
    destruct (format_flag_name long_name) eqn:Hlong; [by rewrite Hn|].
    exfalso. apply Hname, format_flag_name_not_long. by rewrite Hlong. }
  split_and!; [by apply option_like_iff_formats_aux; left
              |by apply option_like_iff_formats_aux; right|done..|].
  intros optional_args argi argc argv result. unfold parse_optional_arg.
  rewrite Hlookup_flag, Hlookup_long. unfold_bind.
  repeat case_match; split; intros ?; by simplify_eq.
Qed.

Lemma flag_and_long_name_resolve_alike_witness :
  let p' := (add_optional_flag new_parser "-o" "--output" SINGLE "").2 in
  lookup_formatted_option_name p' "-o" = Ret "output"
  ∧ lookup_formatted_option_name p' "--output" = Ret "output".
Proof.
  destruct (flag_and_long_name_resolve_alike new_parser "-o" "--output" SINGLE ""
              "output" (add_optional_flag new_parser "-o" "--output" SINGLE "").2
              eq_refl)
    as (_ & _ & Hflag & Hlong & _).
  exact (conj Hflag Hlong).
Defined.

(** ** What a scan keeps *)

(** Whatever holds of the map of optional arguments and survives the two
    updates the scanner makes (a first ["true"] for a flag, a value that is
    not option-like for an option that may take one) holds after the
    loop. *)
Lemma parse_args_loop_preserves (I : gmap string Optional_Info → Prop)
    fuel p optional_args positional_args argi argc argv optional_args'
    positional_args' :
  (∀ optional_args name info v,
      I optional_args →
      optional_args !! name = Some info →
      (type info = FLAG ∧ values info = [] ∧ v = "true")
      ∨ (type info ≠ FLAG ∧ valid_option_name v = false
         ∧ (type info = APPEND ∨ values info = [])) →
      I (<[name := push_value v info]> optional_args)) →
  I optional_args →
  parse_args_loop fuel p optional_args positional_args argi argc argv
  = Ret (optional_args', positional_args') →
  I optional_args'.
Proof.
  intros Hstep. revert optional_args positional_args argi.
  induction fuel as [|fuel IH]; intros optional_args positional_args argi HI;
    simpl.
  - case_decide; [done|]. by intros [= <- <-].
  - case_decide; [|by intros [= <- <-]].
    destruct (argv !! Z.to_nat argi) as [token|]; [|done].
    destruct (valid_option_name token); [|by apply IH].
    unfold_bind.
    destruct (parse_optional_arg p optional_args token argi argc argv)
      as [[optional_args1 argi1]| | | |] eqn:Hparse; [|done..].
    apply IH.
    apply parse_optional_arg_Ret in Hparse
      as (name & info & _ & _ & Hinfo
          & [(Hflag & Hvalues & _ & ->)|(Hflag & _ & _ & v & _ & Hv & Honce & ->)]);
      eapply Hstep; eauto 10.
Qed.

Lemma parse_args_loop_declarations fuel p optional_args positional_args argi argc
    argv optional_args' positional_args' :
  parse_args_loop fuel p optional_args positional_args argi argc argv
  = Ret (optional_args', positional_args') →
  ∀ name, declaration <$> (optional_args' !! name)
          = declaration <$> (optional_args !! name).
Proof.
  apply (parse_args_loop_preserves
           (λ m, ∀ name, declaration <$> (m !! name)
                         = declaration <$> (optional_args !! name))); [|done].
  intros m name info v Hm Hinfo _ n. destruct (decide (name = n)) as [<-|Hne].
  - by rewrite lookup_insert_eq, <- Hm, Hinfo.
  - by rewrite lookup_insert_ne.
Qed.

(** Values are only appended. *)
Lemma parse_args_loop_grows fuel p optional_args positional_args argi argc
    argv optional_args' positional_args' :
  parse_args_loop fuel p optional_args positional_args argi argc argv
  = Ret (optional_args', positional_args') →
  ∀ name info, optional_args !! name = Some info →
               ∃ info', optional_args' !! name = Some info'
                        ∧ values info `prefix_of` values info'.
Proof.
  apply (parse_args_loop_preserves
           (λ m, ∀ name info, optional_args !! name = Some info →
                              ∃ info', m !! name = Some info'
                                       ∧ values info `prefix_of` values info')).
  - intros m name info v Hm Hinfo _ n info0 Hn.
    destruct (Hm n info0 Hn) as (info' & Hinfo' & Hprefix).
    destruct (decide (name = n)) as [<-|Hne].
    + rewrite lookup_insert_eq. eexists. split; [done|]. simpl.
      simplify_eq. by apply prefix_app_r.
    + rewrite lookup_insert_ne by done. eauto.
  - eauto.
Qed.

Lemma values_ok_push info v :
  values_ok info →
  (type info = FLAG ∧ values info = [] ∧ v = "true")
  ∨ (type info ≠ FLAG ∧ valid_option_name v = false
     ∧ (type info = APPEND ∨ values info = [])) →
  values_ok (push_value v info).
Proof.
  unfold values_ok. simpl.
  intros Hok [(Hflag & Hvalues & ->)|(Hflag & Hv & Honce)].
  - rewrite Hflag, Hvalues. by right.
  - destruct (type info); [done|..].
    + destruct Honce as [|Hvalues]; [done|]. rewrite Hvalues. simpl.
      split; [lia|]. by constructor.
    + apply Forall_app. split; [done|]. by constructor.
Qed.

Lemma parse_args_loop_values_ok fuel p optional_args positional_args argi argc
    argv optional_args' positional_args' :
  (∀ name info, optional_args !! name = Some info → values_ok info) →
  parse_args_loop fuel p optional_args positional_args argi argc argv
  = Ret (optional_args', positional_args') →
  ∀ name info, optional_args' !! name = Some info → values_ok info.
Proof.
  apply (parse_args_loop_preserves
           (λ m, ∀ name info, m !! name = Some info → values_ok info)).
  intros m name info v Hm Hinfo Hpush n info' Hn.
  destruct (decide (name = n)) as [<-|Hne].
  - rewrite lookup_insert_eq in Hn. injection Hn as <-.
    apply values_ok_push; eauto.
  - rewrite lookup_insert_ne in Hn by done. eauto.
Qed.

Lemma positional_candidates_not_option_like p skip tokens :
  Forall (λ token, valid_option_name token = false)
    (positional_candidates p skip tokens).
Proof.
  revert skip. induction tokens as [|token tokens IH]; intros skip; simpl;
    [constructor|].
  destruct skip; [done|].
  destruct (valid_option_name token) eqn:Hvalid; [done|]. by constructor.
Qed.

Lemma assign_positionals_not_option_like order positional_args args :
  Forall (λ token, valid_option_name token = false) positional_args →
  (∀ name pinfo, args !! name = Some pinfo →
                 valid_option_name (value pinfo) = false) →
  ∀ name pinfo,
    assign_positionals order positional_args args !! name = Some pinfo →
    valid_option_name (value pinfo) = false.
Proof.
  intros Hcands Hargs. induction order as [|x order IH] using rev_ind; [done|].
  rewrite assign_positionals_snoc.
  destruct (positional_args !! length order) as [v|] eqn:Hv; [|done].
  intros name pinfo. destruct (decide (x = name)) as [->|Hne].
  - rewrite lookup_insert_eq. intros [= <-]. simpl.
    eapply Forall_lookup_1 in Hcands; [|done]. done.
  - rewrite lookup_insert_ne by done. apply IH.
Qed.

Lemma declaration_lookup (a b : gmap string Optional_Info) name info :
  (∀ n, declaration <$> (a !! n) = declaration <$> (b !! n)) →
  b !! name = Some info →
  ∃ info', a !! name = Some info' ∧ flag info' = flag info
           ∧ type info' = type info ∧ help_text info' = help_text info.
Proof.
  intros Hsame Hinfo. specialize (Hsame name). rewrite Hinfo in Hsame.
  destruct (a !! name) as [info'|]; [|done].
  injection Hsame as Hflag Htype Hhelp. eauto.
Qed.

(** A call of [parse_args] that does not return leaves the registry as it
    was, but for the program name. *)
Lemma parse_args_not_Ret p argc argv :
  (parse_args p argc argv).1 ≠ Ret () →
  (parse_args p argc argv).2.1.1 = p
  ∨ ∃ scriptname, (parse_args p argc argv).2.1.1 = set_scriptname scriptname p.
Proof.
  unfold parse_args. destruct (argv !! 0%nat) as [scriptname|]; [|by left].
  case_decide; [by right; eauto|].
  destruct (parse_args_loop _ _ _ _ _ _ _) as [[optional_args positional_args]| | | |];
    simpl; [|by right; eauto..].
  case_decide; simpl; [by right; eauto|done].
Qed.

Lemma add_positional_outcome p name help_text :
  (∃ e, add_positional p name help_text = (Throw e, p))
  ∨ (valid_positional_name name = true
     ∧ m_positional_args p !! name = None
     ∧ m_optional_args p !! name = None
     ∧ add_positional p name help_text
       = (Ret (),
          {| m_scriptname := m_scriptname p;
             m_positional_order := m_positional_order p ++ [name];
             m_positional_args :=
               <[name := mk_Positional_Info "" help_text]> (m_positional_args p);
             m_optional_order := m_optional_order p;
             m_optional_args := m_optional_args p;
             m_flags := m_flags p |})).
Proof.
  unfold add_positional.
  destruct (valid_positional_name name); simpl; [|by left; eauto].
  destruct (decide (is_Some (m_positional_args p !! name))) as [|Hpositional];
    [by left; eauto|].
  destruct (decide (is_Some (m_optional_args p !! name))) as [|Hoptional];
    [by left; eauto|].
  right. by split_and!; [|apply eq_None_not_Some..|].
Qed.

Lemma new_parser_optional_invariant : optional_invariant new_parser.
Proof.
  rewrite new_parser_unfold. unfold optional_invariant. simpl. split_and!.
  - apply NoDup_singleton.
  - intros name. rewrite list_elem_of_singleton. split.
    + intros ->. by rewrite lookup_singleton_eq.
    + by intros [info [-> _]%lookup_singleton_Some].
  - intros c name [-> ->]%lookup_singleton_Some.
    rewrite lookup_singleton_eq. eauto.
  - by intros name info [-> <-]%lookup_singleton_Some _.
  - by intros name [info [<- _]%lookup_singleton_Some].
  - by intros name ?%elem_of_nil.
  - done.
  - rewrite lookup_singleton_eq. eauto.
Qed.

Lemma add_positional_optional_invariant p name help_text :
  optional_invariant p → optional_invariant (add_positional p name help_text).2.
Proof.
  intros Hinv.
  destruct (add_positional_outcome p name help_text)
    as [[e ->]|(Hvalid & _ & _ & ->)]; [done|].
  destruct Hinv as (? & ? & ? & ? & ? & Hnames & ? & ?).
  split_and!; simpl; try done.
  intros x [?| ->%list_elem_of_singleton]%elem_of_app; auto.
Qed.

(** Registering a fresh optional argument keeps the invariant, with or
    without a flag character. *)
Lemma register_optional_invariant p name info flags' :
  optional_invariant p →
  m_optional_args p !! name = None →
  regex_match long_name_group name = true →
  (flag info = " "%char ∧ flags' = m_flags p
   ∨ flag info ≠ " "%char ∧ m_flags p !! flag info = None
     ∧ flags' = <[flag info := name]> (m_flags p)) →
  optional_invariant
    {| m_scriptname := m_scriptname p;
       m_positional_order := m_positional_order p;
       m_positional_args := m_positional_args p;
       m_optional_order := m_optional_order p ++ [name];
       m_optional_args := <[name := info]> (m_optional_args p);
       m_flags := flags' |}.
Proof.
  intros (Hnodup & Hdom & Hflags & Hback & Hnames & Hpositional & Hh & Hhelp)
    Hfresh Hname Hflag.
  assert (∀ c n, flags' !! c = Some n →
                 (c = flag info ∧ n = name ∧ flag info ≠ " "%char)
                 ∨ (m_flags p !! c = Some n ∧ n ≠ name)) as Hflags'.
  { intros c n Hc. destruct Hflag as [[_ ->]|(Hne & Hnone & ->)].
    - right. split; [done|]. intros ->.
      apply Hflags in Hc as (? & ? & _). congruence.
    - destruct (decide (flag info = c)) as [<-|Hother].
      + rewrite lookup_insert_eq in Hc. left. by simplify_eq.
      + rewrite lookup_insert_ne in Hc by done. right. split; [done|].
        intros ->. apply Hflags in Hc as (? & ? & _). congruence. }
  assert (name ≠ "help") as Hnothelp.
  { intros ->. destruct Hhelp as (? & ? & _). congruence. }
  unfold optional_invariant. simpl. split_and!.
  - apply NoDup_app. split_and!; [done| |apply NoDup_singleton].
    intros x Hx ->%list_elem_of_singleton.
    apply Hdom in Hx as [? ?]. congruence.
  - intros x. rewrite elem_of_app, list_elem_of_singleton, Hdom.
    destruct (decide (name = x)) as [->|Hne].
    + rewrite lookup_insert_eq. split; eauto.
    + rewrite lookup_insert_ne by done. split; [|by left]. by intros [?|?].
  - intros c n [(-> & -> & _)|[Hc Hne]]%Hflags'.
    + rewrite lookup_insert_eq. eauto.
    + rewrite lookup_insert_ne by done. by apply Hflags.
  - intros n info'. destruct (decide (name = n)) as [<-|Hne].
    + rewrite lookup_insert_eq. intros [= <-] Hspace.
      destruct Hflag as [[? _]|(_ & _ & ->)]; [done|].
      by rewrite lookup_insert_eq.
    + rewrite lookup_insert_ne by done. intros Hn Hspace.
      pose proof (Hback _ _ Hn Hspace) as Hc.
      destruct Hflag as [[_ ->]|(_ & Hnone & ->)]; [done|].
      rewrite lookup_insert_ne; [done|]. intros Heq. congruence.
  - intros n. destruct (decide (name = n)) as [<-|Hne]; [done|].
    rewrite lookup_insert_ne by done. apply Hnames.
  - done.
  - destruct Hflag as [[_ ->]|(_ & Hnone & ->)]; [done|].
    rewrite lookup_insert_ne; [done|]. intros Heq. congruence.
  - rewrite lookup_insert_ne by done. done.
Qed.

Lemma add_optional_optional_invariant p long_name type help_text :
  optional_invariant p →
  optional_invariant (add_optional p long_name type help_text).2.
Proof.
  intros Hinv.
  destruct (add_optional_outcome p long_name type help_text)
    as [(e & -> & _)|(Hfresh & _ & Hname & ->)]; [done|].
  apply register_optional_invariant; [done..| |by left].
  by apply format_option_name_strips_dashes_aux.
Qed.

Lemma add_optional_flag_optional_invariant p flag_token long_name type help_text :
  optional_invariant p →
  optional_invariant (add_optional_flag p flag_token long_name type help_text).2.
Proof.
  intros Hinv.
  destruct (add_optional_flag_outcome p flag_token long_name type help_text)
    as [(e & -> & _)|(Hflag & Hfresh & Hname & Hoptional & _ & ->)]; [done|].
  apply register_optional_invariant; [done..| |].
  - by apply format_option_name_strips_dashes_aux.
  - right. simpl. split_and!; [|done..].
    apply format_flag_name_exact in Hflag as (c & _ & Hc & ->). simpl.
    by intros ->.
Qed.

Lemma parse_args_optional_invariant p argc argv :
  optional_invariant p → optional_invariant (parse_args p argc argv).2.1.1.
Proof.
  intros Hinv.
  pose proof (parse_args_not_Ret p argc argv) as Hnot.
  destruct (parse_args p argc argv) as [[[]| | | |] [[p' argc'] argv']] eqn:Hparse;
    simpl in *;
    [|by destruct Hnot as [->|[scriptname ->]]..].
  clear Hnot.
  apply parse_args_Ret in Hparse
    as (scriptname & optional_args & positional_args & _ & _ & Hloop & _ & -> & _).
  pose proof (parse_args_loop_declarations _ _ _ _ _ _ _ _ _ Hloop) as Hsame.
  destruct Hinv as (Hnodup & Hdom & Hflags & Hback & Hnames & Hpositional & Hh
                    & info & Hhelp & Htype & Hflag).
  assert (∀ name, is_Some (optional_args !! name)
                  ↔ is_Some (m_optional_args p !! name)) as Hsome.
  { intros name. by rewrite <- !(fmap_is_Some declaration), Hsame. }
  unfold optional_invariant. simpl. split_and!; [done| | | | |done..|].
  - intros name. by rewrite Hsome.
  - intros c name Hc. apply Hflags in Hc as (info0 & Hinfo0 & <-).
    destruct (declaration_lookup _ _ _ _ Hsame Hinfo0) as (? & ? & ? & _). eauto.
  - intros name info' Hinfo' Hspace.
    assert (∀ n, declaration <$> (m_optional_args p !! n)
                 = declaration <$> (optional_args !! n)) as Hsym by done.
    destruct (declaration_lookup _ _ _ _ Hsym Hinfo') as (info0 & ? & Heq & _).
    rewrite <- Heq in *. by apply Hback.
  - intros name. rewrite Hsome. apply Hnames.
  - destruct (declaration_lookup _ _ _ _ Hsame Hhelp) as (? & ? & ? & ? & _).
    eexists. split_and!; [done|congruence..].
Qed.

Lemma reachable_optional_invariant p : reachable p → optional_invariant p.
Proof.
  induction 1;
    auto using new_parser_optional_invariant, add_positional_optional_invariant,
      add_optional_optional_invariant, add_optional_flag_optional_invariant,
      parse_args_optional_invariant.
Qed.

Lemma values_ok_fresh c type help_text :
  values_ok (mk_Optional_Info c type [] help_text).
Proof. unfold values_ok. simpl. destruct type; auto. Qed.

Lemma new_parser_values_invariant : values_invariant new_parser.
Proof.
  rewrite new_parser_unfold. split; simpl.
  - intros name info [_ <-]%lookup_singleton_Some. apply values_ok_fresh.
  - by intros name pinfo.
Qed.

Lemma add_positional_values_invariant p name help_text :
  values_invariant p → values_invariant (add_positional p name help_text).2.
Proof.
  intros [Hoptional Hpositional].
  destruct (add_positional_outcome p name help_text)
    as [[e ->]|(_ & _ & _ & ->)]; [done|].
  split; simpl; [done|]. intros x pinfo.
  destruct (decide (name = x)) as [->|Hne].
  - rewrite lookup_insert_eq. by intros [= <-].
  - rewrite lookup_insert_ne by done. apply Hpositional.
Qed.

Lemma add_optional_values_invariant p long_name type help_text :
  values_invariant p →
  values_invariant (add_optional p long_name type help_text).2.
Proof.
  intros [Hoptional Hpositional].
  destruct (add_optional_outcome p long_name type help_text)
    as [(e & -> & _)|(_ & _ & _ & ->)]; [done|].
  split; simpl; [|done]. intros x info.
  destruct (decide (format_option_name long_name = x)) as [->|Hne].
  - rewrite lookup_insert_eq. intros [= <-]. apply values_ok_fresh.
  - rewrite lookup_insert_ne by done. apply Hoptional.
Qed.

Lemma add_optional_flag_values_invariant p flag_token long_name type help_text :
  values_invariant p →
  values_invariant (add_optional_flag p flag_token long_name type help_text).2.
Proof.
  intros [Hoptional Hpositional].
  destruct (add_optional_flag_outcome p flag_token long_name type help_text)
    as [(e & -> & _)|(_ & _ & _ & _ & _ & ->)]; [done|].
  split; simpl; [|done]. intros x info.
  destruct (decide (format_option_name long_name = x)) as [->|Hne].
  - rewrite lookup_insert_eq. intros [= <-]. apply values_ok_fresh.
  - rewrite lookup_insert_ne by done. apply Hoptional.
Qed.

Lemma parse_args_values_invariant p argc argv :
  values_invariant p → values_invariant (parse_args p argc argv).2.1.1.
Proof.
  intros Hinv.
  pose proof (parse_args_not_Ret p argc argv) as Hnot.
  destruct (parse_args p argc argv) as [[[]| | | |] [[p' argc'] argv']] eqn:Hparse;
    simpl in *;
    [|by destruct Hnot as [->|[scriptname ->]]..].
  clear Hnot.
  apply parse_args_Ret in Hparse
    as (scriptname & optional_args & positional_args & _ & Hargc & Hloop & _
        & -> & _).
  destruct Hinv as [Hoptional Hpositional]. split; simpl.
  - by eapply parse_args_loop_values_ok.
  - apply assign_positionals_not_option_like; [|done].
    apply parse_args_loop_candidates in Hloop as [-> _]; [|lia|done].
    apply positional_candidates_not_option_like.
Qed.

Lemma reachable_values_invariant p : reachable p → values_invariant p.
Proof.
  induction 1;
    auto using new_parser_values_invariant, add_positional_values_invariant,
      add_optional_values_invariant, add_optional_flag_values_invariant,
      parse_args_values_invariant.
Qed.

(** X7: every registry a program can build, by any sequence of
    declarations and scans, failed ones included, is consistent: positional
    names are distinct, valid, and the keys of the positional records; no
    name is both positional and optional; the optional order lists the keys
    of the optional map once each; every bound flag character belongs to
    the optional argument that carries it (so no two share one); reference
    names have the form of a long name; and [help] stays registered as a
    FLAG under [h]. *)
Theorem reachable_registry_consistent p :
  reachable p → registry_invariant p ∧ optional_invariant p.
Proof.
  intros Hreachable. split.
  - by apply reachable_invariant.
  - by apply reachable_optional_invariant.
Qed.

Lemma reachable_registry_consistent_witness :
  m_flags (add_optional_flag (add_positional new_parser "file" "").2
             "-o" "--output" SINGLE "").2 !! "h"%char = Some "help".
Proof.
  destruct (reachable_registry_consistent
              (add_optional_flag (add_positional new_parser "file" "").2
                 "-o" "--output" SINGLE "").2)
    as [_ (_ & _ & _ & _ & _ & _ & Hh & _)].
  - apply reachable_add_optional_flag, reachable_add_positional, reachable_new.
  - exact Hh.
Defined.

(** X8: in every registry a program can build, however many scans it has
    gone through, a FLAG holds no value or the single value ["true"], a
    SINGLE holds at most one value, and no recorded value of a SINGLE or
    APPEND argument and no positional value is option-like. *)
Theorem reachable_values_within_kind p :
  reachable p → values_invariant p.
Proof. apply reachable_values_invariant. Qed.

Lemma reachable_values_within_kind_witness :
  let p := (add_optional_flag new_parser "-v" "--verbose" FLAG "").2 in
  values_invariant (parse_args p 3 ["prog"; "-v"; "x"]).2.1.1.
Proof.
  apply reachable_values_within_kind.
  apply reachable_parse_args, reachable_add_optional_flag, reachable_new.
Defined.

(** X9: in every registry a program can build, extracting a declared FLAG
    as bool at index 0 never fails, ignores a fallback, and agrees with
    [has_arg]: true when the flag was given, false otherwise. *)
Theorem flag_extraction_agrees_with_has_arg p name info :
  reachable p →
  m_optional_args p !! name = Some info →
  type info = FLAG →
  ∃ b : bool,
    arg p name = Ret b
    ∧ (∀ fallback : bool, arg_default p name fallback = Ret b)
    ∧ has_arg p name = Ret b
    ∧ (b = true ↔ values info ≠ []).
Proof.
  intros [Hvalues _]%reachable_values_invariant Hinfo Hflag.
  pose proof (Hvalues _ _ Hinfo) as Hok. unfold values_ok in Hok.
  rewrite Hflag in Hok.
  unfold arg, arg_default, arg_at_index, arg_at_index_default, arg_at, has_arg,
    optional_arg.
  rewrite Hinfo. destruct Hok as [-> | ->]; simpl.
  - rewrite decide_True by done. exists false. by split_and!.
  - exists true. by split_and!.
Qed.

Lemma flag_extraction_agrees_with_has_arg_witness :
  let p := (add_optional_flag new_parser "-v" "--verbose" FLAG "").2 in
  ∃ b : bool, arg (parse_args p 2 ["prog"; "-v"]).2.1.1 "verbose" = Ret b.
Proof.
  edestruct (flag_extraction_agrees_with_has_arg
               (parse_args (add_optional_flag new_parser "-v" "--verbose" FLAG "").2
                  2 ["prog"; "-v"]).2.1.1
               "verbose" (mk_Optional_Info "v" FLAG ["true"] ""))
    as (b & Hb & _).
  - apply reachable_parse_args, reachable_add_optional_flag, reachable_new.
  - vm_compute. reflexivity.
  - reflexivity.
  - exists b. exact Hb.
Defined.

(** ** How a scan proceeds *)

(** Beyond the number of tokens left, fuel makes no difference. *)
Lemma parse_args_loop_fuel_irrelevant fuel1 fuel2 p optional_args positional_args
    argi argc argv :
  (Z.to_nat (argc - argi) ≤ fuel1)%nat →
  (Z.to_nat (argc - argi) ≤ fuel2)%nat →
  parse_args_loop fuel1 p optional_args positional_args argi argc argv
  = parse_args_loop fuel2 p optional_args positional_args argi argc argv.
Proof.
  revert fuel2 optional_args positional_args argi.
  induction fuel1 as [|fuel1 IH];
    intros fuel2 optional_args positional_args argi Hfuel1 Hfuel2.
  - rewrite !parse_args_loop_end by lia. done.
  - destruct (decide (argi < argc)) as [Hlt|Hge];
      [|by rewrite !parse_args_loop_end].
    destruct fuel2 as [|fuel2]; [lia|]. simpl.
    rewrite !decide_True by done.
    destruct (argv !! Z.to_nat argi) as [token|]; [|done].
    destruct (valid_option_name token); [|apply IH; lia].
    unfold_bind.
    destruct (parse_optional_arg p optional_args token argi argc argv)
      as [[optional_args1 argi1]| | | |] eqn:Hparse; try done.
    apply parse_optional_arg_Ret in Hparse
      as (name & info & _ & _ & _ & [(_ & _ & -> & _)|(_ & -> & _)]);
      apply IH; lia.
Qed.

(** An option parsed with its value inside a shorter vector is parsed the
    same way inside the whole vector. *)
Lemma parse_optional_arg_bound p optional_args option_name argi k argc argv result :
  argi < k → k ≤ argc →
  parse_optional_arg p optional_args option_name argi k argv = Ret result →
  parse_optional_arg p optional_args option_name argi argc argv = Ret result.
Proof.
  intros Hargi Hk. unfold parse_optional_arg. unfold_bind.
  destruct (lookup_formatted_option_name p option_name); try done.
  case_decide; [done|]. destruct (optional_args !! _); [|done].
  case_decide; [done|].
  destruct (decide (argi + 1 = k)); [done|].
  by rewrite decide_False by lia.
Qed.

(** Scanning composes: once the tokens before [k] have been scanned
    without error, the scan of the whole vector continues from [k] with
    what they recorded. *)
Lemma parse_args_loop_split fuel p optional_args positional_args argi k argc argv
    optional_args1 positional_args1 :
  argi ≤ k → k ≤ argc →
  (Z.to_nat (argc - argi) ≤ fuel)%nat →
  parse_args_loop fuel p optional_args positional_args argi k argv
  = Ret (optional_args1, positional_args1) →
  parse_args_loop fuel p optional_args positional_args argi argc argv
  = parse_args_loop fuel p optional_args1 positional_args1 k argc argv.
Proof.
  revert optional_args positional_args argi.
  induction fuel as [|fuel IH];
    intros optional_args positional_args argi Hargi Hk Hfuel.
  - rewrite parse_args_loop_end by lia. intros [= <- <-].
    by replace argi with k by lia.
  - destruct (decide (argi < k)) as [Hlt|Hge].
    2:{ rewrite parse_args_loop_end by done. intros [= <- <-].
        by replace argi with k by lia. }
    assert (∀ optional_args2 positional_args2,
               parse_args_loop fuel p optional_args2 positional_args2 k argc argv
               = parse_args_loop (S fuel) p optional_args2 positional_args2 k
                   argc argv) as Hmore.
    { intros. apply parse_args_loop_fuel_irrelevant; lia. }
    intros Hprefix. rewrite <- Hmore. revert Hprefix. simpl.
    rewrite !decide_True by (done || lia).
    destruct (argv !! Z.to_nat argi) as [token|]; [|done].
    destruct (valid_option_name token).
    + unfold_bind.
      destruct (parse_optional_arg p optional_args token argi k argv)
        as [[optional_args2 argi2]| | | |] eqn:Hparse; try done.
      rewrite (parse_optional_arg_bound _ _ _ _ _ argc _ _ Hlt Hk Hparse).
      apply parse_optional_arg_Ret in Hparse
        as (name & info & _ & _ & _ & [(_ & _ & -> & _)|(_ & -> & ? & _)]);
        apply IH; (done || lia).
    + apply IH; (done || lia).
Qed.

(** [parse_args], when the tokens before [k] scan without error and the
    option-like token at [k] makes [parse_optional_arg] throw or exit. *)
Lemma parse_args_decided_at p argc argv scriptname k optional_args positional_args
    token :
  argv !! 0%nat = Some scriptname →
  1 ≤ k → k < argc →
  parse_args_loop (Z.to_nat k) (set_scriptname scriptname p) (m_optional_args p)
    [] 1 k argv
  = Ret (optional_args, positional_args) →
  argv !! Z.to_nat k = Some token →
  valid_option_name token = true →
  (∀ e, parse_optional_arg (set_scriptname scriptname p) optional_args token k
          argc argv = Throw e →
        parse_args p argc argv
        = (Throw e, (set_scriptname scriptname p, argc, argv)))
  ∧ (∀ status, parse_optional_arg (set_scriptname scriptname p) optional_args
                 token k argc argv = Exit status →
               parse_args p argc argv
               = (Exit status, (set_scriptname scriptname p, argc, argv))).
Proof.
  intros Hscriptname Hk Hargc Hprefix Htoken Hvalid.
  assert (parse_args_loop (Z.to_nat argc) (set_scriptname scriptname p)
            (m_optional_args p) [] 1 argc argv
          = outcome_bind
              (parse_optional_arg (set_scriptname scriptname p) optional_args
                 token k argc argv)
              (λ '(optional_args, argi),
                 parse_args_loop (Z.to_nat argc - 1) (set_scriptname scriptname p)
                   optional_args positional_args (argi + 1) argc argv))
    as Hloop.
  { erewrite parse_args_loop_split; [|done|lia|lia|].
    2:{ erewrite parse_args_loop_fuel_irrelevant; [exact Hprefix|lia..]. }
    destruct (Z.to_nat argc) as [|fuel] eqn:Hfuel; [lia|]. simpl.
    rewrite decide_True, Htoken, Hvalid by done.
    by replace (fuel - 0)%nat with fuel by lia. }
  split.
  - intros e He. unfold parse_args. rewrite Hscriptname. cbv zeta.
    rewrite decide_False by lia.
    change (m_optional_args (set_scriptname scriptname p))
      with (m_optional_args p).
    by rewrite Hloop, He.
  - intros status He. unfold parse_args. rewrite Hscriptname. cbv zeta.
    rewrite decide_False by lia.
    change (m_optional_args (set_scriptname scriptname p))
      with (m_optional_args p).
    by rewrite Hloop, He.
Qed.

(** X10: asking for help ends the scan.  In every registry a program can
    build, when the tokens before some position scan without error and the
    token there is [-h], [--help] or [-help], [parse_args] prints the help
    and exits with status 0, whatever follows and however many positional
    arguments are missing; nothing is committed to the registry but the
    program name. *)
Theorem help_ends_the_scan p argc argv scriptname k optional_args
    positional_args token :
  reachable p →
  argv !! 0%nat = Some scriptname →
  1 ≤ k → k < argc →
  parse_args_loop (Z.to_nat k) (set_scriptname scriptname p) (m_optional_args p)
    [] 1 k argv
  = Ret (optional_args, positional_args) →
  argv !! Z.to_nat k = Some token →
  token ∈ ["-h"; "--help"; "-help"] →
  parse_args p argc argv
  = (Exit 0, (set_scriptname scriptname p, argc, argv)).
Proof.
  intros Hreachable Hscriptname Hk Hargc Hprefix Htoken Hhelp.
  apply reachable_optional_invariant in Hreachable
    as (_ & _ & _ & _ & _ & _ & Hh & _).
  assert (valid_option_name token = true
          ∧ lookup_formatted_option_name (set_scriptname scriptname p) token
            = Ret "help") as [Hvalid Hlookup].
  { rewrite !elem_of_cons in Hhelp.
    destruct Hhelp as [->|[->|[->|?%elem_of_nil]]]; [|done..].
    split; [done|]. unfold lookup_formatted_option_name. simpl.
    change (format_flag_name "-h") with "h". simpl. by rewrite Hh. }
  eapply parse_args_decided_at; [done..|].
  unfold parse_optional_arg. by rewrite Hlookup.
Qed.

Lemma help_ends_the_scan_witness :
  let p := (add_positional new_parser "file" "").2 in
  (parse_args p 4 ["prog"; "x"; "-h"; "--unknown"]).1 = Exit 0.
Proof.
  cbv zeta.
  rewrite (help_ends_the_scan (add_positional new_parser "file" "").2 4
             ["prog"; "x"; "-h"; "--unknown"] "prog" 2
             {["help" := mk_Optional_Info "h" FLAG [] ""]} ["x"] "-h").
  - reflexivity.
  - apply reachable_add_positional, reachable_new.
  - reflexivity.
  - lia.
  - lia.
  - vm_compute. reflexivity.
  - reflexivity.
  - apply list_elem_of_here.
Defined.

(** X11: an option-like token that names no declaration stops the scan
    with UnknownOptionError naming that token: when the tokens before it
    scan without error and it is either a flag whose character is not
    bound, or a long name, other than [help], that is not a reference
    name.  Nothing is committed but the program name. *)
Theorem unknown_option_is_reported p argc argv scriptname k optional_args
    positional_args token :
  argv !! 0%nat = Some scriptname →
  1 ≤ k → k < argc →
  parse_args_loop (Z.to_nat k) (set_scriptname scriptname p) (m_optional_args p)
    [] 1 k argv
  = Ret (optional_args, positional_args) →
  argv !! Z.to_nat k = Some token →
  valid_option_name token = true →
  (format_flag_name token ≠ ""
   ∧ m_flags p !! string_front (format_flag_name token) = None)
  ∨ (format_flag_name token = ""
     ∧ format_option_name token ≠ "help"
     ∧ m_optional_args p !! format_option_name token = None) →
  ∃ e, parse_args p argc argv
       = (Throw e, (set_scriptname scriptname p, argc, argv))
       ∧ (e = Invalid_flag token ∨ e = Invalid_option token)
       ∧ error_kind e = Some UnknownOptionError.
Proof.
  intros Hscriptname Hk Hargc Hprefix Htoken Hvalid Hunknown.
  destruct (parse_args_decided_at p argc argv scriptname k optional_args
              positional_args token) as [Hthrow _]; [done..|].
  pose proof (parse_args_loop_declarations _ _ _ _ _ _ _ _ _ Hprefix) as Hsame.
  destruct Hunknown as [[Hflag Hnone]|(Hflag & Hhelp & Hnone)].
  - exists (Invalid_flag token). split_and!; [|by left|done].
    apply Hthrow. unfold parse_optional_arg, lookup_formatted_option_name.
    destruct (format_flag_name token); [done|]. simpl in *. by rewrite Hnone.
  - exists (Invalid_option token). split_and!; [|by right|done].
    apply Hthrow. unfold parse_optional_arg, lookup_formatted_option_name.
    rewrite Hflag. simpl. unfold_bind. rewrite decide_False by done.
    specialize (Hsame (format_option_name token)). rewrite Hnone in Hsame.
    by destruct (optional_args !! format_option_name token).
Qed.

Lemma unknown_option_is_reported_witness :
  (parse_args new_parser 3 ["prog"; "--colour"; "red"]).1
  = Throw (Invalid_option "--colour").
Proof.
  edestruct (unknown_option_is_reported new_parser 3 ["prog"; "--colour"; "red"]
               "prog" 1 {["help" := mk_Optional_Info "h" FLAG [] ""]} []
               "--colour")
    as (e & Hparse & [->| ->] & _).
  - reflexivity.
  - lia.
  - lia.
  - reflexivity.
  - reflexivity.
  - reflexivity.
  - right. split_and!; [reflexivity|discriminate|reflexivity].
  - exfalso. vm_compute in Hparse. discriminate Hparse.
  - exact (f_equal fst Hparse).
Defined.

(** X12: an option that takes a value must be followed by a token that is
    not option-like: when the tokens before it scan without error and the
    token resolves to a SINGLE or APPEND argument, the scan fails with
    MissingValueError naming the token if it is the last token or if the
    next token is option-like (even [--help]). *)
Theorem missing_value_is_reported p argc argv scriptname k optional_args
    positional_args token name info :
  argv !! 0%nat = Some scriptname →
  1 ≤ k → k < argc →
  parse_args_loop (Z.to_nat k) (set_scriptname scriptname p) (m_optional_args p)
    [] 1 k argv
  = Ret (optional_args, positional_args) →
  argv !! Z.to_nat k = Some token →
  valid_option_name token = true →
  lookup_formatted_option_name p token = Ret name →
  name ≠ "help" →
  m_optional_args p !! name = Some info →
  type info ≠ FLAG →
  k + 1 = argc
  ∨ (∃ v, argv !! Z.to_nat (k + 1) = Some v ∧ valid_option_name v = true) →
  parse_args p argc argv
  = (Throw (Requires_value token), (set_scriptname scriptname p, argc, argv))
  ∧ error_kind (Requires_value token) = Some MissingValueError.
Proof.
  intros Hscriptname Hk Hargc Hprefix Htoken Hvalid Hlookup Hhelp Hinfo Htype
    Hnext.
  split; [|done].
  eapply parse_args_decided_at; [done..|].
  pose proof (parse_args_loop_declarations _ _ _ _ _ _ _ _ _ Hprefix) as Hsame.
  destruct (declaration_lookup _ _ _ _ Hsame Hinfo) as (info' & Hinfo' & _ & Heq & _).
  unfold parse_optional_arg.
  change (lookup_formatted_option_name (set_scriptname scriptname p) token)
    with (lookup_formatted_option_name p token).
  rewrite Hlookup. unfold_bind.
  rewrite decide_False, Hinfo' by done.
  rewrite decide_False by congruence.
  destruct Hnext as [->|(v & Hv & Hoption)].
  - by rewrite decide_True.
  - case_decide; [done|]. by rewrite Hv, Hoption.
Qed.

Lemma missing_value_is_reported_witness :
  let p := (add_optional_flag new_parser "-o" "--output" SINGLE "").2 in
  (parse_args p 3 ["prog"; "-o"; "--help"]).1 = Throw (Requires_value "-o").
Proof.
  edestruct (missing_value_is_reported
               (add_optional_flag new_parser "-o" "--output" SINGLE "").2
               3 ["prog"; "-o"; "--help"] "prog" 1)
    as [Hparse _].
  - reflexivity.
  - lia.
  - lia.
  - vm_compute. reflexivity.
  - reflexivity.
  - reflexivity.
  - vm_compute. reflexivity.
  - discriminate.
  - vm_compute. reflexivity.
  - discriminate.
  - right. exists "--help". split; reflexivity.
  - exact (f_equal fst Hparse).
Defined.

(** X13: a FLAG or SINGLE argument is accepted once.  When the tokens
    before a token scan without error and have left a value for the
    argument it resolves to (recorded by them or by an earlier scan), the
    scan fails with DuplicateError naming the token: at once for a FLAG, and
    for a SINGLE when a proper value token follows. *)
Theorem repeated_option_is_reported p argc argv scriptname k optional_args
    positional_args token name info :
  argv !! 0%nat = Some scriptname →
  1 ≤ k → k < argc →
  parse_args_loop (Z.to_nat k) (set_scriptname scriptname p) (m_optional_args p)
    [] 1 k argv
  = Ret (optional_args, positional_args) →
  argv !! Z.to_nat k = Some token →
  valid_option_name token = true →
  lookup_formatted_option_name p token = Ret name →
  name ≠ "help" →
  optional_args !! name = Some info →
  values info ≠ [] →
  type info = FLAG
  ∨ (type info = SINGLE
     ∧ ∃ v, k + 1 < argc ∧ argv !! Z.to_nat (k + 1) = Some v
            ∧ valid_option_name v = false) →
  parse_args p argc argv
  = (Throw (Specified_once token), (set_scriptname scriptname p, argc, argv))
  ∧ error_kind (Specified_once token) = Some DuplicateError.
Proof.
  intros Hscriptname Hk Hargc Hprefix Htoken Hvalid Hlookup Hhelp Hinfo Hvalues
    Hkind.
  split; [|done].
  eapply parse_args_decided_at; [done..|].
  unfold parse_optional_arg.
  change (lookup_formatted_option_name (set_scriptname scriptname p) token)
    with (lookup_formatted_option_name p token).
  rewrite Hlookup. unfold_bind. rewrite decide_False, Hinfo by done.
  destruct Hkind as [Hflag|(Hsingle & v & Hnext & Hv & Hoption)].
  - rewrite decide_True by done. by rewrite bool_decide_false.
  - rewrite decide_False by congruence. rewrite decide_False by lia.
    rewrite Hv, Hoption, bool_decide_true by congruence.
    by rewrite bool_decide_false.
Qed.

Lemma repeated_option_is_reported_witness :
  let p := (add_optional_flag new_parser "-o" "--output" SINGLE "").2 in
  (parse_args p 5 ["prog"; "-o"; "a"; "--output"; "b"]).1
  = Throw (Specified_once "--output").
Proof.
  edestruct (repeated_option_is_reported
               (add_optional_flag new_parser "-o" "--output" SINGLE "").2
               5 ["prog"; "-o"; "a"; "--output"; "b"] "prog" 3)
    as [Hparse _].
  - reflexivity.
  - lia.
  - lia.
  - vm_compute. reflexivity.
  - reflexivity.
  - reflexivity.
  - vm_compute. reflexivity.
  - discriminate.
  - vm_compute. reflexivity.
  - discriminate.
  - right. split; [reflexivity|]. exists "b". split_and!; [lia|reflexivity..].
  - exact (f_equal fst Hparse).
Defined.

Lemma assign_positionals_help_text order positional_args args name pinfo :
  args !! name = Some pinfo →
  ∃ pinfo', assign_positionals order positional_args args !! name = Some pinfo'
            ∧ positional_help_text pinfo' = positional_help_text pinfo.
Proof.
  intros Hname. induction order as [|x order IH] using rev_ind; [eauto|].
  rewrite assign_positionals_snoc. destruct IH as (pinfo' & Hpinfo' & Hhelp).
  case_match; [|eauto].
  destruct (decide (x = name)) as [->|Hne].
  - rewrite lookup_insert_eq. eexists. split; [done|].
    unfold positional_at. by rewrite Hpinfo'.
  - rewrite lookup_insert_ne by done. eauto.
Qed.

(** X14: a successful scan only adds values.  It changes no declaration
    (names, orders, types, flag characters, help texts, the flag index);
    the values each optional argument had before the scan are a prefix of
    those it has after; and every positional record keeps its help
    text. *)
Theorem successful_scan_only_adds_values p argc argv p' argc' argv' :
  parse_args p argc argv = (Ret (), (p', argc', argv')) →
  m_flags p' = m_flags p
  ∧ m_optional_order p' = m_optional_order p
  ∧ m_positional_order p' = m_positional_order p
  ∧ (∀ name, declaration <$> (m_optional_args p' !! name)
             = declaration <$> (m_optional_args p !! name))
  ∧ (∀ name info, m_optional_args p !! name = Some info →
                  ∃ info', m_optional_args p' !! name = Some info'
                           ∧ values info `prefix_of` values info')
  ∧ (∀ name pinfo, m_positional_args p !! name = Some pinfo →
                   ∃ pinfo', m_positional_args p' !! name = Some pinfo'
                             ∧ positional_help_text pinfo'
                               = positional_help_text pinfo).
Proof.
  intros Hparse.
  apply parse_args_Ret in Hparse
    as (scriptname & optional_args & positional_args & _ & _ & Hloop & _ & -> & _).
  simpl. split_and!; [done..| | |].
  - by eapply parse_args_loop_declarations.
  - by eapply parse_args_loop_grows.
  - intros name pinfo. apply assign_positionals_help_text.
Qed.

Lemma successful_scan_only_adds_values_witness :
  let p := (add_optional new_parser "--tag" APPEND "").2 in
  let p1 := (parse_args p 3 ["prog"; "--tag"; "a"]).2.1.1 in
  let p2 := (parse_args p1 3 ["prog"; "--tag"; "b"]).2.1.1 in
  m_flags p2 = m_flags p1
  ∧ ∃ info', m_optional_args p2 !! "tag" = Some info'
             ∧ ["a"] `prefix_of` values info'.
Proof.
  cbv zeta.
  edestruct (successful_scan_only_adds_values
               (parse_args (add_optional new_parser "--tag" APPEND "").2 3
                  ["prog"; "--tag"; "a"]).2.1.1
               3 ["prog"; "--tag"; "b"])
    as (Hflags & _ & _ & _ & Hgrow & _).
  - vm_compute. reflexivity.
  - split; [exact Hflags|].
    apply (Hgrow "tag" (mk_Optional_Info " " APPEND ["a"] "")).
    vm_compute. reflexivity.
Defined.

(** X15: on the arguments of [main] ([argc] strings in [argv], the program
    name first) [parse_args] always ends, reads no slot outside [argv], and
    ends in one of three ways: it returns, it exits with status 0 (help),
    or it throws one of the four scanning errors. *)
Theorem parse_args_ends_within_argv p argc argv :
  1 ≤ argc →
  argc = Z.of_nat (length argv) →
  (parse_args p argc argv).1 = Ret ()
  ∨ (parse_args p argc argv).1 = Exit 0
  ∨ ∃ e, (parse_args p argc argv).1 = Throw e
         ∧ error_kind e
           ∈ [Some UnknownOptionError; Some MissingValueError;
              Some DuplicateError; Some MissingPositionalError].
Proof.
  intros Hargc Hlen. unfold parse_args.
  destruct (lookup_lt_is_Some_2 argv 0) as [scriptname ->]; [lia|].
  rewrite decide_False by lia.
  destruct (parse_args_loop _ _ _ _ _ _ _) as [[optional_args positional_args]| | | |]
    eqn:Hloop; simpl.
  - case_decide; simpl; [|by left]. right. right. eexists. split; [done|].
    simpl. rewrite !elem_of_cons. auto.
  - right. right. eexists. split; [done|].
    apply parse_args_loop_Throw in Hloop. rewrite !elem_of_cons in *. tauto.
  - apply parse_args_loop_Exit in Hloop as ->. auto.
  - apply parse_args_loop_defined in Hloop; [done|lia..].
  - apply parse_args_loop_fuel in Hloop; [done|lia].
Qed.

Lemma parse_args_ends_within_argv_witness :
  (parse_args new_parser 3 ["prog"; "a"; "b"]).1 = Ret ().
Proof.
  destruct (parse_args_ends_within_argv new_parser 3 ["prog"; "a"; "b"]
              ltac:(lia) eq_refl) as [HRet|[Hexit|(e & Hthrow & _)]].
  - exact HRet.
  - vm_compute in Hexit. discriminate Hexit.
  - vm_compute in Hthrow. discriminate Hthrow.
Defined.

(** ** Typed extraction *)

Lemma digit_value_range c : Std.isdigit c = true → 0 ≤ Std.digit_value c ≤ 9.
Proof.
  unfold Std.isdigit, char_in, Std.digit_value.
  intros [Hlo Hhi]%andb_true_iff.
  apply N.leb_le in Hlo, Hhi. simpl in *. lia.
Qed.

Lemma read_digits_range s : Forall (λ d, 0 ≤ d ≤ 9) (Std.read_digits s).
Proof.
  induction s as [|c s IH]; simpl; [constructor|].
  destruct (Std.isdigit c) eqn:Hc; [|constructor].
  constructor; [by apply digit_value_range|done].
Qed.

Lemma decimal_acc_nonneg ds acc :
  0 ≤ acc → Forall (λ d, 0 ≤ d ≤ 9) ds →
  0 ≤ foldl (λ acc d, 10 * acc + d) acc ds.
Proof.
  intros Hacc Hds. revert acc Hacc.
  induction Hds as [|d ds Hd _ IH]; intros acc Hacc; simpl; [done|].
  apply IH. lia.
Qed.

Lemma string_contains_skip_spaces c s :
  string_contains c s = false → string_contains c (Std.skip_spaces s) = false.
Proof.
  induction s as [|c' s IH]; simpl; [done|].
  intros [Hc Hs]%orb_false_iff. destruct (Std.isspace c'); [auto|].
  simpl. by rewrite Hc, Hs.
Qed.

Lemma read_sign_no_minus s :
  string_contains "-" s = false → (Std.read_sign s).1 = false.
Proof.
  destruct s as [|c s]; simpl; [done|].
  intros [Hc _]%orb_false_iff. unfold is_char. rewrite Hc.
  by destruct (bool_decide (c = "+"%char)).
Qed.

Lemma signed_range_check w n :
  ((n <? Std.LLONG_MIN) || (Std.LLONG_MAX <? n) = false
   ∧ (n <? - 2 ^ (bits w - 1)) || (2 ^ (bits w - 1) - 1 <? n) = false)
  ↔ - 2 ^ (bits w - 1) ≤ n ≤ 2 ^ (bits w - 1) - 1.
Proof.
  rewrite !orb_false_iff, !Z.ltb_ge. unfold Std.LLONG_MIN, Std.LLONG_MAX.
  destruct w; simpl; lia.
Qed.

Lemma unsigned_range_check w n :
  0 ≤ n →
  ((Std.ULLONG_MAX <? n) = false ∧ (n <? 0) || (2 ^ bits w - 1 <? n) = false)
  ↔ n ≤ 2 ^ bits w - 1.
Proof.
  intros Hn. rewrite !orb_false_iff, !Z.ltb_ge. unfold Std.ULLONG_MAX.
  destruct w; simpl; lia.
Qed.

(** X16: signed extraction is exact.  When a decimal number can be read
    (optional white space, optional sign, digits), the result is that
    number if it lies within the limits of the requested width, and a
    RangeError otherwise; so no overflow goes unnoticed, and every value
    returned lies within the limits. *)
Theorem signed_extraction_exact (w : width) (name value : string) :
  let signed_text := Std.read_sign (Std.skip_spaces value) in
  let digits := Std.read_digits signed_text.2 in
  let n := if signed_text.1 then - Std.decimal digits else Std.decimal digits in
  digits ≠ [] →
  (- 2 ^ (bits w - 1) ≤ n ≤ 2 ^ (bits w - 1) - 1 →
   parse_string_arg (T := signed_integral w) name value = Ret (Signed n))
  ∧ (¬ (- 2 ^ (bits w - 1) ≤ n ≤ 2 ^ (bits w - 1) - 1) →
     parse_string_arg (T := signed_integral w) name value
     = Throw (Must_be_in_range name))
  ∧ (∀ i, parse_string_arg (T := signed_integral w) name value = Ret i →
          signed_value i = n
          ∧ - 2 ^ (bits w - 1) ≤ signed_value i ≤ 2 ^ (bits w - 1) - 1).
Proof.
  intros signed_text digits n Hdigits.
  assert (parse_string_arg (T := signed_integral w) name value
          = if (n <? Std.LLONG_MIN) || (Std.LLONG_MAX <? n)
            then Throw (Must_be_in_range name)
            else if (n <? - 2 ^ (bits w - 1)) || (2 ^ (bits w - 1) - 1 <? n)
                 then Throw (Must_be_in_range name)
                 else Ret (Signed n)) as ->.
  { simpl. unfold parse_numeric_arg, Std.stoll. subst n digits signed_text.
    destruct (Std.read_sign (Std.skip_spaces value)) as [negative s]. simpl in *.
    destruct (Std.read_digits s) as [|d ds]; [done|].
    by destruct (_ || _). }
  pose proof (signed_range_check w n) as Hcheck.
  destruct ((n <? Std.LLONG_MIN) || (Std.LLONG_MAX <? n)) eqn:Hwide;
    [|destruct ((n <? - 2 ^ (bits w - 1)) || (2 ^ (bits w - 1) - 1 <? n))
        eqn:Hnarrow].
  - split_and!; [|done..]. intros Hin. apply Hcheck in Hin as [? _]. done.
  - split_and!; [|done..]. intros Hin. apply Hcheck in Hin as [_ ?]. done.
  - assert (- 2 ^ (bits w - 1) ≤ n ≤ 2 ^ (bits w - 1) - 1) as Hin
      by by apply Hcheck.
    split_and!; [done|done|]. by intros i [= <-].
Qed.

Lemma signed_extraction_exact_witness :
  parse_string_arg (T := signed_integral W8) "n" " -128" = Ret (Signed (-128))
  ∧ parse_string_arg (T := signed_integral W8) "n" "128"
    = Throw (Must_be_in_range "n").
Proof.
  split.
  - refine (proj1 (signed_extraction_exact W8 "n" " -128" _) _).
    + discriminate.
    + vm_compute. split; discriminate.
  - refine (proj1 (proj2 (signed_extraction_exact W8 "n" "128" _)) _).
    + discriminate.
    + vm_compute. intros [_ H]. apply H. reflexivity.
Defined.

(** X17: unsigned extraction is exact.  For a string without '-' from
    which a decimal number can be read, the result is that number if it is
    at most the maximum of the requested width, and a RangeError otherwise;
    every value returned lies between 0 and that maximum. *)
Theorem unsigned_extraction_exact (w : width) (name value : string) :
  let digits := Std.read_digits (Std.read_sign (Std.skip_spaces value)).2 in
  let n := Std.decimal digits in
  string_contains "-" value = false →
  digits ≠ [] →
  0 ≤ n
  ∧ (n ≤ 2 ^ bits w - 1 →
     parse_string_arg (T := unsigned_integral w) name value = Ret (Unsigned n))
  ∧ (¬ n ≤ 2 ^ bits w - 1 →
     parse_string_arg (T := unsigned_integral w) name value
     = Throw (Must_be_in_range name))
  ∧ (∀ u, parse_string_arg (T := unsigned_integral w) name value = Ret u →
          unsigned_value u = n ∧ 0 ≤ unsigned_value u ≤ 2 ^ bits w - 1).
Proof.
  intros digits n Hminus Hdigits.
  assert (0 ≤ n) as Hn.
  { apply decimal_acc_nonneg; [done|apply read_digits_range]. }
  assert (parse_string_arg (T := unsigned_integral w) name value
          = if Std.ULLONG_MAX <? n
            then Throw (Must_be_in_range name)
            else if (n <? 0) || (2 ^ bits w - 1 <? n)
                 then Throw (Must_be_in_range name)
                 else Ret (Unsigned n)) as ->.
  { simpl. unfold parse_numeric_arg, stoull, Std.stoull. rewrite Hminus.
    pose proof (read_sign_no_minus _ (string_contains_skip_spaces _ _ Hminus))
      as Hsign.
    subst n digits.
    destruct (Std.read_sign (Std.skip_spaces value)) as [negative s].
    simpl in *. subst negative.
    destruct (Std.read_digits s) as [|d ds]; [done|].
    by destruct (Std.ULLONG_MAX <? _). }
  pose proof (unsigned_range_check w n Hn) as Hcheck.
  split; [done|].
  destruct (Std.ULLONG_MAX <? n) eqn:Hwide;
    [|destruct ((n <? 0) || (2 ^ bits w - 1 <? n)) eqn:Hnarrow].
  - split_and!; [|done..]. intros Hin. apply Hcheck in Hin as [? _]. done.
  - split_and!; [|done..]. intros Hin. apply Hcheck in Hin as [_ ?]. done.
  - assert (n ≤ 2 ^ bits w - 1) as Hin by by apply Hcheck.
    split_and!; [done|done|]. by intros u [= <-].
Qed.

Lemma unsigned_extraction_exact_witness :
  parse_string_arg (T := unsigned_integral W8) "n" "255" = Ret (Unsigned 255)
  ∧ parse_string_arg (T := unsigned_integral W8) "n" "256"
    = Throw (Must_be_in_range "n").
Proof.
  split.
  - refine (proj1 (proj2 (unsigned_extraction_exact W8 "n" "255" _ _)) _).
    + reflexivity.
    + discriminate.
    + vm_compute. discriminate.
  - refine (proj1 (proj2 (proj2 (unsigned_extraction_exact W8 "n" "256" _ _))) _).
    + reflexivity.
    + discriminate.
    + vm_compute. intros H. apply H. reflexivity.
Defined.

(** X18: once an optional argument has a value, an index past its last
    value is an error for every requested type, fallback or not:
    [arg_at] fails with IndexOutOfRangeError naming the index. *)
Theorem index_past_the_end_is_reported {T : Type} `{Arg_Type T}
    (p : Argument_Parser) (name : string) (info : Optional_Info) (idx : nat)
    (has_default : bool) (default_val : T) :
  m_optional_args p !! name = Some info →
  values info ≠ [] →
  (length (values info) ≤ idx)%nat →
  arg_at p name idx has_default default_val
  = Throw (Index_out_of_range idx name)
  ∧ error_kind (Index_out_of_range idx name) = Some IndexOutOfRangeError.
Proof.
  intros Hinfo Hvalues Hidx. split; [|done]. unfold arg_at.
  by rewrite Hinfo, optional_arg_out_of_range.
Qed.

Lemma index_past_the_end_is_reported_witness :
  let p := (add_optional new_parser "--tag" APPEND "").2 in
  arg_at_index_default (T := string)
    (parse_args p 3 ["prog"; "--tag"; "a"]).2.1.1 "tag" 1 "none"
  = Throw (Index_out_of_range 1 "tag").
Proof.
  cbv zeta.
  refine (proj1 (index_past_the_end_is_reported (T := string)
                   (parse_args (add_optional new_parser "--tag" APPEND "").2 3
                      ["prog"; "--tag"; "a"]).2.1.1
                   "tag" (mk_Optional_Info " " APPEND ["a"] "") 1 true "none"
                   _ _ _)).
  - vm_compute. reflexivity.
  - discriminate.
  - simpl. lia.
Defined.

(** X19: [has_arg] and [arg_count] know optional arguments only.  In every
    registry a program can build, for a declared positional name both fail
    with UnknownArgumentError although [arg_at] extracts its value; and for
    a name that is declared nowhere all three fail with
    UnknownArgumentError, whatever the requested type. *)
Theorem optional_queries_reject_positionals p name :
  reachable p →
  name ∈ m_positional_order p →
  has_arg p name = Throw (No_optional_argument name)
  ∧ arg_count p name = Throw (No_optional_argument name)
  ∧ error_kind (No_optional_argument name) = Some UnknownArgumentError
  ∧ (∃ pinfo, m_positional_args p !! name = Some pinfo
              ∧ arg_at_index (T := string) p name 0 = Ret (value pinfo))
  ∧ (∀ unknown,
        m_optional_args p !! unknown = None →
        m_positional_args p !! unknown = None →
        has_arg p unknown = Throw (No_optional_argument unknown)
        ∧ arg_count p unknown = Throw (No_optional_argument unknown)
        ∧ (∀ (T : Type) `(Arg_Type T) idx has_default (default_val : T),
              arg_at p unknown idx has_default default_val
              = Throw (No_argument unknown))
        ∧ error_kind (No_argument unknown) = Some UnknownArgumentError).
Proof.
  intros Hreachable Hname.
  destruct (reachable_positional p name Hreachable Hname) as [Hoptional [pinfo Hpinfo]].
  unfold has_arg, arg_count. rewrite Hoptional. split_and!; [done..| |].
  - exists pinfo. split; [done|]. unfold arg_at_index, arg_at.
    by rewrite Hoptional, Hpinfo.
  - intros unknown Hopt Hpos. rewrite Hopt. split_and!; [done..| |done].
    intros. unfold arg_at. by rewrite Hopt, Hpos.
Qed.

Lemma optional_queries_reject_positionals_witness :
  let p := (add_positional new_parser "file" "").2 in
  has_arg p "file" = Throw (No_optional_argument "file").
Proof.
  cbv zeta.
  refine (proj1 (optional_queries_reject_positionals
                   (add_positional new_parser "file" "").2 "file" _ _)).
  - apply reachable_add_positional, reachable_new.
  - apply list_elem_of_here.
Defined.

(** X20: recorded values come back as text verbatim and in order: for an
    optional argument none of whose values is empty, [arg_count] is the
    number of values and text extraction at indices 0, 1, ... up to the
    count returns exactly the recorded values. *)
Theorem text_values_round_trip p name info :
  m_optional_args p !! name = Some info →
  Forall (λ v, v ≠ "") (values info) →
  arg_count p name = Ret (length (values info))
  ∧ map (λ idx, arg_at_index (T := string) p name idx)
      (seq 0 (length (values info)))
    = map Ret (values info).
Proof.
  intros Hinfo Hvalues. split.
  - unfold arg_count. by rewrite Hinfo.
  - apply list_eq. intros idx. rewrite !list_lookup_fmap.
    destruct (values info !! idx) as [v|] eqn:Hv; simpl.
    + rewrite lookup_seq_lt by by eapply lookup_lt_Some. simpl. f_equal.
      unfold arg_at_index.
      rewrite (arg_at_optional _ _ _ _ _ _ v Hinfo) by by apply optional_arg_stored.
      eapply Forall_lookup_1 in Hvalues; [|done]. by destruct v.
    + rewrite lookup_seq_ge; [done|]. by apply lookup_ge_None.
Qed.

Lemma text_values_round_trip_witness :
  let p := (add_optional new_parser "--tag" APPEND "").2 in
  let p' := (parse_args p 5 ["prog"; "--tag"; "a"; "--tag"; "b"]).2.1.1 in
  map (λ idx, arg_at_index (T := string) p' "tag" idx) (seq 0 2)
  = [Ret "a"; Ret "b"].
Proof.
  cbv zeta.
  refine (proj2 (text_values_round_trip
                   (parse_args (add_optional new_parser "--tag" APPEND "").2 5
                      ["prog"; "--tag"; "a"; "--tag"; "b"]).2.1.1
                   "tag" (mk_Optional_Info " " APPEND ["a"; "b"] "") _ _)).
  - vm_compute. reflexivity.
  - repeat constructor; discriminate.
Defined.

(** ** Usage and help text *)

Example print_help_sample :
  let p := (add_positional new_parser "file" "input file").2 in
  let p := (add_optional_flag p "-o" "--output" SINGLE "where to write").2 in
  print_help (set_scriptname "prog" p)
  = Printed
      ("Usage: prog [options] <file>" +:+ endl
       +:+ endl +:+ "Positional arguments:" +:+ endl
       +:+ "  file              input file" +:+ endl
       +:+ endl +:+ "Options:" +:+ endl
       +:+ "  -h, --help                  " +:+ endl
       +:+ "  -o, --output OUTPUT         where to write" +:+ endl).
Proof. vm_compute. reflexivity. Qed.

Lemma length_append (a b : string) :
  String.length (a +:+ b) = (String.length a + String.length b)%nat.
Proof. induction a as [|c a IH]; [done|]. rewrite append_cons. simpl. by rewrite IH. Qed.

Lemma length_spaces n : String.length (spaces n) = n.
Proof. induction n as [|n IH]; simpl; by rewrite ?IH. Qed.

Lemma setw_left_length width s :
  String.length (setw_left width s) = (width `max` String.length s)%nat.
Proof. unfold setw_left. rewrite length_append, length_spaces. lia. Qed.

Lemma setw_left_long width s :
  (width ≤ String.length s)%nat → setw_left width s = s.
Proof.
  intros Hlong. unfold setw_left.
  replace (width - String.length s)%nat with 0%nat by lia. apply append_nil_r.
Qed.

(** On the characters of a name [toupper] is defined, yields no lowercase
    letter, and changes nothing but lowercase letters. *)
Lemma toupper_name_char c :
  name_char c = true →
  ∃ c', toupper c = Some c'
        ∧ char_in "a" "z" c' = false
        ∧ name_char c' = true
        ∧ (char_in "a" "z" c = false → c' = c).
Proof.
  intros Hc.
  destruct c as [[] [] [] [] [] [] [] []]; try discriminate Hc;
    eexists; (split; [reflexivity|]); split_and!; try reflexivity;
    intros; (reflexivity || discriminate).
Qed.

Lemma str_to_upper_name s :
  string_forall name_char s = true →
  ∃ upper, str_to_upper s = inl upper
           ∧ String.length upper = String.length s
           ∧ string_forall name_char upper = true
           ∧ string_forall (λ c, negb (char_in "a" "z" c)) upper = true
           ∧ (string_forall (λ c, negb (char_in "a" "z" c)) s = true →
              upper = s).
Proof.
  induction s as [|c s IH]; simpl.
  - intros _. by exists "".
  - intros [Hc Hs]%andb_true_iff.
    destruct (toupper_name_char c Hc) as (c' & -> & Hupper & Hname & Hsame).
    destruct (IH Hs) as (upper & -> & Hlen & Hnames & Huppers & Hfixed).
    exists (String c' upper). simpl.
    rewrite Hlen, Hupper, Hname, Hnames, Huppers. split_and!; [done..|].
    intros [Hlow Hrest]%andb_true_iff. apply negb_true_iff in Hlow.
    by rewrite Hsame, Hfixed.
Qed.

Lemma name_start_char_name_char c : name_start_char c = true → name_char c = true.
Proof.
  unfold name_start_char, name_char.
  intros [[->| ->]%orb_true_iff| ->]%orb_true_iff;
    by rewrite ?orb_true_r.
Qed.

Lemma long_name_group_name_chars name :
  regex_match long_name_group name = true → string_forall name_char name = true.
Proof.
  intros (c & rest & -> & Hc & _ & Hrest)%long_name_group_spec. simpl.
  by rewrite name_start_char_name_char, Hrest.
Qed.

(** X21: the placeholder of an option in the help text is its reference
    name in upper case: for every reference name (a string of the form
    [[a-zA-Z_][a-zA-Z0-9_-]+]) [str_to_upper] is defined, keeps the length,
    leaves no lowercase letter, and is idempotent. *)
Theorem str_to_upper_of_reference_name name :
  regex_match long_name_group name = true →
  ∃ upper,
    str_to_upper name = inl upper
    ∧ String.length upper = String.length name
    ∧ string_forall (λ c, negb (char_in "a" "z" c)) upper = true
    ∧ str_to_upper upper = inl upper.
Proof.
  intros Hname%long_name_group_name_chars.
  destruct (str_to_upper_name name Hname)
    as (upper & Hupper & Hlen & Hnames & Huppers & _).
  exists upper. split_and!; [done..|].
  destruct (str_to_upper_name upper Hnames) as (upper' & -> & _ & _ & _ & Hfixed).
  by rewrite Hfixed.
Qed.

Lemma str_to_upper_of_reference_name_witness :
  str_to_upper "dry-run_2" = inl "DRY-RUN_2".
Proof.
  destruct (str_to_upper_of_reference_name "dry-run_2" eq_refl)
    as (upper & Hupper & _).
  rewrite Hupper. vm_compute in Hupper. exact (eq_sym Hupper).
Defined.

Lemma print_lines_Printed (line : string → printed) names :
  (∀ name, name ∈ names → ∃ text, line name = Printed text) →
  ∃ text, print_lines line names = Printed text.
Proof.
  induction names as [|name names IH]; intros Hlines; simpl; [eauto|].
  destruct (Hlines name) as [text ->]; [apply list_elem_of_here|].
  destruct IH as [rest ->]; [|eauto].
  intros n Hn. apply Hlines. by apply list_elem_of_further.
Qed.

(** X22: in every registry a program can build [print_help] prints: no
    record is missing for a name of the two declaration orders and
    [toupper] is defined on every reference name.  The text starts with the
    usage line, which always holds [[options]] (the built-in [help] makes
    the optional map non-empty) and names the positional arguments in
    declaration order. *)
Theorem print_help_prints p :
  reachable p →
  (∃ body, print_help p = Printed (print_usage p +:+ body))
  ∧ print_usage p
    = "Usage: " +:+ m_scriptname p +:+ " [options]"
      +:+ foldr (λ positional text, " <" +:+ positional +:+ ">" +:+ text) ""
            (m_positional_order p)
      +:+ endl.
Proof.
  intros Hreachable.
  destruct (reachable_invariant p Hreachable) as (_ & Hpositional & _).
  destruct (reachable_optional_invariant p Hreachable)
    as (_ & Hoptional & _ & _ & Hnames & _ & _ & info & Hhelp & _).
  assert (m_optional_args p ≠ ∅) as Hnonempty.
  { intros Hempty. by rewrite Hempty in Hhelp. }
  split; [|unfold print_usage; by rewrite bool_decide_false].
  unfold print_help.
  destruct (print_lines_Printed (positional_help_line p) (m_positional_order p))
    as [positionals ->].
  { intros name [pinfo Hpinfo]%Hpositional. unfold positional_help_line.
    rewrite Hpinfo. eauto. }
  destruct (print_lines_Printed (optional_help_line p) (m_optional_order p))
    as [options ->].
  { intros name Hname%Hoptional. pose proof (Hnames _ Hname) as Hform.
    destruct Hname as [info' Hinfo']. unfold optional_help_line. rewrite Hinfo'.
    destruct (str_to_upper_name name (long_name_group_name_chars _ Hform))
      as (upper & -> & _).
    case_bool_decide; eauto. }
  rewrite (bool_decide_true (m_optional_args p ≠ ∅)) by done.
  case_bool_decide; eexists; by rewrite ?append_assoc.
Qed.

Lemma print_help_prints_witness :
  ∃ body,
    print_help (add_optional new_parser "--output" SINGLE "").2
    = Printed (print_usage (add_optional new_parser "--output" SINGLE "").2
               +:+ body).
Proof.
  refine (proj1 (print_help_prints
                   (add_optional new_parser "--output" SINGLE "").2 _)).
  apply reachable_add_optional, reachable_new.
Defined.

(** X23: the help table of the positional arguments is aligned by padding,
    not by truncation: for a name of at most 18 characters the help text
    starts at column 20, and a longer name is printed in full with its help
    text right behind it, without a separating space. *)
Theorem positional_help_line_columns p positional pinfo :
  m_positional_args p !! positional = Some pinfo →
  (∃ lead, positional_help_line p positional
           = Printed (lead +:+ positional_help_text pinfo +:+ endl)
           ∧ String.length lead = (20 `max` (2 + String.length positional))%nat)
  ∧ ((18 ≤ String.length positional)%nat →
     positional_help_line p positional
     = Printed ("  " +:+ positional +:+ positional_help_text pinfo +:+ endl)).
Proof.
  intros Hpinfo. unfold positional_help_line. rewrite Hpinfo. split.
  - exists ("  " +:+ setw_left 18 positional). split.
    + by rewrite append_assoc.
    + rewrite length_append, setw_left_length. simpl. lia.
  - intros Hlong. by rewrite setw_left_long.
Qed.

Lemma positional_help_line_columns_witness :
  positional_help_line (add_positional new_parser "a-rather-long-positional" "x").2
    "a-rather-long-positional"
  = Printed ("  a-rather-long-positionalx" +:+ endl).
Proof.
  refine (proj2 (positional_help_line_columns
                   (add_positional new_parser "a-rather-long-positional" "x").2
                   "a-rather-long-positional" (mk_Positional_Info "" "x") _) _).
  - vm_compute. reflexivity.
  - vm_compute. lia.
Defined.

(** ** Tokens that are not options *)

Lemma valid_option_name_starts_with_dash c rest :
  is_char "-" c = false → valid_option_name (String c rest) = false.
Proof.
  intros Hc. unfold valid_option_name. simpl.
  case_bool_decide; [done|]. simpl. rewrite Hc. by apply void_no_match.
Qed.

(** X24: what the two validity checks accept.  A positional name is valid
    exactly when (up to its first NUL) it starts with a letter, digit or
    underscore and goes on with letters, digits, underscores and hyphens;
    a valid positional name is never option-like, and neither is the empty
    string. *)
Theorem valid_positional_name_exactly name :
  (valid_positional_name name = true
   ↔ ∃ c rest, c_str name = String c rest ∧ word_char c = true
               ∧ string_forall name_char rest = true)
  ∧ (valid_positional_name name = true → valid_option_name name = false)
  ∧ valid_positional_name "" = false
  ∧ valid_option_name "" = false.
Proof.
  assert (valid_positional_name name = true
          ↔ ∃ c rest, c_str name = String c rest ∧ word_char c = true
                      ∧ string_forall name_char rest = true) as Hexact.
  { unfold valid_positional_name, positional_name_regex.
    destruct (c_str name) as [|c rest].
    - split; [done|]. by intros (? & ? & ? & _).
    - rewrite regex_match_Class_cons, regex_match_Star_Class, andb_true_iff.
      split; [eauto|]. by intros (? & ? & [= <- <-] & ? & ?). }
  split_and!; [done| |done..].
  intros (c & rest & Hname & Hc & _)%Hexact.
  unfold valid_option_name. rewrite Hname. simpl.
  assert (is_char "-" c = false) as ->.
  { unfold is_char. case_bool_decide; [by subst c|done]. }
  by apply void_no_match.
Qed.

(** X25: a negative number is never taken for an option: a token made of a
    dash and a digit, whatever follows, is not option-like, so it can be
    the value of an option or a positional argument; the same holds for
    every token that does not start with a dash, for ["-"] and for
    ["--"]. *)
Theorem negative_numbers_are_not_options c rest :
  Std.isdigit c = true →
  valid_option_name (String "-" (String c rest)) = false
  ∧ (∀ c' rest', is_char "-" c' = false →
                 valid_option_name (String c' rest') = false)
  ∧ valid_option_name "-" = false
  ∧ valid_option_name "--" = false.
Proof.
  intros Hc. split_and!; [|apply valid_option_name_starts_with_dash|done..].
  assert (name_start_char c = false ∧ is_char "-" c = false ∧ c ≠ NUL)
    as (Hstart & Hdash & Hnul).
  { destruct c as [[] [] [] [] [] [] [] []]; try discriminate Hc; done. }
  unfold valid_option_name. simpl. rewrite !bool_decide_false by done. simpl.
  rewrite Hstart, Hdash. by apply void_no_match.
Qed.

Lemma negative_numbers_are_not_options_witness :
  valid_option_name "-5" = false ∧ valid_option_name "-0.5e3" = false.
Proof.
  split.
  - exact (proj1 (negative_numbers_are_not_options "5" "" eq_refl)).
  - exact (proj1 (negative_numbers_are_not_options "0" ".5e3" eq_refl)).
Defined.

Lemma parse_args_loop_plain fuel p optional_args positional_args argi argc argv :
  0 ≤ argi → argc ≤ Z.of_nat (length argv) →
  (Z.to_nat (argc - argi) ≤ fuel)%nat →
  Forall (λ token, valid_option_name token = false)
    (scanned_tokens argi argc argv) →
  parse_args_loop fuel p optional_args positional_args argi argc argv
  = Ret (optional_args, positional_args ++ scanned_tokens argi argc argv).
Proof.
  revert positional_args argi.
  induction fuel as [|fuel IH]; intros positional_args argi Hargi Hargc Hfuel
    Hplain.
  - rewrite parse_args_loop_end, scanned_tokens_done by lia.
    by rewrite app_nil_r.
  - destruct (decide (argi < argc)) as [Hlt|Hge].
    2:{ rewrite parse_args_loop_end, scanned_tokens_done by done.
        by rewrite app_nil_r. }
    destruct (lookup_lt_is_Some_2 argv (Z.to_nat argi)) as [token Htoken]; [lia|].
    rewrite (scanned_tokens_cons _ _ _ token) in Hplain |- * by done.
    apply Forall_cons in Hplain as [Hvalid Hplain].
    rewrite (parse_args_loop_positional _ _ _ _ _ _ _ token) by done.
    rewrite IH by (done || lia). by rewrite <- app_assoc.
Qed.

(** X26: a command line without option-like tokens, on the arguments of
    [main]: if it has at least as many tokens as there are declared
    positional arguments (with distinct names), [parse_args] returns; the
    [i]-th declared positional gets the [i]-th token, no optional argument
    changes, and the remaining tokens are handed back in order in slots 1,
    2, ... of [argv], [argc] being their number plus one. *)
Theorem plain_command_line_is_positional p argc argv :
  1 ≤ argc →
  argc = Z.of_nat (length argv) →
  NoDup (m_positional_order p) →
  Forall (λ token, valid_option_name token = false) (drop 1 argv) →
  (length (m_positional_order p) ≤ length (drop 1 argv))%nat →
  ∃ p' argv',
    parse_args p argc argv
    = (Ret (), (p', Z.of_nat (length argv - length (m_positional_order p)), argv'))
    ∧ m_optional_args p' = m_optional_args p
    ∧ (∀ i name, m_positional_order p !! i = Some name →
                 value <$> (m_positional_args p' !! name) = argv !! S i)
    ∧ take (length argv - 1 - length (m_positional_order p)) (drop 1 argv')
      = drop (S (length (m_positional_order p))) argv.
Proof.
  intros Hargc Hlen Hnodup Hplain Henough.
  assert (scanned_tokens 1 argc argv = drop 1 argv) as Htokens.
  { unfold scanned_tokens. change (Z.to_nat 1) with 1%nat.
    apply take_ge. rewrite length_drop. lia. }
  destruct (lookup_lt_is_Some_2 argv 0) as [scriptname Hscriptname]; [lia|].
  rewrite length_drop in Henough.
  unfold parse_args. rewrite Hscriptname. cbv zeta.
  rewrite decide_False by lia.
  rewrite parse_args_loop_plain by (rewrite ?Htokens; done || lia).
  rewrite Htokens. simpl.
  rewrite decide_False by (rewrite length_drop; lia).
  eexists _, _. split_and!.
  - f_equal. f_equal. f_equal. rewrite length_drop. lia.
  - done.
  - intros i name Hname. simpl.
    rewrite (assign_positionals_value _ _ _ i) by (rewrite ?length_drop; done || lia).
    by rewrite lookup_drop.
  - replace (drop (S (length (m_positional_order p))) argv)
      with (drop (length (m_positional_order p)) (drop 1 argv))
      by by rewrite drop_drop.
    replace (length argv - 1 - length (m_positional_order p))%nat
      with (length (drop 1 argv) - length (m_positional_order p))%nat
      by (rewrite length_drop; lia).
    apply rethread_leftovers_slots; rewrite length_drop; lia.
Qed.

Lemma plain_command_line_is_positional_witness :
  let p := (add_positional new_parser "file" "").2 in
  (parse_args p 3 ["prog"; "a.txt"; "-7"]).1 = Ret ().
Proof.
  cbv zeta.
  edestruct (plain_command_line_is_positional
               (add_positional new_parser "file" "").2 3 ["prog"; "a.txt"; "-7"])
    as (p' & argv' & Hparse & _).
  - lia.
  - reflexivity.
  - apply NoDup_singleton.
  - repeat constructor.
  - vm_compute. lia.
  - exact (f_equal fst Hparse).
Defined.
